(** * Kinect-Node: capture-to-broadcast pipeline

    A shallow embedding of the buffer pool, the depth sensor's frame path,
    the depth / colour / infrared / body workers, the sensor lifecycle, the
    multi-source synchroniser, the WebSocket service with its client's
    side of the identification handshake, and the logging service's level
    filter, together with the properties checked against them.

    Conventions.
    - A JavaScript method that mutates [this] becomes a function from the
      object's state to its new state; the events it emits are returned as
      a list, oldest first.
    - A [throw] is the [Err] branch of [result]; when the source mutates
      state before throwing, the mutated state is returned with the error.
    - Calls to [Date.now()] take the current time as an argument [now].
    - JavaScript numbers that only ever hold counters, sizes and
      millisecond timestamps are integers ([Z]); numbers that hold
      measurements (normalised depth, joint coordinates) are binary64
      floats ([PrimFloat.float]). *)

From Stdlib Require Import ZArith List Bool Lia Floats.
From stdpp Require Import gmap strings list fin_maps pretty.

#[local] Set Warnings "-inexact-float,-register-all".

Open Scope Z_scope.

(** ** Thrown errors *)

Inductive result (A : Type) : Type :=
| Ok (a : A)
| Err (message : string).
Arguments Ok {A} a.
Arguments Err {A} message.

(** Sequencing: the first [throw] ends the computation. *)
#[export] Instance result_ret : MRet result := fun _ a => Ok a.
#[export] Instance result_bind : MBind result := fun _ _ f r =>
  match r with
  | Ok a => f a
  | Err message => Err message
  end.

(** ** services/buffer-pool.js *)

Module BufferPool.

(** A typed array is an object compared by identity: it is represented
    by the serial number of its allocation.  The element contents are
    not part of the bookkeeping and are not represented.  What [fill(0)]
    on release depends on is whether the ArrayBuffer behind the array is
    still attached: a [postMessage] that lists it for transfer detaches
    it, and [fill] on a typed array with a detached ArrayBuffer throws a
    TypeError. *)
Definition buffer := nat.

(** One entry of [#pools]: the free list (a JS array, last element on
    top) and the set of outstanding buffers. *)
Record Pool := mkPool {
  buffers : list buffer;
  inUse : gset buffer;
  lastAccessed : Z
}.

Record Stats := mkStats {
  hits : Z;
  misses : Z;
  created : Z;
  released : Z;
  poolSize : Z;
  maxUsed : Z;
  lastResized : option Z
}.

Record Config := mkConfig {
  clearOnRelease : bool;
  trackStats : bool
}.

Record t := mkState {
  pools : gmap string Pool;
  config : Config;
  maxPoolSize : Z;
  initialSize : Z;
  expandSize : Z;
  stats : Stats;
  nextBuffer : buffer   (* serial number of the next allocation *)
}.

Inductive Event :=
| poolExhausted (type : string) (poolSize inUse timestamp : Z)
| bufferReleased (type : string) (poolSize inUse timestamp : Z)
| poolResized (maxPoolSize currentSize timestamp : Z).

(** The keys of [#BUFFER_CONFIGS], in declaration order. *)
Definition BUFFER_CONFIGS : list string :=
  ["depth"; "color"; "infrared"; "body"]%string.

Definition len (l : list buffer) : Z := Z.of_nat (length l).
Definition size (s : gset buffer) : Z := Z.of_nat (base.size s).

Definition set_stats (s : Stats) (p : t) : t :=
  mkState (pools p) (config p) (maxPoolSize p)
          (initialSize p) (expandSize p) s (nextBuffer p).

(** [pool.buffers.push(pool.create()); created++; poolSize++], repeated
    [n] times. *)
Fixpoint allocate (n : nat) (pool : Pool) (s : Stats) (next : buffer)
  : Pool * Stats * buffer :=
  match n with
  | O => (pool, s, next)
  | S n' =>
      let pool' := mkPool (buffers pool ++ [next]) (inUse pool) (lastAccessed pool) in
      let s' := mkStats (hits s) (misses s) (created s + 1) (released s)
                        (poolSize s + 1) (maxUsed s) (lastResized s) in
      allocate n' pool' s' (S next)
  end.

Definition empty_stats : Stats := mkStats 0 0 0 0 0 0 None.

(** [#initializePools]. *)
Definition initializePools (now : Z) (p : t) : t :=
  fold_left
    (fun p type =>
       let '(pool, s, next) :=
         allocate (Z.to_nat (initialSize p)) (mkPool [] ∅ now) (stats p) (nextBuffer p) in
       mkState (<[type := pool]> (pools p)) (config p) (maxPoolSize p)
               (initialSize p) (expandSize p) s next)
    BUFFER_CONFIGS p.

(** The options object handed to the constructor; an absent field is
    [None].  [x || d] also replaces a zero by the default. *)
Record Options := mkOptions {
  opt_maxPoolSize : option Z;
  opt_initialSize : option Z;
  opt_expandSize : option Z;
  opt_clearOnRelease : option bool;
  opt_trackStats : option bool
}.

Definition or_default (o : option Z) (d : Z) : Z :=
  match o with
  | Some v => if v =? 0 then d else v
  | None => d
  end.

(** [constructor]: [#validateAndSetConfig] then [#initializePools]. *)
Definition new (now : Z) (o : Options) : result t :=
  let maxPoolSize := Z.max 1 (or_default (opt_maxPoolSize o) 20) in
  let initialSize := Z.max 1 (or_default (opt_initialSize o) 5) in
  let expandSize := Z.max 1 (or_default (opt_expandSize o) 2) in
  if initialSize >? maxPoolSize then
    Err "Initial size cannot be larger than max pool size"
  else
    Ok (initializePools now
          (mkState ∅
             (mkConfig (negb (bool_decide (opt_clearOnRelease o = Some false)))
                       (negb (bool_decide (opt_trackStats o = Some false))))
             maxPoolSize initialSize expandSize empty_stats O)).

(** [#getBufferFromPool]. *)
Definition getBufferFromPool (pool : Pool) (s : Stats)
  : option buffer * Pool * Stats :=
  match last (buffers pool) with
  | Some b =>
      (Some b,
       mkPool (removelast (buffers pool)) (inUse pool) (lastAccessed pool),
       mkStats (hits s + 1) (misses s) (created s) (released s)
               (poolSize s) (maxUsed s) (lastResized s))
  | None => (None, pool, s)
  end.

(** [#expandPoolAndGetBuffer]. *)
Definition expandPoolAndGetBuffer (now : Z) (type : string) (maxPoolSize expandSize : Z)
    (pool : Pool) (s : Stats) (next : buffer)
  : option buffer * Pool * Stats * buffer * list Event :=
  if poolSize s >=? maxPoolSize then
    (None, pool, s, next, [poolExhausted type (poolSize s) (size (inUse pool)) now])
  else
    let s1 := mkStats (hits s) (misses s + 1) (created s + 1) (released s)
                      (poolSize s + 1) (maxUsed s) (lastResized s) in
    let b := next in
    let buffersToAdd := Z.min (expandSize - 1) (maxPoolSize - poolSize s1) in
    let '(pool', s2, next') := allocate (Z.to_nat buffersToAdd) pool s1 (S next) in
    (Some b, pool', s2, next', []).

(** [acquire(type)]. *)
Definition acquire (now : Z) (type : string) (p : t)
  : result (option buffer) * t * list Event :=
  match pools p !! type with
  | None => (Err ("Unknown buffer type: " +:+ type), p, [])
  | Some pool =>
      let pool := mkPool (buffers pool) (inUse pool) now in
      let '(got, pool, s, next, evs) :=
        match getBufferFromPool pool (stats p) with
        | (Some b, pool, s) => (Some b, pool, s, nextBuffer p, [])
        | (None, pool, s) =>
            expandPoolAndGetBuffer now type (maxPoolSize p) (expandSize p)
                                   pool s (nextBuffer p)
        end in
      match got with
      | Some b =>
          let pool := mkPool (buffers pool) ({[b]} ∪ inUse pool) (lastAccessed pool) in
          let s := mkStats (hits s) (misses s) (created s) (released s) (poolSize s)
                           (Z.max (maxUsed s) (size (inUse pool))) (lastResized s) in
          (Ok (Some b),
           mkState (<[type := pool]> (pools p)) (config p) (maxPoolSize p)
                   (initialSize p) (expandSize p) s next,
           evs)
      | None =>
          (Ok None,
           mkState (<[type := pool]> (pools p)) (config p) (maxPoolSize p)
                   (initialSize p) (expandSize p) s next,
           evs)
      end
  end.

(** [release(type, buffer)]; a [null] buffer is [None].  [detached]
    says whether the ArrayBuffer of [buffer] has been transferred to
    another thread: [buffer.fill(0)] then throws, after the guard and
    before the pool is touched; on an attached buffer it only rewrites
    the contents. *)
Definition release_view (detached : bool) (now : Z) (type : string) (b : option buffer)
    (p : t) : result unit * t * list Event :=
  match pools p !! type with
  | None => (Err ("Unknown buffer type: " +:+ type), p, [])
  | Some pool =>
      match b with
      | None => (Err "Invalid or untracked buffer", p, [])
      | Some b =>
          if bool_decide (b ∈ inUse pool) then
            if detached && clearOnRelease (config p) then
              (Err "Cannot perform %TypedArray%.prototype.fill on a detached ArrayBuffer",
               p, [])
            else
              let pool := mkPool (buffers pool ++ [b]) (inUse pool ∖ {[b]})
                                 (lastAccessed pool) in
              let s := stats p in
              let s := mkStats (hits s) (misses s) (created s) (released s + 1)
                               (poolSize s) (maxUsed s) (lastResized s) in
              (Ok tt,
               mkState (<[type := pool]> (pools p)) (config p) (maxPoolSize p)
                       (initialSize p) (expandSize p) s (nextBuffer p),
               [bufferReleased type (len (buffers pool)) (size (inUse pool)) now])
          else (Err "Invalid or untracked buffer", p, [])
      end
  end.

(** [release(type, buffer)] for a buffer that was never listed for
    transfer, as is every buffer a caller of the pool alone holds. *)
Definition release (now : Z) (type : string) (b : option buffer) (p : t)
  : result unit * t * list Event :=
  release_view false now type b p.

(** The [while] loop of [#shrinkPools] for one pool; every iteration pops
    one buffer, so [length (buffers pool)] iterations are enough. *)
Fixpoint shrinkPool (fuel : nat) (maxPoolSize : Z) (pool : Pool) (poolSize : Z)
  : Pool * Z :=
  match fuel with
  | O => (pool, poolSize)
  | S fuel' =>
      if (len (buffers pool) + size (inUse pool) >? maxPoolSize)
         && (len (buffers pool) >? 0)
      then shrinkPool fuel' maxPoolSize
             (mkPool (removelast (buffers pool)) (inUse pool) (lastAccessed pool))
             (poolSize - 1)
      else (pool, poolSize)
  end.

(** [#shrinkPools]: the loop over [this.#pools.values()]. *)
Definition shrinkPools (p : t) : t :=
  let '(pools', poolSize') :=
    map_fold
      (fun type pool '(acc, poolSize) =>
         let '(pool', poolSize') :=
           shrinkPool (length (buffers pool)) (maxPoolSize p) pool poolSize in
         (<[type := pool']> acc, poolSize'))
      (pools p, poolSize (stats p)) (pools p) in
  let s := stats p in
  mkState pools' (config p) (maxPoolSize p) (initialSize p) (expandSize p)
          (mkStats (hits s) (misses s) (created s) (released s) poolSize'
                   (maxUsed s) (lastResized s))
          (nextBuffer p).

Definition totalInUse (p : t) : Z :=
  map_fold (fun _ pool acc => acc + size (inUse pool)) 0 (pools p).

(** [resize(newSize)] for a numeric argument. *)
Definition resize (now : Z) (newSize : Z) (p : t) : result unit * t * list Event :=
  if newSize <? 1 then (Err "New size must be a positive number", p, [])
  else if totalInUse p >? newSize then
    (Err "New size is smaller than current in-use buffers", p, [])
  else
    let p1 := mkState (pools p) (config p) newSize (initialSize p) (expandSize p)
                      (stats p) (nextBuffer p) in
    let p2 := shrinkPools p1 in
    let s := stats p2 in
    let p3 := set_stats (mkStats (hits s) (misses s) (created s) (released s)
                                 (poolSize s) (maxUsed s) (Some now)) p2 in
    (Ok tt, p3, [poolResized (maxPoolSize p3) (poolSize (stats p3)) now]).

(** The number of buffers the pool really holds, free and outstanding,
    over all kinds (what [getStats] reports per kind as
    [available + inUse]). *)
Definition totalBuffers (p : t) : Z :=
  map_fold (fun _ pool acc => acc + len (buffers pool) + size (inUse pool)) 0 (pools p).

(** The loop of [clear()] over [this.#pools.values()].  The keys of
    [#pools] are set by [#initializePools] alone, so the map holds the
    kinds of [BUFFER_CONFIGS] in that order.  A pool emptied before the
    loop throws stays emptied. *)
Fixpoint clear_loop (types : list string) (p : t) : result unit * t :=
  match types with
  | [] => (Ok tt, p)
  | type :: rest =>
      match pools p !! type with
      | None => clear_loop rest p
      | Some pool =>
          if size (inUse pool) >? 0 then
            (Err "Cannot clear pool while buffers are in use", p)
          else
            clear_loop rest
              (mkState (<[type := mkPool [] ∅ (lastAccessed pool)]> (pools p)) (config p)
                       (maxPoolSize p) (initialSize p) (expandSize p) (stats p)
                       (nextBuffer p))
      end
  end.

(** [clear()]. *)
Definition clear (now : Z) (p : t) : result unit * t :=
  match clear_loop BUFFER_CONFIGS p with
  | (Ok _, p1) => (Ok tt, initializePools now (set_stats empty_stats p1))
  | (Err e, p1) => (Err e, p1)
  end.

End BufferPool.


(** ** services/sensors/base-sensor.js: BaseSensor *)

Module BaseSensor.

Record PerformanceStats := mkPerf {
  processTime : Z;
  maxProcessTime : Z;
  minProcessTime : option Z;   (* [None] is the initial Number.MAX_VALUE *)
  totalProcessTime : Z;
  missedFrames : Z;
  lastUpdate : Z
}.

(** [_createInitialStats]. *)
Definition _createInitialStats (now : Z) : PerformanceStats :=
  mkPerf 0 0 None 0 0 now.

(** The fields of a sensor object.  A worker thread is represented by
    the serial number of its creation; [healthCheckInterval] holds the
    serial number of the worker the timer was armed for. *)
Record t := mkSensor {
  type : string;
  isRunning : bool;
  frameCount : Z;
  lastFrameTime : Z;
  fps : Z;
  worker : option nat;
  workerRestartAttempts : Z;
  maxWorkerRestarts : Z;
  frameTimeout : Z;
  healthCheckInterval : option nat;
  performanceStats : PerformanceStats;
  workersCreated : nat
}.

Inductive Output :=
| logInfo (message : string)
| logWarn (message : string)
| logError (message : string)
| emitStarted
| emitStopped
| emitError (message : string)
| workerTerminated (w : nat).

(** What the constructor reads from [config.worker]; [x || d] replaces
    an absent or zero value by the default. *)
Definition or_default (o : option Z) (d : Z) : Z :=
  match o with
  | Some v => if v =? 0 then d else v
  | None => d
  end.

(** [constructor(config, kinect)] for a present config and device. *)
Definition new (now : Z) (type : string) (maxRestarts frameTimeout : option Z) : t :=
  mkSensor type false 0 now 0 None 0 (or_default maxRestarts 3)
           (or_default frameTimeout 5000) None (_createInitialStats now) O.

(** The methods a subclass supplies.  [_initializeReader] is given the
    driver's answer to the open call; [_cleanupResources] is not defined
    by the base class at all. *)
Class Subclass := {
  _initializeReader : bool -> result unit;
  _cleanupResources : t -> result unit * t * list Output
}.

Definition set_running (b : bool) (s : t) : t :=
  mkSensor (type s) b (frameCount s) (lastFrameTime s) (fps s) (worker s)
           (workerRestartAttempts s) (maxWorkerRestarts s) (frameTimeout s)
           (healthCheckInterval s) (performanceStats s) (workersCreated s).

Definition set_perf (ps : PerformanceStats) (s : t) : t :=
  mkSensor (type s) (isRunning s) (frameCount s) (lastFrameTime s) (fps s) (worker s)
           (workerRestartAttempts s) (maxWorkerRestarts s) (frameTimeout s)
           (healthCheckInterval s) ps (workersCreated s).

Definition set_worker (w : option nat) (s : t) : t :=
  mkSensor (type s) (isRunning s) (frameCount s) (lastFrameTime s) (fps s) w
           (workerRestartAttempts s) (maxWorkerRestarts s) (frameTimeout s)
           (healthCheckInterval s) (performanceStats s) (workersCreated s).

(** [_initializeWorker]: [new Worker(...)], the event handlers, and
    [_startWorkerHealthCheck], which re-arms the interval timer.
    Creating the thread is taken to succeed. *)
Definition _initializeWorker (s : t) : t :=
  let w := workersCreated s in
  mkSensor (type s) (isRunning s) (frameCount s) (lastFrameTime s) (fps s) (Some w)
           (workerRestartAttempts s) (maxWorkerRestarts s) (frameTimeout s)
           (Some w) (performanceStats s) (S w).

Section Lifecycle.
Context `{Subclass}.

(** [start()]; [opened] is the driver's answer to the open call. *)
Definition start (now : Z) (opened : bool) (s : t) : result unit * t * list Output :=
  if isRunning s then (Ok tt, s, [])
  else
    let s1 := mkSensor (type s) true 0 now (fps s) (worker s)
                       (workerRestartAttempts s) (maxWorkerRestarts s) (frameTimeout s)
                       (healthCheckInterval s) (performanceStats s) (workersCreated s) in
    let out := [logInfo ("Starting " +:+ type s +:+ " sensor...")] in
    match _initializeReader opened with
    | Ok _ =>
        (Ok tt, _initializeWorker s1,
         out ++ [logInfo (type s +:+ " sensor started successfully"); emitStarted])
    | Err e =>
        (Err e, set_running false s1,
         out ++ [logError ("Failed to start " +:+ type s +:+ " sensor:"); emitError e])
    end.

(** [stop()]. *)
Definition stop (s : t) : result unit * t * list Output :=
  if negb (isRunning s) then (Ok tt, s, [])
  else
    let out := [logInfo ("Stopping " +:+ type s +:+ " sensor...")] in
    match _cleanupResources (set_running false s) with
    | (Ok _, s', out') =>
        (Ok tt, s',
         out ++ out' ++ [logInfo (type s +:+ " sensor stopped successfully"); emitStopped])
    | (Err e, s', out') =>
        (Err e, s',
         out ++ out' ++ [logError ("Error stopping " +:+ type s +:+ " sensor:"); emitError e])
    end.

(** [_handleWorkerError()]. *)
Definition _handleWorkerError (s : t) : result unit * t * list Output :=
  if workerRestartAttempts s >=? maxWorkerRestarts s then
    let '(r, s', out) := stop s in
    (r, s', logError "Max worker restart attempts reached" :: out)
  else
    let n := workerRestartAttempts s + 1 in
    let s1 := mkSensor (type s) (isRunning s) (frameCount s) (lastFrameTime s) (fps s)
                       (worker s) n (maxWorkerRestarts s) (frameTimeout s)
                       (healthCheckInterval s) (performanceStats s) (workersCreated s) in
    let out := [logInfo ("Attempting worker restart (" +:+ pretty n +:+ "/"
                           +:+ pretty (maxWorkerRestarts s) +:+ ")")] in
    let out := match worker s with
               | Some w => out ++ [workerTerminated w]
               | None => out
               end in
    (Ok tt, _initializeWorker s1, out).

(** The [worker.on('error', ...)] handler installed by
    [_setupWorkerEventHandlers]. *)
Definition onWorkerError (message : string) (s : t) : result unit * t * list Output :=
  let '(r, s', out) := _handleWorkerError s in
  (r, s', logError (type s +:+ " worker error:") :: emitError message :: out).

(** What [cleanup()] does beyond the outputs of [stop()]:
    [clearInterval(this.healthCheckInterval)], which leaves the field
    itself as it is. *)
Inductive CleanupOutput :=
| output (o : Output)
| intervalCleared (timer : nat).

(** [cleanup()]. *)
Definition cleanup (s : t) : result unit * t * list CleanupOutput :=
  let '(r, s1, out1) := if isRunning s then stop s else (Ok tt, s, []) in
  match r with
  | Err e => (Err e, s1, map output out1)
  | Ok _ =>
      let '(s2, out2) :=
        match worker s1 with
        | Some w => (set_worker None s1, [output (workerTerminated w)])
        | None => (s1, [])
        end in
      let out3 := match healthCheckInterval s2 with
                  | Some timer => [intervalCleared timer]
                  | None => []
                  end in
      (Ok tt, s2, map output out1 ++ out2 ++ out3)
  end.

End Lifecycle.

End BaseSensor.

(** ** services/sensors/color-sensor.js *)

Module ColorSensor.
Import BaseSensor.

(** [_initializeReader] throws when [openColorReader()] is falsy;
    [_cleanupResources] closes the reader and terminates the worker. *)
#[export] Instance colorSensor : Subclass := {
  _initializeReader opened :=
    if opened then Ok tt else Err "Failed to open color reader";
  _cleanupResources s :=
    match worker s with
    | Some w => (Ok tt, set_worker None s, [workerTerminated w])
    | None => (Ok tt, s, [])
    end
}.
End ColorSensor.

(** ** services/sensors/depth-sensor.js *)

Module DepthSensor.
Import BaseSensor.

(** [_initializeReader] awaits [openDepthReader()] and ignores its
    answer.  The class defines no [_cleanupResources] and neither does
    the base class, so the call in [stop()] is a call of [undefined]. *)
#[export] Instance depthSensor : Subclass := {
  _initializeReader _ := Ok tt;
  _cleanupResources s := (Err "this._cleanupResources is not a function", s, [])
}.

(** A raw frame from the driver: a [Buffer] with its byte length; the
    bytes themselves are opaque here and stand as one value. *)
Record RawFrame := mkFrame {
  length : Z;
  bytes : nat
}.

(** The fields of the sensor object, and with them [transferred]: the
    pool buffers whose ArrayBuffer a [worker.postMessage] of this sensor
    has listed for transfer.  Such an ArrayBuffer is detached on the
    sensor's side from then on; nothing in the sensor attaches it
    again. *)
Record t := mkDepth {
  base : BaseSensor.t;
  frameWidth : Z;           (* config.frameSize.width *)
  frameHeight : Z;          (* config.frameSize.height *)
  frameQueue : list BufferPool.buffer;
  maxQueueSize : Z;
  currentBuffer : option BufferPool.buffer;
  bufferPool : BufferPool.t;
  transferred : gset BufferPool.buffer
}.

Inductive Output :=
| sensor (o : BaseSensor.Output)
| pool (e : BufferPool.Event)
(** [worker.postMessage({type: 'processFrame', buffer, config},
    [buffer.buffer])]; the buffer is listed with the frame that was just
    copied into it. *)
| postMessage (buffer : BufferPool.buffer) (frame : RawFrame).

Definition set_base (b : BaseSensor.t) (s : t) : t :=
  mkDepth b (frameWidth s) (frameHeight s) (frameQueue s) (maxQueueSize s)
          (currentBuffer s) (bufferPool s) (transferred s).
Definition set_pool (p : BufferPool.t) (s : t) : t :=
  mkDepth (base s) (frameWidth s) (frameHeight s) (frameQueue s) (maxQueueSize s)
          (currentBuffer s) p (transferred s).
Definition set_queue (q : list BufferPool.buffer) (s : t) : t :=
  mkDepth (base s) (frameWidth s) (frameHeight s) q (maxQueueSize s)
          (currentBuffer s) (bufferPool s) (transferred s).
Definition set_current (c : option BufferPool.buffer) (s : t) : t :=
  mkDepth (base s) (frameWidth s) (frameHeight s) (frameQueue s) (maxQueueSize s)
          c (bufferPool s) (transferred s).
Definition set_transferred (d : gset BufferPool.buffer) (s : t) : t :=
  mkDepth (base s) (frameWidth s) (frameHeight s) (frameQueue s) (maxQueueSize s)
          (currentBuffer s) (bufferPool s) d.

(** Modelled from the spec: [acquireBuffer] is called by the sensor, but
    neither the sensor class nor its base class defines it; the spec's
    frame path says "Acquire a buffer of the kind; if the pool returns
    none, drop this frame and return", so it is the pool's [acquire]. *)
Definition acquireBuffer (now : Z) (kind : string) (s : t)
  : result (option BufferPool.buffer) * t * list Output :=
  let '(r, p, evs) := BufferPool.acquire now kind (bufferPool s) in
  (r, set_pool p s, map pool evs).

(** Modelled from the spec: [releaseBuffer] is likewise defined by
    neither class; the spec has the dropped frame "return its buffer to
    the pool", so it is the pool's [release], called on a buffer whose
    ArrayBuffer is detached if the sensor has transferred it. *)
Definition releaseBuffer (now : Z) (kind : string) (b : option BufferPool.buffer) (s : t)
  : result unit * t * list Output :=
  let detached := match b with
                  | Some b' => bool_decide (b' ∈ transferred s)
                  | None => false
                  end in
  let '(r, p, evs) := BufferPool.release_view detached now kind b (bufferPool s) in
  (r, set_pool p s, map pool evs).

Definition bump_missed (s : t) : t :=
  let ps := performanceStats (base s) in
  set_base (set_perf (mkPerf (processTime ps) (maxProcessTime ps) (minProcessTime ps)
                             (totalProcessTime ps) (missedFrames ps + 1) (lastUpdate ps))
                     (base s)) s.

(** [this.worker.postMessage(message, [buffer.buffer])] for the buffer
    [b]: a property read on [null] without a worker; a DataCloneError,
    whose wording depends on the runtime, when the listed ArrayBuffer is
    already detached; otherwise the message goes out and the ArrayBuffer
    is detached. *)
Definition post (b : BufferPool.buffer) (depthFrame : RawFrame) (s : t)
  : result unit * t * list Output :=
  match worker (base s) with
  | None => (Err "Cannot read properties of null (reading 'postMessage')", s, [])
  | Some _ =>
      if bool_decide (b ∈ transferred s) then
        (Err "DataCloneError", s, [])
      else
        (Ok tt, set_transferred ({[b]} ∪ transferred s) s, [postMessage b depthFrame])
  end.

(** The [try] block of [_processFrame].  [depthFrame.copy(buffer)] is
    taken to return; it changes contents only. *)
Definition processFrame_try (now : Z) (depthFrame : RawFrame) (s : t)
  : result unit * t * list Output :=
  let expectedSize := frameWidth s * frameHeight s * 2 in
  if negb (length depthFrame =? expectedSize) then
    (Err ("Invalid frame size: " +:+ pretty (length depthFrame)
            +:+ ", expected: " +:+ pretty expectedSize), s, [])
  else if Z.of_nat (List.length (frameQueue s)) >=? maxQueueSize s then
    let out := [sensor (logWarn "Frame queue full, dropping oldest frame")] in
    let oldFrame := head (frameQueue s) in
    let s1 := set_queue (tail (frameQueue s)) s in
    match releaseBuffer now "depth" oldFrame s1 with
    | (Ok _, s2, out') => (Ok tt, bump_missed s2, out ++ out')
    | (Err e, s2, out') => (Err e, s2, out ++ out')
    end
  else
    match acquireBuffer now "depth" s with
    | (Err e, s1, out) => (Err e, s1, out)
    | (Ok None, s1, out) => (Ok tt, set_current None s1, out)
    | (Ok (Some b), s1, out) =>
        let s2 := set_queue (frameQueue s1 ++ [b]) (set_current (Some b) s1) in
        let '(r, s3, out') := post b depthFrame s2 in
        (r, s3, out ++ out')
    end.

(** [_processFrame(depthFrame)].  An error raised inside the [catch]
    block leaves the method. *)
Definition _processFrame (now : Z) (depthFrame : RawFrame) (s : t)
  : result unit * t * list Output :=
  if negb (isRunning (base s)) then (Ok tt, s, [])
  else
    match processFrame_try now depthFrame s with
    | (Ok _, s1, out) => (Ok tt, s1, out)
    | (Err e, s1, out) =>
        let out := out ++ [sensor (logError "Error processing depth frame:");
                           sensor (emitError e)] in
        match currentBuffer s1 with
        | Some b =>
            match releaseBuffer now "depth" (Some b) s1 with
            | (Ok _, s2, out') => (Ok tt, set_current None s2, out ++ out')
            | (Err e', s2, out') => (Err e', s2, out ++ out')
            end
        | None => (Ok tt, s1, out)
        end
    end.

(** [constructor(config, kinect)] with the pool the sensor is given. *)
Definition new (now : Z) (width height maxQueue : Z) (maxRestarts frameTimeout : option Z)
    (p : BufferPool.t) : t :=
  mkDepth (BaseSensor.new now "depth" maxRestarts frameTimeout)
          width height [] maxQueue None p ∅.

(** [start()] is inherited. *)
Definition start (now : Z) (opened : bool) (s : t)
  : result unit * t * list BaseSensor.Output :=
  let '(r, b, out) := BaseSensor.start now opened (base s) in
  (r, set_base b s, out).

(** The driver delivers the frames of [fs] one after the other, with no
    worker reply in between. *)
Fixpoint deliver (now : Z) (fs : list RawFrame) (s : t) : t * list Output :=
  match fs with
  | [] => (s, [])
  | f :: fs' =>
      let '(_, s1, out) := _processFrame now f s in
      let '(s2, out') := deliver now fs' s1 in
      (s2, out ++ out')
  end.

(** The [while (this.frameQueue.length > 0)] loop of [cleanup()]: every
    iteration shifts one buffer off the queue [q] and releases it. *)
Fixpoint drain (now : Z) (q : list BufferPool.buffer) (s : t)
  : result unit * t * list Output :=
  match q with
  | [] => (Ok tt, s, [])
  | frame :: rest =>
      match releaseBuffer now "depth" (Some frame) (set_queue rest s) with
      | (Ok _, s1, out) =>
          let '(r, s2, out') := drain now rest s1 in
          (r, s2, out ++ out')
      | (Err e, s1, out) => (Err e, s1, out)
      end
  end.

Inductive CleanupOutput :=
| drained (o : Output)
| inherited (o : BaseSensor.CleanupOutput).

(** [cleanup()]: the queue is drained, then [super.cleanup()] runs. *)
Definition cleanup (now : Z) (s : t) : result unit * t * list CleanupOutput :=
  match drain now (frameQueue s) s with
  | (Err e, s1, out) => (Err e, s1, map drained out)
  | (Ok _, s1, out) =>
      let '(r, b, out') := BaseSensor.cleanup (base s1) in
      (r, set_base b s1, map drained out ++ map inherited out')
  end.

End DepthSensor.


(** ** services/workers: the message handler of BaseWorker *)

Module BaseWorker.

(** What the handler posts back for one frame message. *)
Inductive Reply (A : Type) :=
| processed (data : A)          (* {data, processTime} *)
| failed (error : string).      (* {error, stack} *)
Arguments processed {A} data.
Arguments failed {A} error.

(** The [try]/[catch] of [_setupMessageHandler] around [processFrame],
    for a message that is not a health check and arrives while
    [isProcessing] is false. *)
Definition handleFrame {F A} (processFrame : F -> result A) (frame : F) : Reply A :=
  match processFrame frame with
  | Ok data => processed data
  | Err message => failed message
  end.

End BaseWorker.

(** ** services/workers/depth-worker.js *)

Module DepthWorker.

Record Processing := mkProcessing {
  normalize : bool;
  gammaCorrection : bool;
  confidenceThreshold : option float   (* absent, or a number *)
}.

Record Calibration := mkCalibration {
  minReliableDistance : float;
  maxReliableDistance : float
}.

Record t := mkWorker {
  frameWidth : Z;
  frameHeight : Z;
  processing : Processing;
  calibration : Calibration;
  chunkSize : Z
}.

(** [constructor(config)]. *)
Definition new (width height : Z) (p : Processing) (c : Calibration) : t :=
  mkWorker width height p c 1024.

(** A JS number is falsy when it is 0, -0 or NaN. *)
Definition truthy (x : float) : bool :=
  negb (PrimFloat.is_zero x || PrimFloat.is_nan x).

(** The value read from a [Uint16Array] element, as a number. *)
Definition of_uint16 (v : Z) : float := PrimFloat.of_uint63 (Uint63.of_Z v).

(** The integer part of a finite float, towards zero; 0 for NaN and the
    infinities. *)
Definition truncate (x : float) : Z :=
  match Prim2SF x with
  | S754_finite sign m e =>
      let magnitude := if e >=? 0 then Z.pos m * 2 ^ e else Z.pos m / 2 ^ (- e) in
      if sign then - magnitude else magnitude
  | _ => 0
  end.

(** Storing a number into a [Uint16Array] element (ToUint16). *)
Definition to_uint16 (x : float) : Z := truncate x mod 65536.

(** [new Uint16Array(frame.buffer.buffer)], the frame's bytes filling
    the array buffer: consecutive byte pairs, low byte first; a trailing
    odd byte cannot occur for a validated frame. *)
Fixpoint Uint16Array_of_bytes (bs : list Z) : list Z :=
  match bs with
  | lo :: hi :: rest => (lo + 256 * hi) :: Uint16Array_of_bytes rest
  | _ => []
  end.

(** [_validateFrame(buffer)]; [None] is a value that is not a Buffer. *)
Definition _validateFrame (w : t) (buffer : option (list Z)) : result unit :=
  match buffer with
  | None => Err "Invalid or missing frame buffer"
  | Some bs =>
      let expectedSize := frameWidth w * frameHeight w * 2 in
      if negb (Z.of_nat (length bs) =? expectedSize) then
        Err ("Invalid buffer size: Expected " +:+ pretty expectedSize +:+ " bytes")
      else Ok tt
  end.

(** [_isValidDepth(depth, min, max)]. *)
Definition _isValidDepth (w : t) (depth min max : float) : bool :=
  (min <=? depth)%float && (depth <=? max)%float && (0 <? depth)%float &&
  match confidenceThreshold (processing w) with
  | None => true
  | Some c => negb (truthy c) || (c * max <=? depth)%float
  end.

(** [_normalizeDepth(depth, min, max)].  [Math.pow(x, 0.5)] is taken to
    be the correctly rounded square root. *)
Definition _normalizeDepth (w : t) (depth min max : float) : float :=
  let normalized := ((depth - min) / (max - min))%float in
  if gammaCorrection (processing w) then PrimFloat.sqrt normalized else normalized.

(** The number assigned to [processed[i]] for the pixel [depth]. *)
Definition pixel (w : t) (depth min max : float) : float :=
  if normalize (processing w) then
    if _isValidDepth w depth min max then _normalizeDepth w depth min max else 0%float
  else
    if _isValidDepth w depth min max then depth else 0%float.

(** What the assignment [processed[i] = ...] stores for the source
    element [v]: the pixel's number, converted by the typed array. *)
Definition stored (w : t) (min max : float) (v : Z) : Z :=
  to_uint16 (pixel w (of_uint16 v) min max).

(** The inner loop [for (i = offset; i < end; i++)], run [n = end - offset]
    times. *)
Fixpoint chunk (w : t) (n : nat) (i : nat) (frame processed : list Z) (min max : float)
  : list Z :=
  match n with
  | O => processed
  | S n' =>
      chunk w n' (S i) frame (<[i := stored w min max (frame !!! i)]> processed) min max
  end.

(** The outer loop [for (offset = 0; offset < frame.length; offset +=
    chunkSize)]; it runs at most [frame.length] times. *)
Fixpoint chunks (w : t) (fuel : nat) (size offset : nat) (frame processed : list Z)
    (min max : float) : list Z :=
  match fuel with
  | O => processed
  | S fuel' =>
      if (offset <? length frame)%nat then
        let stop := Nat.min (offset + size) (length frame) in
        chunks w fuel' size (offset + size) frame
               (chunk w (stop - offset) offset frame processed min max) min max
      else processed
  end.

(** [_processFrameChunks(frame, processed, minDepth, maxDepth)]. *)
Definition _processFrameChunks (w : t) (frame processed : list Z) (min max : float)
  : list Z :=
  let size := Z.to_nat (Z.min (chunkSize w) (Z.of_nat (length frame))) in
  chunks w (length frame) size 0 frame processed min max.

Record Result := mkResult {
  processedFrame : list Z;    (* the elements of a Uint16Array *)
  minDepth : float;
  maxDepth : float;
  width : Z;
  height : Z
}.

(** [processFrame(frame)] for a configuration in which
    [generatePointCloud] and [colorize] are off; the argument is
    [frame.buffer]. *)
Definition processFrame (w : t) (buffer : option (list Z)) : result Result :=
  match _validateFrame w buffer with
  | Err e => Err e
  | Ok _ =>
      let min := minReliableDistance (calibration w) in
      let max := maxReliableDistance (calibration w) in
      let sourceFrame := Uint16Array_of_bytes (default [] buffer) in
      let processed := repeat 0 (length sourceFrame) in
      Ok (mkResult (_processFrameChunks w sourceFrame processed min max)
                   min max (frameWidth w) (frameHeight w))
  end.

End DepthWorker.

(** ** services/workers/color-worker.js *)

Module ColorWorker.

Record Compression := mkCompression {
  enabled : bool;
  quality : Z;             (* percent *)
  compressionFormat : string
}.

Record Processing := mkProcessing {
  format : string;
  forceOpacity : bool;
  compression : Compression
}.

Record t := mkWorker {
  frameWidth : Z;
  frameHeight : Z;
  processing : Processing;
  chunkSize : Z
}.

Definition new (width height : Z) (p : Processing) : t := mkWorker width height p 1024.

(** [_validateFrame(buffer)]; [None] is a value that is not a Buffer. *)
Definition _validateFrame (w : t) (buffer : option (list Z)) : result unit :=
  match buffer with
  | None => Err "Invalid frame data: missing buffer"
  | Some bs =>
      let expectedSize := frameWidth w * frameHeight w * 4 in
      if negb (Z.of_nat (length bs) =? expectedSize) then
        Err ("Invalid frame size: " +:+ pretty (Z.of_nat (length bs))
               +:+ ", expected: " +:+ pretty expectedSize)
      else Ok tt
  end.

(** The inner loop [for (i = offset; i < end; i += 4)]. *)
Fixpoint opaque_chunk (fuel : nat) (i stop : nat) (buffer : list Z) : list Z :=
  match fuel with
  | O => buffer
  | S fuel' =>
      if (i <? stop)%nat then opaque_chunk fuel' (i + 4) stop (<[i := 255]> buffer)
      else buffer
  end.

(** The outer loop [for (offset = 3; offset < buffer.length; offset +=
    chunkSize * 4)]. *)
Fixpoint opaque_chunks (fuel : nat) (step offset : nat) (buffer : list Z) : list Z :=
  match fuel with
  | O => buffer
  | S fuel' =>
      if (offset <? length buffer)%nat then
        let stop := Nat.min (offset + step) (length buffer) in
        opaque_chunks fuel' step (offset + step) (opaque_chunk (length buffer) offset stop buffer)
      else buffer
  end.

(** [_enforceOpacity(buffer)]. *)
Definition _enforceOpacity (w : t) (buffer : list Z) : list Z :=
  opaque_chunks (length buffer) (Z.to_nat (chunkSize w * 4)) 3 buffer.

(** [_compressFrame(buffer)]: "For now, return uncompressed buffer". *)
Definition _compressFrame (w : t) (buffer : list Z) : list Z := buffer.

Record Result := mkResult {
  processedFrame : list Z;
  width : Z;
  height : Z;
  resultFormat : string;
  compressed : bool
}.

(** [processFrame(frame)]; the argument is [frame.buffer]. *)
Definition processFrame (w : t) (buffer : option (list Z)) : result Result :=
  match _validateFrame w buffer with
  | Err e => Err e
  | Ok _ =>
      let processedFrame := default [] buffer in      (* Buffer.from(frame.buffer) *)
      let processedFrame :=
        if enabled (compression (processing w)) then _compressFrame w processedFrame
        else processedFrame in
      let processedFrame :=
        if forceOpacity (processing w) then _enforceOpacity w processedFrame
        else processedFrame in
      Ok (mkResult processedFrame (frameWidth w) (frameHeight w)
                   (format (processing w)) (enabled (compression (processing w))))
  end.

End ColorWorker.


(** ** services/workers/ir-worker.js *)

Module IRWorker.

Record Processing := mkProcessing {
  gammaCorrection : bool;
  format : string
}.

Record t := mkWorker {
  frameWidth : Z;
  frameHeight : Z;
  processing : Processing;
  chunkSize : Z
}.

Definition new (width height : Z) (p : Processing) : t := mkWorker width height p 1024.

(** [_validateFrame(buffer)].  The argument stands for [frame.buffer] by
    the elements of [new Uint16Array(frame.buffer)]; [None] is a falsy
    [frame.buffer]. *)
Definition _validateFrame (w : t) (buffer : option (list Z)) : result unit :=
  match buffer with
  | None => Err "Invalid frame data: missing buffer"
  | Some frame =>
      let expectedSize := frameWidth w * frameHeight w in
      if negb (Z.of_nat (length frame) =? expectedSize) then
        Err ("Invalid frame size: " +:+ pretty (Z.of_nat (length frame))
               +:+ ", expected: " +:+ pretty expectedSize)
      else Ok tt
  end.

(** The inner loop [for (i = offset; i < end; i++) processed[i] =
    frame[i]], run [n = end - offset] times. *)
Fixpoint copy_chunk (n : nat) (i : nat) (frame processed : list Z) : list Z :=
  match n with
  | O => processed
  | S n' => copy_chunk n' (S i) frame (<[i := frame !!! i]> processed)
  end.

(** The outer loop [for (offset = 0; offset < frame.length; offset +=
    this.chunkSize)]. *)
Fixpoint copy_chunks (fuel : nat) (size offset : nat) (frame processed : list Z) : list Z :=
  match fuel with
  | O => processed
  | S fuel' =>
      if (offset <? length frame)%nat then
        let stop := Nat.min (offset + size) (length frame) in
        copy_chunks fuel' size (offset + size) frame
                    (copy_chunk (stop - offset) offset frame processed)
      else processed
  end.

(** The value [Math.pow(data[i] / 65535, gamma) * 65535] as the typed
    array stores it; [Math.pow(x, 0.5)] is taken to be the correctly
    rounded square root. *)
Definition gamma (v : Z) : Z :=
  DepthWorker.to_uint16
    (PrimFloat.sqrt (DepthWorker.of_uint16 v / 65535) * 65535)%float.

(** [_applyGammaCorrection(data)]: the loop [for (i = 0; i <
    data.length; i++)], run [n] times from index [i]. *)
Fixpoint gamma_loop (n : nat) (i : nat) (data : list Z) : list Z :=
  match n with
  | O => data
  | S n' => gamma_loop n' (S i) (<[i := gamma (data !!! i)]> data)
  end.

Definition _applyGammaCorrection (data : list Z) : list Z :=
  gamma_loop (length data) 0 data.

(** [_processFrameChunks(frame, processed)]. *)
Definition _processFrameChunks (w : t) (frame processed : list Z) : list Z :=
  let copied := copy_chunks (length frame) (Z.to_nat (chunkSize w)) 0 frame processed in
  if gammaCorrection (processing w) then _applyGammaCorrection copied else copied.

Record Result := mkResult {
  processedFrame : list Z;
  width : Z;
  height : Z;
  resultFormat : string
}.

(** [processFrame(frame)]. *)
Definition processFrame (w : t) (buffer : option (list Z)) : result Result :=
  match _validateFrame w buffer with
  | Err e => Err e
  | Ok _ =>
      let sourceFrame := default [] buffer in
      let processed := repeat 0 (length sourceFrame) in
      Ok (mkResult (_processFrameChunks w sourceFrame processed)
                   (frameWidth w) (frameHeight w) (format (processing w)))
  end.

End IRWorker.

(** ** services/workers/body-worker.js *)

Module BodyWorker.

Record Vec3 := mkVec { x : float; y : float; z : float }.

(** A joint as the driver reports it.  Coordinates are finite numbers,
    so the [JSON.parse(JSON.stringify(joint))] copy has the same field
    values as the joint. *)
Record Joint := mkJoint {
  position : option Vec3;
  previousPosition : option Vec3;
  trackingState : Z;
  confidence : option float
}.

Record Body := mkBody {
  trackingId : Z;
  tracked : bool;
  joints : option (list (string * Joint));   (* Object.entries order *)
  handStates : option (Z * Z)                (* left, right *)
}.

Record Frame := mkFrame {
  buffer : bool;                             (* is [frame.buffer] truthy *)
  bodies : option (list Body)                (* [None]: not an array *)
}.

Record Smoothing := mkSmoothing {
  correction : float;
  prediction : float;
  jitterRadius : float;
  maxDeviationRadius : float
}.

Record Tracking := mkTracking {
  jointFilter : Joint -> bool;
  gestureThreshold : float
}.

Record Metrics := mkMetrics {
  trackVelocity : bool;
  calculateBoundingBox : bool;
  calculateCenterOfMass : bool;
  calculateConfidence : bool
}.

Record MovementConfig := mkMovementConfig {
  threshold : float;
  minConfidence : float
}.

Record Processing := mkProcessing {
  smoothing : Smoothing;
  tracking : Tracking;
  metrics : Metrics;
  movement : MovementConfig
}.

Record Movement := mkMovement {
  moving : bool;
  velocity : float;
  relativePosition : Vec3;
  direction : option Vec3
}.

Record BodyMetrics := mkBodyMetrics {
  centerOfMass : option Vec3;
  boundingBox : option (Vec3 * Vec3);        (* min, max *)
  bodyHeight : option float;
  bodyWidth : option float
}.

Record ProcessedBody := mkProcessed {
  p_trackingId : Z;
  p_joints : list (string * Joint);
  p_handStates : string * string;
  p_movements : option (list (string * Movement));
  p_metrics : option BodyMetrics;
  p_confidence : option float
}.

Record Gesture := mkGesture {
  gestureType : string;
  gestureJoint : string;
  speed : float
}.

(** The worker's own state: [this.previousPositions]. *)
Definition t := gmap Z Vec3.

(** A JS number is falsy when it is 0, -0 or NaN. *)
Definition truthy (v : float) : bool :=
  negb (PrimFloat.is_zero v || PrimFloat.is_nan v).

(** [v || 0]. *)
Definition or_zero (v : float) : float := if truthy v then v else 0%float.

Definition lookup_joint (key : string) (js : list (string * Joint)) : option Joint :=
  snd <$> List.find (fun e => bool_decide (fst e = key)) js.

(** [_calculateVelocity(current, previous)]. *)
Definition _calculateVelocity (current previous : Vec3) : result float :=
  if negb (truthy (x current)) || negb (truthy (y current)) || negb (truthy (z current))
     || negb (truthy (x previous)) || negb (truthy (y previous))
     || negb (truthy (z previous))
  then Err "Invalid position data"
  else
    let dx := (x current - x previous)%float in
    let dy := (y current - y previous)%float in
    let dz := (z current - z previous)%float in
    Ok (PrimFloat.sqrt (dx * dx + dy * dy + dz * dz)).

(** [_calculateMovementDirection(current, previous)]. *)
Definition _calculateMovementDirection (current previous : Vec3) : result Vec3 :=
  if negb (truthy (x current)) || negb (truthy (y current)) || negb (truthy (z current))
     || negb (truthy (x previous)) || negb (truthy (y previous))
     || negb (truthy (z previous))
  then Err "Invalid position data"
  else Ok (mkVec (x current - x previous) (y current - y previous)
                 (z current - z previous)).

(** The weighted position computed first in [_smoothJoint]. *)
Definition blend (c : float) (pos prev : Vec3) : Vec3 :=
  mkVec (x pos * (1 - c) + x prev * c)
        (y pos * (1 - c) + y prev * c)
        (z pos * (1 - c) + z prev * c).

(** [_smoothJoint(joint, smoothing)]. *)
Definition _smoothJoint (joint : Joint) (sm : Smoothing) : result Joint :=
  match position joint with
  | None => Err "Invalid joint data"
  | Some pos =>
      smoothedPosition ←
        match previousPosition joint with
        | Some prev =>
            let p := blend (correction sm) pos prev in
            distance ← _calculateVelocity p prev;
            if (maxDeviationRadius sm <? distance)%float then
              let scale := (maxDeviationRadius sm / distance)%float in
              Ok (mkVec (x prev + (x p - x prev) * scale)
                        (y prev + (y p - y prev) * scale)
                        (z prev + (z p - z prev) * scale))
            else if (distance <? jitterRadius sm)%float then Ok prev
            else Ok p
        | None => Ok pos
        end;
      Ok (mkJoint (Some smoothedPosition) (Some pos)
                  (trackingState joint) (confidence joint))
  end.

(** [_detectMovement(joint, threshold, spinePosition)]. *)
Definition _detectMovement (joint : Joint) (threshold : float) (spinePosition : option Vec3)
  : result Movement :=
  match position joint with
  | None => Err "Invalid joint data"
  | Some pos =>
      let sx := match spinePosition with Some s => or_zero (x s) | None => 0%float end in
      let sy := match spinePosition with Some s => or_zero (y s) | None => 0%float end in
      let sz := match spinePosition with Some s => or_zero (z s) | None => 0%float end in
      let relativePosition := mkVec (x pos - sx) (y pos - sy) (z pos - sz) in
      match previousPosition joint with
      | None => Ok (mkMovement false 0 relativePosition None)
      | Some prev =>
          let relativePrevious := mkVec (x prev - sx) (y prev - sy) (z prev - sz) in
          velocity ← _calculateVelocity relativePosition relativePrevious;
          direction ← _calculateMovementDirection relativePosition relativePrevious;
          Ok (mkMovement (threshold <? velocity)%float velocity relativePosition
                         (Some direction))
      end
  end.

(** [_interpretHandState(state)]. *)
Definition _interpretHandState (state : Z) : string :=
  if (state <? 0) then "unknown"
  else nth (Z.to_nat state)
           ["unknown"; "notTracked"; "open"; "closed"; "lasso"]%string "unknown"%string.

(** [_processHandStates(handStates)]. *)
Definition _processHandStates (hs : option (Z * Z)) : string * string :=
  match hs with
  | Some (l, r) =>
      if (l =? 0) || (r =? 0) then ("unknown", "unknown")%string
      else (_interpretHandState l, _interpretHandState r)
  | None => ("unknown", "unknown")%string
  end.

(** [Math.min] and [Math.max] on two numbers. *)
Definition js_min (a b : float) : float :=
  if PrimFloat.is_nan a || PrimFloat.is_nan b then PrimFloat.nan
  else if (a <? b)%float then a
  else if (b <? a)%float then b
  else if PrimFloat.get_sign a then a else b.
Definition js_max (a b : float) : float :=
  if PrimFloat.is_nan a || PrimFloat.is_nan b then PrimFloat.nan
  else if (b <? a)%float then a
  else if (a <? b)%float then b
  else if PrimFloat.get_sign a then b else a.

(** The joints both metric loops visit: [trackingState > 0] and a
    position. *)
Definition valid_positions (js : list (string * Joint)) : list Vec3 :=
  omap (fun e => if 0 <? trackingState (snd e) then position (snd e) else None) js.

(** [_calculateCenterOfMass(joints)]. *)
Definition _calculateCenterOfMass (js : list (string * Joint)) : result Vec3 :=
  let ps := valid_positions js in
  let sum := fold_left (fun s p => mkVec (x s + x p) (y s + y p) (z s + z p)) ps
                       (mkVec 0 0 0) in
  let count := Z.of_nat (length ps) in
  if count =? 0 then Err "No valid joints found for center of mass calculation"
  else
    let n := PrimFloat.of_uint63 (Uint63.of_Z count) in
    Ok (mkVec (x sum / n) (y sum / n) (z sum / n)).

(** [_calculateBoundingBox(joints)]. *)
Definition _calculateBoundingBox (js : list (string * Joint)) : result (Vec3 * Vec3) :=
  let ps := valid_positions js in
  let lo := fold_left (fun m p => mkVec (js_min (x m) (x p)) (js_min (y m) (y p))
                                        (js_min (z m) (z p))) ps
                      (mkVec infinity infinity infinity) in
  let hi := fold_left (fun m p => mkVec (js_max (x m) (x p)) (js_max (y m) (y p))
                                        (js_max (z m) (z p))) ps
                      (mkVec neg_infinity neg_infinity neg_infinity) in
  match ps with
  | [] => Err "No valid joints found for bounding box calculation"
  | _ => Ok (lo, hi)
  end.

(** [_calculateBodyMetrics(joints, metrics)]. *)
Definition _calculateBodyMetrics (js : list (string * Joint)) (m : Metrics)
  : result BodyMetrics :=
  com ← (if calculateCenterOfMass m
          then c ← _calculateCenterOfMass js; Ok (Some c)
          else Ok None);
  if calculateBoundingBox m then
    box ← _calculateBoundingBox js;
    Ok (mkBodyMetrics com (Some box)
          (Some (y (snd box) - y (fst box))%float)
          (Some (x (snd box) - x (fst box))%float))
  else Ok (mkBodyMetrics com None None None).

(** [_calculateBodyConfidence(joints)]. *)
Definition _calculateBodyConfidence (js : list (string * Joint)) : float :=
  let cs := omap (fun e => if 0 <? trackingState (snd e) then confidence (snd e)
                           else None) js in
  let total := fold_left PrimFloat.add cs 0%float in
  match cs with
  | [] => 0%float
  | _ => (total / PrimFloat.of_uint63 (Uint63.of_Z (Z.of_nat (length cs))))%float
  end.

(** The [for] loop of [_processBody] over [Object.entries(body.joints)]:
    the smoothed joints and the movements collected so far. *)
Fixpoint processJoints (cfg : Processing) (spinePosition : option Vec3)
    (entries : list (string * Joint))
  : result (list (string * Joint) * list (string * Movement)) :=
  match entries with
  | [] => Ok ([], [])
  | (jointName, joint) :: rest =>
      if jointFilter (tracking cfg) joint then
        smoothed ← _smoothJoint joint (smoothing cfg);
        mv ← (if trackVelocity (metrics cfg)
               then m ← _detectMovement joint (threshold (movement cfg)) spinePosition;
                    Ok [(jointName, m)]
               else Ok []);
        '(js, ms) ← processJoints cfg spinePosition rest;
        Ok ((jointName, smoothed) :: js, mv ++ ms)
      else processJoints cfg spinePosition rest
  end.

(** [_processBody(body, config)]. *)
Definition _processBody (body : Body) (cfg : Processing) : result ProcessedBody :=
  match joints body with
  | None => Err "Invalid body data"
  | Some entries =>
      let spinePosition := lookup_joint "1" entries ≫= position in
      '(processedJoints, movements) ← processJoints cfg spinePosition entries;
      bodyMetrics ←
        (if calculateBoundingBox (metrics cfg) || calculateCenterOfMass (metrics cfg)
         then m ← _calculateBodyMetrics processedJoints (metrics cfg); Ok (Some m)
         else Ok None);
      Ok (mkProcessed (trackingId body) processedJoints
            (_processHandStates (handStates body))
            (if trackVelocity (metrics cfg) then Some movements else None)
            bodyMetrics
            (if calculateConfidence (metrics cfg)
             then Some (_calculateBodyConfidence processedJoints) else None))
  end.

(** [ToNumber] of a property value; an absent property reads as
    [undefined], which converts to NaN. *)
Definition ToNumber (v : option float) : float :=
  match v with
  | Some n => n
  | None => PrimFloat.nan
  end.

(** [movement.confidence].  The entries of [body.movements] are the
    records [_detectMovement] returns, whose properties are [moving],
    [velocity], [relativePosition] and [direction]: the property is
    absent. *)
Definition movement_confidence (m : Movement) : option float := None.

(** [_detectMovements(body, movementConfig)]. *)
Definition _detectMovements (body : ProcessedBody) (mc : MovementConfig)
  : list (string * Movement) :=
  match p_movements body with
  | Some ms =>
      filter (fun e => ((threshold mc <? velocity (snd e))%float
                        && (minConfidence mc <=? ToNumber (movement_confidence (snd e)))%float)
                       = true) ms
  | None => []
  end.

(** [_detectGestures(body, config)]. *)
Definition _detectGestures (body : ProcessedBody) (cfg : Processing) (w : t)
  : list Gesture * t :=
  match lookup_joint "1" (p_joints body) ≫= position with
  | None => ([], w)
  | Some spinePosition =>
      match lookup_joint "11" (p_joints body) ≫= position with
      | None => ([], w)
      | Some hand =>
          let relativePos := mkVec (x hand - x spinePosition) (y hand - y spinePosition)
                                   (z hand - z spinePosition) in
          let gestures :=
            if (0 <? y relativePos)%float then
              match w !! p_trackingId body with
              | Some prevPos =>
                  let relativeSpeed := (x relativePos - x prevPos)%float in
                  if (gestureThreshold (tracking cfg) <? PrimFloat.abs relativeSpeed)%float
                  then [mkGesture (if (relativeSpeed <? 0)%float then "swipeLeft"
                                   else "swipeRight")
                                  "rightHand" (PrimFloat.abs relativeSpeed)]
                  else []
              | None => []
              end
            else [] in
          (gestures, <[p_trackingId body := relativePos]> w)
      end
  end.

(** [parentPort.postMessage(...)] in this file.  The file requires
    [performance] and [BaseWorker] and nothing else, so the identifier
    [parentPort] is unbound and evaluating it throws a ReferenceError
    before any message is built. *)
Definition parentPort_postMessage : result unit := Err "parentPort is not defined".

(** The [for] loop of [processFrame] over [bodies]. *)
Fixpoint processBodies (cfg : Processing) (bs : list Body) (w : t)
  : result (list ProcessedBody) * t :=
  match bs with
  | [] => (Ok [], w)
  | body :: rest =>
      if tracked body then
        match _processBody body cfg with
        | Err e => (Err e, w)
        | Ok processedBody =>
            let movements :=
              if trackVelocity (metrics cfg)
              then _detectMovements processedBody (movement cfg) else [] in
            match (match movements with [] => Ok tt | _ => parentPort_postMessage end) with
            | Err e => (Err e, w)
            | Ok _ =>
                let '(gestures, w1) := _detectGestures processedBody cfg w in
                match (match gestures with [] => Ok tt | _ => parentPort_postMessage end) with
                | Err e => (Err e, w1)
                | Ok _ =>
                    let '(r, w2) := processBodies cfg rest w1 in
                    (match r with
                     | Ok ps => Ok (processedBody :: ps)
                     | Err e => Err e
                     end, w2)
                end
            end
        end
      else processBodies cfg rest w
  end.

(** [processFrame(frame)]: the processed bodies (the timestamp of the
    result is the clock reading and is left out) and the worker's new
    state. *)
Definition processFrame (cfg : Processing) (frame : Frame) (w : t)
  : result (list ProcessedBody) * t :=
  match bodies frame with
  | Some bs =>
      if buffer frame then processBodies cfg bs w
      else (Err "Invalid frame data", w)
  | None => (Err "Invalid frame data", w)
  end.

(** The reply the message handler of the base class posts for a frame. *)
Definition reply (cfg : Processing) (frame : Frame) (w : t)
  : BaseWorker.Reply (list ProcessedBody) :=
  BaseWorker.handleFrame (fun f => fst (processFrame cfg f w)) frame.

End BodyWorker.


(** ** services/multi-source-reader.js *)

Module MultiSourceReader.

(** One entry of [#frameBuffer]; the frame data is opaque. *)
Record Slot := mkSlot {
  frame : nat;
  timestamp : Z
}.

Record Stats := mkStats {
  syncedFrames : Z;
  droppedFrames : Z;
  lastSyncDelay : Z;
  maxSyncDelay : Z;
  frameDelays : list (string * Z);
  bufferOverflows : Z;
  syncAttempts : Z
}.

(** [#frameBuffer] and [#stats.frameDelays] are JS [Map]s, which iterate
    in insertion order: they are association lists, and [Map.set] on a
    present key keeps its place. *)
Record t := mkReader {
  requiredFrameTypes : list string;
  syncWindow : Z;
  maxDelay : Z;
  dropFramesAfter : Z;
  bufferSize : Z;
  running : bool;
  frameBuffer : list (string * Slot);
  lastSyncTime : Z;
  stats : Stats
}.

Inductive Event :=
| started
| stopped
| synchronizedFrame (timestamp : Z) (frames : list (string * nat))
| frameDropped (frameType : string) (timestamp delay : Z)
| bufferOverflow (frameType : string) (bufferSize timestamp : Z)
| error (message : string).

Section Maps.
Context {V : Type}.

Fixpoint map_set (k : string) (v : V) (m : list (string * V)) : list (string * V) :=
  match m with
  | [] => [(k, v)]
  | (k', v') :: rest =>
      if bool_decide (k' = k) then (k, v) :: rest else (k', v') :: map_set k v rest
  end.

Fixpoint map_get (k : string) (m : list (string * V)) : option V :=
  match m with
  | [] => None
  | (k', v') :: rest => if bool_decide (k' = k) then Some v' else map_get k rest
  end.

Definition map_has (k : string) (m : list (string * V)) : bool :=
  match map_get k m with Some _ => true | None => false end.

Fixpoint map_delete (k : string) (m : list (string * V)) : list (string * V) :=
  match m with
  | [] => []
  | (k', v') :: rest =>
      if bool_decide (k' = k) then rest else (k', v') :: map_delete k rest
  end.
End Maps.

Record FrameSync := mkFrameSync {
  cfg_syncWindow : option Z;
  cfg_maxDelay : option Z;
  cfg_dropAfter : option Z;
  cfg_bufferSize : option Z
}.

Definition or_default (o : option Z) (d : Z) : Z :=
  match o with
  | Some v => if v =? 0 then d else v
  | None => d
  end.

(** The stream flags of [Kinect2.FrameType] in the kinect2 package. *)
Definition frameTypeMap (key : string) : option Z :=
  if bool_decide (key = "depth") then Some 8
  else if bool_decide (key = "color") then Some 1
  else if bool_decide (key = "body") then Some 32
  else if bool_decide (key = "infrared") then Some 2
  else None.

(** [#configureFrameTypes]: the [reduce] over
    [Object.entries(config.sensors)], each entry with its [enabled]
    flag. *)
Fixpoint configureFrameTypes (sensors : list (string * bool)) (required : list string)
    (types : Z) : list string * Z :=
  match sensors with
  | [] => (required, types)
  | (key, enabled) :: rest =>
      match frameTypeMap key with
      | Some flag =>
          if enabled then
            configureFrameTypes rest
              (if bool_decide (key ∈ required) then required else required ++ [key])
              (Z.lor types flag)
          else configureFrameTypes rest required types
      | None => configureFrameTypes rest required types
      end
  end.

Definition empty_stats : Stats := mkStats 0 0 0 0 [] 0 0.

(** [constructor(kinect, config)] for a valid device and config
    object. *)
Definition new (frameSync : FrameSync) (sensors : list (string * bool)) : result t :=
  let '(required, types) := configureFrameTypes sensors [] 0 in
  if types =? 0 then Err "At least one frame type must be enabled"
  else Ok (mkReader required
             (or_default (cfg_syncWindow frameSync) 33)
             (or_default (cfg_maxDelay frameSync) 100)
             (or_default (cfg_dropAfter frameSync) 66)
             (or_default (cfg_bufferSize frameSync) 5)
             false [] 0 empty_stats).

Definition set_stats (s : Stats) (r : t) : t :=
  mkReader (requiredFrameTypes r) (syncWindow r) (maxDelay r) (dropFramesAfter r)
           (bufferSize r) (running r) (frameBuffer r) (lastSyncTime r) s.
Definition set_buffer (b : list (string * Slot)) (r : t) : t :=
  mkReader (requiredFrameTypes r) (syncWindow r) (maxDelay r) (dropFramesAfter r)
           (bufferSize r) (running r) b (lastSyncTime r) (stats r).
Definition set_running (b : bool) (r : t) : t :=
  mkReader (requiredFrameTypes r) (syncWindow r) (maxDelay r) (dropFramesAfter r)
           (bufferSize r) b (frameBuffer r) (lastSyncTime r) (stats r).

(** [#resetState]. *)
Definition resetState (r : t) : t :=
  mkReader (requiredFrameTypes r) (syncWindow r) (maxDelay r) (dropFramesAfter r)
           (bufferSize r) (running r) [] 0 empty_stats.

(** [start()]; [opened] is the driver's answer to
    [openMultiSourceReader]. *)
Definition start (opened : bool) (r : t) : result unit * t * list Event :=
  if running r then
    (Err "MultiSourceReader is already running", r, [])
  else
    let r1 := resetState r in
    if opened then (Ok tt, set_running true r1, [started])
    else (Err "Failed to open multi-source reader", r1,
          [error "Failed to start reader"]).

(** [stop()]. *)
Definition stop (r : t) : t * list Event :=
  if negb (running r) then (r, [])
  else (resetState (set_running false r), [stopped]).

(** [#handleBufferOverflow]. *)
Definition handleBufferOverflow (frameType : string) (now : Z) (r : t) : t * list Event :=
  let s := stats r in
  (set_stats (mkStats (syncedFrames s) (droppedFrames s) (lastSyncDelay s)
                      (maxSyncDelay s) (frameDelays s) (bufferOverflows s + 1)
                      (syncAttempts s)) r,
   [bufferOverflow frameType (Z.of_nat (length (frameBuffer r))) now]).

(** [#bufferFrame]. *)
Definition bufferFrame (frameType : string) (frameData : nat) (now : Z) (r : t)
  : t * list Event :=
  if Z.of_nat (length (frameBuffer r)) >=? bufferSize r then
    handleBufferOverflow frameType now r
  else
    let s := stats r in
    (set_stats (mkStats (syncedFrames s) (droppedFrames s) (lastSyncDelay s)
                        (maxSyncDelay s)
                        (map_set frameType (now - lastSyncTime r) (frameDelays s))
                        (bufferOverflows s) (syncAttempts s))
               (set_buffer (map_set frameType (mkSlot frameData now) (frameBuffer r)) r),
     []).

(** [#processFrameData]: the loop over the required types; the driver's
    frame object maps a type to its data. *)
Fixpoint processFrameData_loop (types : list string) (frame : gmap string nat) (now : Z)
    (r : t) : t * list Event :=
  match types with
  | [] => (r, [])
  | frameType :: rest =>
      match frame !! frameType with
      | Some data =>
          let '(r1, evs) := bufferFrame frameType data now r in
          let '(r2, evs') := processFrameData_loop rest frame now r1 in
          (r2, evs ++ evs')
      | None => processFrameData_loop rest frame now r
      end
  end.

Definition processFrameData (frame : gmap string nat) (now : Z) (r : t) : t * list Event :=
  processFrameData_loop (requiredFrameTypes r) frame now r.

(** [#isFrameBufferComplete]. *)
Definition isFrameBufferComplete (r : t) : bool :=
  forallb (fun type => map_has type (frameBuffer r)) (requiredFrameTypes r).

(** [#updateSyncStats]. *)
Definition updateSyncStats (now : Z) (r : t) : t :=
  let s := stats r in
  let delay := now - lastSyncTime r in
  mkReader (requiredFrameTypes r) (syncWindow r) (maxDelay r) (dropFramesAfter r)
           (bufferSize r) (running r) (frameBuffer r) now
           (mkStats (syncedFrames s + 1) (droppedFrames s) delay
                    (Z.max (maxSyncDelay s) delay) (frameDelays s)
                    (bufferOverflows s) (syncAttempts s)).

(** [#emitSynchronizedFrame]. *)
Definition emitSynchronizedFrame (now : Z) (r : t) : t * list Event :=
  let frames := map (fun e => (fst e, frame (snd e))) (frameBuffer r) in
  (set_buffer [] (updateSyncStats now r), [synchronizedFrame now frames]).

(** [#dropStaleFrames]: the loop over the entries of [#frameBuffer]. *)
Fixpoint dropStaleFrames_loop (entries : list (string * Slot)) (now : Z) (r : t)
  : t * list Event :=
  match entries with
  | [] => (r, [])
  | (frameType, data) :: rest =>
      if now - timestamp data >? dropFramesAfter r then
        let s := stats r in
        let r1 := set_stats (mkStats (syncedFrames s) (droppedFrames s + 1)
                                     (lastSyncDelay s) (maxSyncDelay s) (frameDelays s)
                                     (bufferOverflows s) (syncAttempts s))
                            (set_buffer (map_delete frameType (frameBuffer r)) r) in
        let '(r2, evs) := dropStaleFrames_loop rest now r1 in
        (r2, frameDropped frameType (timestamp data) (now - timestamp data) :: evs)
      else dropStaleFrames_loop rest now r
  end.

Definition dropStaleFrames (now : Z) (r : t) : t * list Event :=
  dropStaleFrames_loop (frameBuffer r) now r.

(** [Math.max(...delays)] and [Math.min(...delays)] of a list with a
    first element. *)
Definition max_of (d : Z) (ds : list Z) : Z := fold_left Z.max ds d.
Definition min_of (d : Z) (ds : list Z) : Z := fold_left Z.min ds d.

(** [#checkSynchronization].  For an empty buffer [Math.max()] is
    [-Infinity] and [Math.min()] is [Infinity], so the difference is
    [-Infinity] and the first test succeeds. *)
Definition checkSynchronization (now : Z) (r : t) : t * list Event :=
  let s := stats r in
  let r := set_stats (mkStats (syncedFrames s) (droppedFrames s) (lastSyncDelay s)
                              (maxSyncDelay s) (frameDelays s) (bufferOverflows s)
                              (syncAttempts s + 1)) r in
  if negb (isFrameBufferComplete r) then (r, [])
  else
    match map (fun e => now - timestamp (snd e)) (frameBuffer r) with
    | [] => emitSynchronizedFrame now r
    | d :: ds =>
        let maxDelay := max_of d ds in
        let minDelay := min_of d ds in
        if maxDelay - minDelay <=? syncWindow r then emitSynchronizedFrame now r
        else if maxDelay >? dropFramesAfter r then dropStaleFrames now r
        else (r, [])
    end.

(** [#handleMultiSourceFrame(frame)]; [None] is a falsy frame. *)
Definition handleMultiSourceFrame (now : Z) (frame : option (gmap string nat)) (r : t)
  : t * list Event :=
  match frame with
  | Some f =>
      if running r then
        let '(r1, evs) := processFrameData f now r in
        let '(r2, evs') := checkSynchronization now r1 in
        (r2, evs ++ evs')
      else (r, [])
  | None => (r, [])
  end.

End MultiSourceReader.

(** ** services/websocket-service.js *)

Module WebSocketService.

(** A parsed JSON value. *)
Inductive json :=
| JNull
| JBool (b : bool)
| JNum (n : Z)
| JStr (s : string)
| JArr (items : list json)
| JObj (fields : list (string * json)).

(** What arrives on the socket: text that [JSON.parse] rejects with the
    given message, or text that parses to a value. *)
Inductive RawMessage :=
| malformed (syntaxError : string)
| wellFormed (value : json).

Fixpoint field (k : string) (fs : list (string * json)) : option json :=
  match fs with
  | [] => None
  | (k', v) :: rest => if bool_decide (k' = k) then Some v else field k rest
  end.

Definition truthy (v : option json) : bool :=
  match v with
  | None | Some JNull | Some (JBool false) => false
  | Some (JNum n) => negb (n =? 0)
  | Some (JStr s) => negb (bool_decide (s = ""%string))
  | Some _ => true
  end.

(** [v === text]. *)
Definition is_string (text : string) (v : option json) : bool :=
  match v with
  | Some (JStr s) => bool_decide (s = text)
  | _ => false
  end.

(** [#parseMessage(message)]: the fields of the parsed object. *)
Definition parseMessage (message : RawMessage) : result (list (string * json)) :=
  match message with
  | malformed syntaxError => Err syntaxError
  | wellFormed (JObj fs) =>
      if truthy (field "type" fs) then Ok fs else Err "Invalid message format"
  | wellFormed _ => Err "Invalid message format"
  end.

Inductive ReadyState := CONNECTING | OPEN | CLOSING | CLOSED.

Record ClientInfo := mkInfo {
  id : string;
  name : json;
  version : json;
  platform : json;
  capabilities : json
}.

(** One socket with what the server has done to it: the messages sent,
    the close frame, and whether its identification timer is pending. *)
Record Socket := mkSocket {
  readyState : ReadyState;
  clientInfo : option ClientInfo;
  sent : list json;
  closed : option (Z * string);
  identificationTimeout : bool
}.

Record t := mkService {
  sessionId : string;
  sockets : gmap nat Socket;
  clients : gset nat
}.

Inductive Event :=
| log (level message : string)
| message (data : list (string * json)) (clientId : string)
| clientConnected (clientId : string)
| clientDisconnected (clientId : string).

Definition CLOSE_NORMAL : Z := 1000.
Definition CLOSE_TIMEOUT : Z := 1002.
Definition CLOSE_ABNORMAL : Z := 1006.

Definition set_socket (ws : nat) (s : Socket) (svc : t) : t :=
  mkService (sessionId svc) (<[ws := s]> (sockets svc)) (clients svc).

(** [send(client, data)]: nothing unless the socket is open; a send on an
    open socket is taken to succeed. *)
Definition send (data : json) (s : Socket) : Socket :=
  match readyState s with
  | OPEN => mkSocket (readyState s) (clientInfo s) (sent s ++ [data]) (closed s)
                     (identificationTimeout s)
  | _ => s
  end.

(** [#closeConnection(ws, code, reason)]: the close handshake starts on
    an open socket and is a no-op otherwise. *)
Definition closeConnection (code : Z) (reason : string) (s : Socket) : Socket :=
  match readyState s with
  | OPEN | CONNECTING =>
      mkSocket CLOSING (clientInfo s) (sent s) (Some (code, reason))
               (identificationTimeout s)
  | _ => s
  end.

Definition clearTimeout (s : Socket) : Socket :=
  mkSocket (readyState s) (clientInfo s) (sent s) (closed s) false.

(** [#handleConnection(ws)] for a new open socket [ws] given the id
    [clientId]. *)
Definition handleConnection (ws : nat) (clientId : string) (svc : t) : t * list Event :=
  let s := mkSocket OPEN None [] None true in
  (set_socket ws (send (JObj [("type", JStr "identify"); ("clientId", JStr clientId)]%string) s)
              svc,
   [log "info" ("New client connection pending: " +:+ clientId)]).

(** The identification timer fires. *)
Definition onIdentificationTimeout (ws : nat) (clientId : string) (svc : t)
  : t * list Event :=
  match sockets svc !! ws with
  | Some s =>
      if identificationTimeout s then
        (set_socket ws (closeConnection CLOSE_TIMEOUT "Client identification timeout"
                                        (clearTimeout s)) svc,
         [log "warn" ("Client " +:+ clientId +:+ " failed to identify within timeout")])
      else (svc, [])
  | None => (svc, [])
  end.

Definition or_else (v : option json) (d : json) : json :=
  match v with
  | Some j => if truthy v then j else d
  | None => d
  end.

(** [#handleIdentification(ws, data, clientId, identificationTimeout)]
    [now] is the ISO time stamp. *)
Definition handleIdentification (now : string) (ws : nat) (data : list (string * json))
    (clientId : string) (s : Socket) (svc : t) : t * list Event :=
  let info := mkInfo clientId
                (or_else (field "name" data) (JStr "Unknown Client"))
                (or_else (field "version" data) (JStr "Unknown Version"))
                (or_else (field "platform" data) (JStr "Unknown Platform"))
                (or_else (field "capabilities" data) (JObj [])) in
  let s1 := mkSocket (readyState s) (Some info) (sent s) (closed s) false in
  let s2 := send (JObj [("type", JStr "welcome"); ("sessionId", JStr (sessionId svc));
                        ("serverVersion", JStr "2.0"); ("timestamp", JStr now)]%string) s1 in
  (mkService (sessionId svc) (<[ws := s2]> (sockets svc)) ({[ws]} ∪ clients svc),
   [log "info" ("Client identified: " +:+ clientId); clientConnected clientId]).

(** [#handleMessage(ws, message, clientId, identificationTimeout)]. *)
Definition handleMessage (now : string) (ws : nat) (raw : RawMessage) (clientId : string)
    (svc : t) : t * list Event :=
  match sockets svc !! ws with
  | None => (svc, [])
  | Some s =>
      let attempt : result (t * list Event) :=
        data ← parseMessage raw;
        if is_string "identify" (field "type" data) then
          Ok (handleIdentification now ws data clientId s svc)
        else
          match clientInfo s with
          | Some _ => Ok (svc, [message data clientId])
          | None => Err "Client not identified"
          end in
      match attempt with
      | Ok r => r
      | Err e =>
          (set_socket ws (send (JObj [("type", JStr "error"); ("error", JStr e)]%string) s) svc,
           [log "error" ("Message error from client " +:+ clientId +:+ ": " +:+ e)])
      end
  end.

(** [#handleClientDisconnect(ws, clientId, identificationTimeout)]: the
    socket's [close] event. *)
Definition handleClientDisconnect (ws : nat) (clientId : string) (svc : t)
  : t * list Event :=
  match sockets svc !! ws with
  | None => (svc, [])
  | Some s =>
      let s1 := mkSocket CLOSED (clientInfo s) (sent s) (closed s) false in
      (mkService (sessionId svc) (<[ws := s1]> (sockets svc)) (clients svc ∖ {[ws]}),
       match clientInfo s with
       | Some _ => [clientDisconnected clientId;
                    log "info" ("Client disconnected: " +:+ clientId)]
       | None => []
       end)
  end.

Definition new (sessionId : string) : t := mkService sessionId ∅ ∅.

(** [broadcast(data)]; [wss] tells whether the server is up.  The loop
    over [this.#clients] sends to every client whose socket is open. *)
Definition broadcast (wss : bool) (data : json) (svc : t) : t :=
  if wss then
    mkService (sessionId svc)
              (set_fold (fun ws acc => alter (send data) ws acc) (sockets svc) (clients svc))
              (clients svc)
  else svc.

(** [#startServer(port)].  [listen] throws at once for a port outside
    0..65535, which rejects the promise; it fails with [EADDRINUSE] on
    a port that is taken (the ports for which [taken] holds), and the
    method then calls itself with the next port; any other listen error
    is left out.  [fuel] bounds the number of attempts; [None] is a run
    that has not settled within them. *)
Fixpoint startServer (fuel : nat) (taken : Z -> bool) (port : Z)
  : option (result Z) * list Event :=
  match fuel with
  | O => (None, [])
  | S fuel' =>
      if (port <? 0) || (65535 <? port) then
        (Some (Err ("options.port should be >= 0 and < 65536. Received type number ("
                      +:+ pretty port +:+ ").")), [])
      else if taken port then
        let '(r, evs) := startServer fuel' taken (port + 1) in
        (r, log "warn" ("Port " +:+ pretty port +:+ " in use, trying "
                          +:+ pretty (port + 1) +:+ "...") :: evs)
      else
        (Some (Ok port),
         [log "info" ("WebSocket server listening on port " +:+ pretty port)])
  end.

Definition DEFAULT_PORT : Z := 8008.

(** [start()]; [port] is [config.network?.port]. *)
Definition start (fuel : nat) (taken : Z -> bool) (port : option Z)
  : option (result Z) * list Event :=
  startServer fuel taken
    (match port with
     | Some p => if p =? 0 then DEFAULT_PORT else p
     | None => DEFAULT_PORT
     end).

End WebSocketService.


(** ** services/logging-service.js: the in-memory part *)

Module LoggingService.

(** [LoggingService.LOG_LEVELS], for a string that names one of its own
    properties or no property at all. *)
Definition LOG_LEVELS (level : string) : option Z :=
  if bool_decide (level = "error") then Some 0
  else if bool_decide (level = "warn") then Some 1
  else if bool_decide (level = "info") then Some 2
  else if bool_decide (level = "debug") then Some 3
  else None.

Record Entry := mkEntry {
  timestamp : string;
  level : string;
  message : string;
  data : option WebSocketService.json
}.

Record t := mkLogger {
  currentLogLevel : string;
  maxMemoryEntries : Z;
  sessionLog : list Entry;
  showingStats : bool
}.

Inductive Output :=
| consoleWarn (message : string)
| consoleLog (line : string)
| stdoutWrite (text : string)
| emitLog (entry : Entry).

(** [!LoggingService.LOG_LEVELS[level]]. *)
Definition not_a_level (level : string) : bool :=
  match LOG_LEVELS level with
  | Some n => n =? 0
  | None => true
  end.

(** [#shouldLog(level)]; a comparison with [undefined] is false. *)
Definition shouldLog (l : t) (level : string) : bool :=
  if not_a_level level then false
  else
    match LOG_LEVELS level, LOG_LEVELS (currentLogLevel l) with
    | Some n, Some current => n <=? current
    | _, _ => false
    end.

(** [string.toUpperCase()] on ASCII text. *)
Definition upper (c : Ascii.ascii) : Ascii.ascii :=
  let n := Ascii.nat_of_ascii c in
  if ((97 <=? n) && (n <=? 122))%nat then Ascii.ascii_of_nat (n - 32) else c.

Fixpoint toUpperCase (s : string) : string :=
  match s with
  | EmptyString => EmptyString
  | String c rest => String (upper c) (toUpperCase rest)
  end.

(** The text that erases the statistics line: carriage return, then
    the escape sequence "erase to end of line". *)
Definition CLEAR_LINE : string :=
  String (Ascii.ascii_of_nat 13) (String (Ascii.ascii_of_nat 27) "[K").

(** [array.slice(start)]. *)
Definition slice {A} (start : Z) (l : list A) : list A :=
  let n := Z.of_nat (length l) in
  let k := if start <? 0 then Z.max (n + start) 0 else Z.min start n in
  drop (Z.to_nat k) l.

(** [#addToMemoryBuffer(logEntry)]. *)
Definition addToMemoryBuffer (entry : Entry) (l : t) : t :=
  let pushed := sessionLog l ++ [entry] in
  mkLogger (currentLogLevel l) (maxMemoryEntries l)
           (if Z.of_nat (length pushed) >? maxMemoryEntries l
            then slice (- maxMemoryEntries l) pushed else pushed)
           (showingStats l).

(** [log(level, message, data)] up to the [log] event; [now] is the ISO
    time stamp of the call and [clock] the time-of-day part cut out of
    it.  Saving the session log to disk is left out. *)
Definition log (now clock : string) (level message : string)
    (data : option WebSocketService.json) (l : t) : t * list Output :=
  if negb (shouldLog l level) then
    (l, if not_a_level level then [consoleWarn ("Invalid log level: " +:+ level)] else [])
  else
    let cleared := if showingStats l then [stdoutWrite CLEAR_LINE] else [] in
    let l1 := mkLogger (currentLogLevel l) (maxMemoryEntries l) (sessionLog l) false in
    let entry := mkEntry now level message data in
    (addToMemoryBuffer entry l1,
     cleared ++ [consoleLog ("[" +:+ clock +:+ "] " +:+ toUpperCase level +:+ ": "
                               +:+ message);
                 emitLog entry]).

(** [setLogLevel(level)]. *)
Definition setLogLevel (level : string) (l : t) : result t :=
  if not_a_level level then Err ("Invalid log level: " +:+ level)
  else Ok (mkLogger level (maxMemoryEntries l) (sessionLog l) (showingStats l)).

End LoggingService.

(** ** client/index.js: KinectClient *)

Module KinectClient.
Import WebSocketService.

(** The client's fields and what it has sent on its socket. *)
Record t := mkClient {
  readyState : ReadyState;
  clientId : option json;
  sessionId : option json;
  connected : bool;
  sent : list json
}.

Inductive Event :=
| ready (sessionId serverVersion : option json)
| frame (sensorType data : option json)
| error (message : option json)
| stats (stats : option json)
| other (message : list (string * json)).

(** [#send(data)]. *)
Definition send (data : json) (c : t) : t :=
  match readyState c with
  | OPEN => mkClient (readyState c) (clientId c) (sessionId c) (connected c)
                     (sent c ++ [data])
  | _ => c
  end.

(** The message of [#sendIdentification()]. *)
Definition identification (platform : string) : json :=
  JObj [("type", JStr "identify"); ("name", JStr "Kinect Client");
        ("version", JStr "1.0.0"); ("platform", JStr platform);
        ("capabilities",
         JObj [("sensors", JArr [JStr "depth"; JStr "color"; JStr "body"]);
               ("features", JArr [JStr "frameProcessing"])])]%string.

(** [#handleMessage(message)] for a message that parsed to an object. *)
Definition handleMessage (platform : string) (message : list (string * json)) (c : t)
  : t * list Event :=
  let type := field "type" message in
  if is_string "identify" type then
    (send (identification platform)
          (mkClient (readyState c) (field "clientId" message) (sessionId c)
                    (connected c) (sent c)),
     [])
  else if is_string "welcome" type then
    (mkClient (readyState c) (clientId c) (field "sessionId" message) true (sent c),
     [ready (field "sessionId" message) (field "serverVersion" message)])
  else if is_string "frame" type then
    (c, [frame (field "sensorType" message) (field "data" message)])
  else if is_string "error" type then
    (c, [error (field "error" message)])
  else if is_string "stats" type then
    (c, [stats (field "stats" message)])
  else (c, [other message]).

End KinectClient.

(** ** Scenarios used by the statements below *)

Module Scenario.

(** The pool of the test suite: [maxPoolSize: 10, initialSize: 3,
    expandSize: 2]. *)
Definition test_options : BufferPool.Options :=
  BufferPool.mkOptions (Some 10) (Some 3) (Some 2) (Some true) (Some true).

(** The pool of the default configuration: 20 / 5 / 2. *)
Definition default_options : BufferPool.Options :=
  BufferPool.mkOptions None None None None None.

(** A running depth sensor with [maxQueueSize = 3] on a fresh default
    pool, and ten valid 512x424 frames numbered 1 to 10. *)
Definition depth_sensor : option DepthSensor.t :=
  match BufferPool.new 0 default_options with
  | Ok p =>
      let '(_, s, _) :=
        DepthSensor.start 0 true (DepthSensor.new 0 512 424 3 None None p) in
      Some s
  | Err _ => None
  end.

Definition ten_frames : list DepthSensor.RawFrame :=
  map (fun i => DepthSensor.mkFrame (512 * 424 * 2) i) (seq 1 10).

(** The frames handed to the worker, in posting order. *)
Definition posted (out : list DepthSensor.Output) : list nat :=
  omap (fun o => match o with
                 | DepthSensor.postMessage _ f => Some (DepthSensor.bytes f)
                 | _ => None
                 end) out.


(** The depth worker of the filtering scenario: a 3x1 frame, reliable
    range 500..4500, normalisation and gamma on. *)
Definition depth_worker (threshold : option float) : DepthWorker.t :=
  DepthWorker.new 3 1 (DepthWorker.mkProcessing true true threshold)
                  (DepthWorker.mkCalibration 500 4500).

(** The pixels 100, 5000, 2000 as little-endian bytes. *)
Definition depth_pixels : list Z := [100; 0; 136; 19; 208; 7].

(** Some coordinate of [v] equals 0. *)
Definition has_zero_coordinate (v : BodyWorker.Vec3) : bool :=
  PrimFloat.is_zero (BodyWorker.x v) || PrimFloat.is_zero (BodyWorker.y v)
  || PrimFloat.is_zero (BodyWorker.z v).

(** The body settings of the default configuration (velocity tracking
    off), and a tracked body whose spine is centred at x = 0. *)
Definition body_config : BodyWorker.Processing :=
  BodyWorker.mkProcessing
    (BodyWorker.mkSmoothing 0.5 0.5 0.05 0.04)
    (BodyWorker.mkTracking (fun j => 0 <? BodyWorker.trackingState j) 0.3)
    (BodyWorker.mkMetrics false true true true)
    (BodyWorker.mkMovementConfig 0.01 0.5).

Definition centered_spine : BodyWorker.Joint :=
  BodyWorker.mkJoint (Some (BodyWorker.mkVec 0 0.3 2))
                     (Some (BodyWorker.mkVec 0 0.31 2.01)) 2 (Some 0.9%float).

Definition centered_body : BodyWorker.Body :=
  BodyWorker.mkBody 7 true (Some [("1"%string, centered_spine)]) (Some (2, 3)).

Definition centered_frame : BodyWorker.Frame :=
  BodyWorker.mkFrame true (Some [centered_body]).

(** The same configuration with velocity tracking on and the body
    metrics off. *)
Definition velocity_config : BodyWorker.Processing :=
  BodyWorker.mkProcessing
    (BodyWorker.mkSmoothing 0.5 0.5 0.05 0.04)
    (BodyWorker.mkTracking (fun j => 0 <? BodyWorker.trackingState j) 0.3)
    (BodyWorker.mkMetrics true false false false)
    (BodyWorker.mkMovementConfig 0.01 0.5).

(** A tracked body whose right hand (joint 11) lies a tenth of a metre
    from its previous position along each axis. *)
Definition moving_hand : BodyWorker.Joint :=
  BodyWorker.mkJoint (Some (BodyWorker.mkVec 1 1 2))
                     (Some (BodyWorker.mkVec 1.1 1.1 2.1)) 2 (Some 0.9%float).

Definition moving_body : BodyWorker.Body :=
  BodyWorker.mkBody 7 true (Some [("11"%string, moving_hand)]) (Some (2, 3)).

(** A tracked body with a spine (joint 1) and a right hand at abscissa
    [hand_x], above the spine, neither with a previous position; and the
    frame that holds it. *)
Definition swipe_body (hand_x : float) : BodyWorker.Body :=
  BodyWorker.mkBody 7 true
    (Some [("1"%string,
            BodyWorker.mkJoint (Some (BodyWorker.mkVec 0.1 0.2 2)) None 2 (Some 0.9%float));
           ("11"%string,
            BodyWorker.mkJoint (Some (BodyWorker.mkVec hand_x 0.5 2)) None 2
                               (Some 0.9%float))])
    (Some (2, 3)).

Definition swipe_frame (hand_x : float) : BodyWorker.Frame :=
  BodyWorker.mkFrame true (Some [swipe_body hand_x]).

(** [max_ts - min_ts] over the buffered slots (0 when there is none). *)
Definition spread (b : list (string * MultiSourceReader.Slot)) : Z :=
  match map (fun e => MultiSourceReader.timestamp (snd e)) b with
  | [] => 0
  | t0 :: ts => fold_left Z.max ts t0 - fold_left Z.min ts t0
  end.

(** A started reader that requires depth, colour and body, with the sync
    settings of the test suite (window 33, drop after 66, 5 slots). *)
Definition reader : MultiSourceReader.t :=
  MultiSourceReader.mkReader ["depth"; "color"; "body"]%string 33 100 66 5 true [] 0
                             MultiSourceReader.empty_stats.

(** The event is a synchronised bundle. *)
Definition is_bundle (e : MultiSourceReader.Event) : Prop :=
  match e with
  | MultiSourceReader.synchronizedFrame _ _ => True
  | _ => False
  end.

(** A driver frame that carries one stream only. *)
Definition only (k : string) (data : nat) : option (gmap string nat) :=
  Some {[k := data]}.

(** A colour sensor that was started, saw one worker error, and was
    stopped again. *)
Definition restarted_once : BaseSensor.t :=
  let s0 := BaseSensor.new 0 "color" None None in
  let s1 := (@BaseSensor.start ColorSensor.colorSensor 10 true s0).1.2 in
  let s2 := (@BaseSensor.onWorkerError ColorSensor.colorSensor "worker crashed" s1).1.2 in
  (@BaseSensor.stop ColorSensor.colorSensor s2).1.2.

(** [n] worker errors in a row on a colour sensor. *)
Definition crashes (n : nat) (s : BaseSensor.t) : BaseSensor.t :=
  Nat.iter n
    (fun s => (@BaseSensor.onWorkerError ColorSensor.colorSensor "worker crashed" s).1.2)
    s.

(** A service with one freshly accepted, unidentified socket, and the
    messages exchanged with it. *)
Definition pending : WebSocketService.t :=
  (WebSocketService.handleConnection 0 "client-a" (WebSocketService.new "session-x")).1.

Definition identify_request : WebSocketService.json :=
  WebSocketService.JObj
    [("type", WebSocketService.JStr "identify");
     ("clientId", WebSocketService.JStr "client-a")]%string.

Definition start_sensor : WebSocketService.RawMessage :=
  WebSocketService.wellFormed
    (WebSocketService.JObj
       [("type", WebSocketService.JStr "startSensor");
        ("sensorType", WebSocketService.JStr "depth")]%string).

Definition identify : WebSocketService.RawMessage :=
  WebSocketService.wellFormed
    (WebSocketService.JObj
       [("type", WebSocketService.JStr "identify");
        ("name", WebSocketService.JStr "viewer")]%string).

Definition welcome : WebSocketService.json :=
  WebSocketService.JObj
    [("type", WebSocketService.JStr "welcome");
     ("sessionId", WebSocketService.JStr "session-x");
     ("serverVersion", WebSocketService.JStr "2.0");
     ("timestamp", WebSocketService.JStr "T")]%string.

Definition error_reply (e : string) : WebSocketService.json :=
  WebSocketService.JObj
    [("type", WebSocketService.JStr "error");
     ("error", WebSocketService.JStr e)]%string.

End Scenario.

(** * Invariants

    Predicates over pool states used to state what the pool's methods
    preserve.  A buffer is identified by its allocation serial number. *)

Module Invariant.

(** The buffers a kind's pool holds, free or outstanding. *)
Definition ids (pool : BufferPool.Pool) : gset nat :=
  list_to_set (BufferPool.buffers pool) ∪ BufferPool.inUse pool.

(** Bookkeeping invariant of the pool: free lists without repetition, no
    buffer both free and outstanding, every buffer allocated before
    [nextBuffer], and no buffer shared between two kinds. *)
Record pool_wf (p : BufferPool.t) : Prop := mk_pool_wf {
  wf_nodup : forall k pool, BufferPool.pools p !! k = Some pool ->
             NoDup (BufferPool.buffers pool);
  wf_free : forall k pool b, BufferPool.pools p !! k = Some pool ->
            b ∈ BufferPool.buffers pool -> b ∉ BufferPool.inUse pool;
  wf_fresh : forall k pool b, BufferPool.pools p !! k = Some pool ->
             b ∈ ids pool -> (b < BufferPool.nextBuffer p)%nat;
  wf_apart : forall k1 k2 pool1 pool2, k1 <> k2 ->
             BufferPool.pools p !! k1 = Some pool1 ->
             BufferPool.pools p !! k2 = Some pool2 ->
             ids pool1 ## ids pool2
}.

(** [#initializePools] for one kind: the body of its loop. *)
Definition init_step (now : Z) (p : BufferPool.t) (type : string) : BufferPool.t :=
  let '(pool, s, next) :=
    BufferPool.allocate (Z.to_nat (BufferPool.initialSize p))
      (BufferPool.mkPool [] ∅ now) (BufferPool.stats p) (BufferPool.nextBuffer p) in
  BufferPool.mkState (<[type := pool]> (BufferPool.pools p)) (BufferPool.config p)
    (BufferPool.maxPoolSize p) (BufferPool.initialSize p) (BufferPool.expandSize p)
    s next.

(** A sum over the kinds of the pool. *)
Definition msum (f : BufferPool.Pool -> Z) (m : gmap string BufferPool.Pool) : Z :=
  map_fold (fun _ x acc => acc + f x) 0 m.

(** The buffers of one kind, free and outstanding, and the outstanding
    ones. *)
Definition cnt (pool : BufferPool.Pool) : Z :=
  BufferPool.len (BufferPool.buffers pool) + BufferPool.size (BufferPool.inUse pool).
Definition used (pool : BufferPool.Pool) : Z :=
  BufferPool.size (BufferPool.inUse pool).

(** The length of the free list the loop of [#shrinkPools] leaves to one
    kind, the pool it leaves, and the number of buffers it discards. *)
Definition kept (maxPoolSize : Z) (pool : BufferPool.Pool) : nat :=
  Z.to_nat (Z.min (BufferPool.len (BufferPool.buffers pool))
                  (Z.max 0 (maxPoolSize - BufferPool.size (BufferPool.inUse pool)))).
Definition shrunk (maxPoolSize : Z) (pool : BufferPool.Pool) : BufferPool.Pool :=
  BufferPool.mkPool (take (kept maxPoolSize pool) (BufferPool.buffers pool))
                    (BufferPool.inUse pool) (BufferPool.lastAccessed pool).
Definition dropped (maxPoolSize : Z) (pool : BufferPool.Pool) : Z :=
  BufferPool.len (BufferPool.buffers pool) - Z.of_nat (kept maxPoolSize pool).

(** [stats.poolSize] is the number of buffers the pool holds. *)
Definition counted (p : BufferPool.t) : Prop :=
  BufferPool.poolSize (BufferPool.stats p) = BufferPool.totalBuffers p.

(** [#pools] has exactly the kinds of [#BUFFER_CONFIGS]. *)
Definition keyed (p : BufferPool.t) : Prop :=
  dom (BufferPool.pools p) = list_to_set BufferPool.BUFFER_CONFIGS.

(** The length of a depth sensor's frame queue and its count of missed
    frames. *)
Definition qlen (s : DepthSensor.t) : Z :=
  Z.of_nat (List.length (DepthSensor.frameQueue s)).
Definition missed (s : DepthSensor.t) : Z :=
  BaseSensor.missedFrames (BaseSensor.performanceStats (DepthSensor.base s)).

(** The slot is older than [dropFramesAfter] at time [now]. *)
Definition stale (now : Z) (r : MultiSourceReader.t) (e : string * MultiSourceReader.Slot)
  : bool :=
  now - MultiSourceReader.timestamp (snd e) >? MultiSourceReader.dropFramesAfter r.

(** The frame buffer of a reader holds at most one slot per kind, and
    only required kinds. *)
Definition buffer_wf (r : MultiSourceReader.t) : Prop :=
  NoDup (map fst (MultiSourceReader.frameBuffer r))
  /\ forall k, k ∈ map fst (MultiSourceReader.frameBuffer r) ->
               k ∈ MultiSourceReader.requiredFrameTypes r.

(** The pool states a program reaches from the constructor through
    [acquire], [release], [resize] and calls of [clear] that return. *)
Inductive reachable : BufferPool.t -> Prop :=
| reach_new now o p :
    BufferPool.new now o = Ok p -> reachable p
| reach_acquire now type p :
    reachable p -> reachable (BufferPool.acquire now type p).1.2
| reach_release now type b p :
    reachable p -> reachable (BufferPool.release now type b p).1.2
| reach_resize now newSize p :
    reachable p -> reachable (BufferPool.resize now newSize p).1.2
| reach_clear now p p' :
    reachable p -> BufferPool.clear now p = (Ok tt, p') -> reachable p'.

(** The same when a call of [clear] that throws counts as well, and
    when a released buffer may have been transferred. *)
Inductive reached : BufferPool.t -> Prop :=
| reached_new now o p :
    BufferPool.new now o = Ok p -> reached p
| reached_acquire now type p :
    reached p -> reached (BufferPool.acquire now type p).1.2
| reached_release detached now type b p :
    reached p -> reached (BufferPool.release_view detached now type b p).1.2
| reached_resize now newSize p :
    reached p -> reached (BufferPool.resize now newSize p).1.2
| reached_clear now p :
    reached p -> reached (BufferPool.clear now p).2.

End Invariant.

(** * Properties *)

(** ** Buffer pool *)

Lemma release_unknown_type now type b p :
  BufferPool.pools p !! type = None ->
  BufferPool.release now type b p = (Err ("Unknown buffer type: " +:+ type), p, []).
Proof. intros H. unfold BufferPool.release, BufferPool.release_view. by rewrite H. Qed.

Lemma release_null_buffer now type p pool :
  BufferPool.pools p !! type = Some pool ->
  BufferPool.release now type None p = (Err "Invalid or untracked buffer", p, []).
Proof. intros H. unfold BufferPool.release, BufferPool.release_view. by rewrite H. Qed.

(** Claim C8. Releasing a buffer that is not in the in-use set of its kind
    throws "Invalid or untracked buffer", emits nothing, and returns the
    pool exactly as it was: free lists, in-use sets and statistics. *)
Theorem release_untracked_unchanged now type b p pool :
  BufferPool.pools p !! type = Some pool ->
  b ∉ BufferPool.inUse pool ->
  BufferPool.release now type (Some b) p = (Err "Invalid or untracked buffer", p, []).
Proof.
  intros Hpool Hb. unfold BufferPool.release, BufferPool.release_view. rewrite Hpool.
  by rewrite bool_decide_false.
Qed.

Lemma release_untracked_unchanged_witness :
  exists p0 p b,
    BufferPool.new 0 Scenario.test_options = Ok p0 /\
    BufferPool.acquire 1 "depth" p0 = (Ok (Some b), p, []) /\
    BufferPool.release 2 "color" (Some b) p
    = (Err "Invalid or untracked buffer", p, []).
Proof.
  do 3 eexists. split; [vm_compute; reflexivity |].
  split; [vm_compute; reflexivity |].
  eapply release_untracked_unchanged; [vm_compute; reflexivity |].
  apply not_elem_of_empty.
Defined.

(** Claim C3. On the pool of the test suite (cap 10, 3 buffers per kind)
    the constructor already holds 12 buffers, and [resize(5)] succeeds
    without discarding any: each kind's own 3 buffers are compared with
    the cap, so the pool keeps 12 buffers under a cap of 5. *)
Theorem resize_keeps_total_above_cap :
  match BufferPool.new 0 Scenario.test_options with
  | Ok p =>
      BufferPool.totalBuffers p = 12 /\ BufferPool.maxPoolSize p = 10 /\
      BufferPool.totalInUse p = 0 /\
      match BufferPool.resize 1 5 p with
      | (Ok _, p', evs) =>
          BufferPool.maxPoolSize p' = 5 /\
          BufferPool.totalBuffers p' = 12 /\
          BufferPool.poolSize (BufferPool.stats p') = 12 /\
          evs = [BufferPool.poolResized 5 12 1]
      | (Err _, _, _) => False
      end
  | Err _ => False
  end.
Proof. vm_compute. repeat split; reflexivity. Qed.

(** ** Depth sensor *)

Section DepthSensorProperties.
Import BaseSensor DepthSensor Invariant.

(** [release] on a transferred buffer under [clearOnRelease], and on any
    other outstanding buffer. *)
Lemma release_view_detached now type b p pool :
  BufferPool.pools p !! type = Some pool ->
  b ∈ BufferPool.inUse pool ->
  BufferPool.clearOnRelease (BufferPool.config p) = true ->
  BufferPool.release_view true now type (Some b) p
  = (Err "Cannot perform %TypedArray%.prototype.fill on a detached ArrayBuffer", p, []).
Proof.
  intros Hp Hb Hc. unfold BufferPool.release_view.
  by rewrite Hp, bool_decide_true, Hc.
Qed.

Lemma release_view_returns detached now type b p pool :
  BufferPool.pools p !! type = Some pool ->
  b ∈ BufferPool.inUse pool ->
  detached && BufferPool.clearOnRelease (BufferPool.config p) = false ->
  BufferPool.release_view detached now type (Some b) p
  = BufferPool.release now type (Some b) p
  /\ (BufferPool.release now type (Some b) p).1.1 = Ok tt.
Proof.
  intros Hp Hb Hc. unfold BufferPool.release, BufferPool.release_view.
  by rewrite Hp, bool_decide_true, Hc.
Qed.


(** A release that throws leaves the pool as it was and emits nothing. *)
Lemma release_view_throws detached now type b p e p' evs :
  BufferPool.release_view detached now type b p = (Err e, p', evs) ->
  p' = p /\ evs = [].
Proof.
  unfold BufferPool.release_view. intros H.
  repeat case_match; simplify_eq; done.
Qed.

Lemma releaseBuffer_frame now kind b s :
  let s' := (releaseBuffer now kind b s).1.2 in
  base s' = base s /\ frameQueue s' = frameQueue s /\ maxQueueSize s' = maxQueueSize s
  /\ currentBuffer s' = currentBuffer s /\ frameWidth s' = frameWidth s
  /\ frameHeight s' = frameHeight s /\ transferred s' = transferred s.
Proof.
  unfold releaseBuffer.
  by destruct (BufferPool.release_view _ now kind b (bufferPool s)) as [[r p] evs].
Qed.

Lemma acquireBuffer_frame now kind s :
  let s' := (acquireBuffer now kind s).1.2 in
  base s' = base s /\ frameQueue s' = frameQueue s /\ maxQueueSize s' = maxQueueSize s
  /\ currentBuffer s' = currentBuffer s /\ frameWidth s' = frameWidth s
  /\ frameHeight s' = frameHeight s /\ transferred s' = transferred s
  /\ bufferPool s' = (BufferPool.acquire now kind (bufferPool s)).1.2.
Proof.
  unfold acquireBuffer. by destruct (BufferPool.acquire now kind (bufferPool s)) as [[r p] evs].
Qed.

Lemma post_frame b f s :
  let s' := (post b f s).1.2 in
  base s' = base s /\ frameQueue s' = frameQueue s /\ maxQueueSize s' = maxQueueSize s
  /\ currentBuffer s' = currentBuffer s /\ bufferPool s' = bufferPool s.
Proof. unfold post. by repeat case_match. Qed.

Lemma releaseBuffer_null now kind s :
  exists e, (releaseBuffer now kind None s).1.1 = Err e.
Proof.
  unfold releaseBuffer, BufferPool.release_view.
  destruct (BufferPool.pools (bufferPool s) !! kind); by eexists.
Qed.

Lemma releaseBuffer_out now kind b s :
  exists evs, (releaseBuffer now kind b s).2 = map pool evs.
Proof.
  unfold releaseBuffer.
  destruct (BufferPool.release_view _ now kind b (bufferPool s)) as [[r p] evs].
  by exists evs.
Qed.

Lemma acquireBuffer_out now kind s :
  (acquireBuffer now kind s).2 = map pool (BufferPool.acquire now kind (bufferPool s)).2
  /\ (acquireBuffer now kind s).1.1 = (BufferPool.acquire now kind (bufferPool s)).1.1.
Proof.
  unfold acquireBuffer. by destruct (BufferPool.acquire now kind (bufferPool s)) as [[r p] evs].
Qed.

Lemma no_post_in_pool_events b f evs : ~ In (postMessage b f) (map pool evs).
Proof. intros (e & He & _)%in_map_iff. discriminate. Qed.

Lemma posted_pool_events evs : Scenario.posted (map pool evs) = [].
Proof. by induction evs. Qed.

(** The [catch] block changes neither the queue nor the counters, and
    posts nothing. *)
Lemma catch_frame now s1 e out1 r s' out :
  match currentBuffer s1 with
  | Some b =>
      match releaseBuffer now "depth" (Some b) s1 with
      | (Ok _, s2, out') =>
          (Ok tt, set_current None s2,
           (out1 ++ [sensor (logError "Error processing depth frame:");
                     sensor (emitError e)]) ++ out')
      | (Err e', s2, out') =>
          (Err e', s2,
           (out1 ++ [sensor (logError "Error processing depth frame:");
                     sensor (emitError e)]) ++ out')
      end
  | None => (Ok tt, s1, out1 ++ [sensor (logError "Error processing depth frame:");
                                 sensor (emitError e)])
  end = (r, s', out) ->
  base s' = base s1 /\ frameQueue s' = frameQueue s1 /\ maxQueueSize s' = maxQueueSize s1
  /\ Scenario.posted out = Scenario.posted out1
  /\ In (sensor (emitError e)) out.
Proof.
  destruct (currentBuffer s1) as [b|].
  - pose proof (releaseBuffer_frame now "depth" (Some b) s1) as (Hb & Hq & Hm & _).
    destruct (releaseBuffer_out now "depth" (Some b) s1) as [evs Hevs].
    destruct (releaseBuffer now "depth" (Some b) s1) as [[[[]|e'] s2] out'];
      simpl in *; intros [= <- <- <-]; subst out'; simpl;
      (split; [done|]; split; [done|]; split; [done|]; split;
       [unfold Scenario.posted; rewrite !omap_app; simpl;
        change (omap _ (map pool evs)) with (Scenario.posted (map pool evs));
        by rewrite posted_pool_events, !app_nil_r
       |rewrite !in_app_iff; simpl; auto]).
  - intros [= <- <- <-]. split; [done|]. split; [done|]. split; [done|]. split.
    + unfold Scenario.posted. rewrite omap_app. simpl. by rewrite app_nil_r.
    + rewrite in_app_iff. simpl. auto.
Qed.


(** One call of [_processFrame] either leaves the missed-frame counter
    alone, lengthening the queue by at most one and shortening it by at
    most one, and that only when it was full; or it counts one missed
    frame, and then the queue was full and is one shorter. *)
Lemma processFrame_step now f s :
  let s' := (_processFrame now f s).1.2 in
  maxQueueSize s' = maxQueueSize s
  /\ isRunning (base s') = isRunning (base s)
  /\ (missed s' = missed s
      /\ qlen s - 1 <= qlen s' <= qlen s + 1
      /\ (qlen s' < qlen s -> maxQueueSize s <= qlen s)
      /\ (qlen s < qlen s' -> qlen s < maxQueueSize s)
      \/ missed s' = missed s + 1
         /\ qlen s' = qlen s - 1
         /\ maxQueueSize s <= qlen s).
Proof.
  unfold _processFrame, qlen, missed.
  destruct (isRunning (base s)) eqn:Hrun; simpl.
  2:{ rewrite Hrun. split; [done|]. split; [done|]. left. lia. }
  destruct (processFrame_try now f s) as [[[[]|e] s1] out1] eqn:Htry.
  - (* the try block returned *)
    revert Htry. unfold processFrame_try.
    destruct (length f =? frameWidth s * frameHeight s * 2); simpl; [|done].
    destruct (Z.geb_spec (Z.of_nat (List.length (frameQueue s))) (maxQueueSize s))
      as [Hfull|Hroom].
    + pose proof (releaseBuffer_frame now "depth" (head (frameQueue s))
                    (set_queue (tail (frameQueue s)) s)) as (Hb & Hq & Hm & _).
      pose proof (releaseBuffer_null now "depth" (set_queue (tail (frameQueue s)) s))
        as [e0 Hnull].
      destruct (frameQueue s) as [|b q] eqn:Hqs; cbn [head tail] in *.
      { by destruct (releaseBuffer now "depth" None (set_queue [] s)) as [[[[]|e] s2] out']. }
      destruct (releaseBuffer now "depth" (Some b) (set_queue q s))
        as [[[[]|e] s2] out']; [|done].
      simpl in *. intros [= <- <-]. simpl. rewrite Hq, Hm, Hb, Hrun.
      split; [done|]. split; [done|]. right. lia.
    + pose proof (acquireBuffer_frame now "depth" s) as (Hb & Hq & Hm & _).
      destruct (acquireBuffer now "depth" s) as [[[[b|]|e] s1'] out]; simpl in *; [| |done].
      * pose proof (post_frame b f (set_queue (frameQueue s1' ++ [b])
                                              (set_current (Some b) s1')))
          as (Hb' & Hq' & Hm' & _).
        destruct (post b f _) as [[r s3] out']. simpl in *.
        intros [= -> <- <-]. rewrite Hq', Hm', Hb', Hq, Hm, Hb, Hrun, length_app. simpl.
        split; [done|]. split; [done|]. left. lia.
      * intros [= <- <-]. simpl. rewrite Hq, Hm, Hb, Hrun.
        split; [done|]. split; [done|]. left. lia.
  - (* the try block threw *)
    assert (maxQueueSize s1 = maxQueueSize s /\ base s1 = base s
            /\ Z.of_nat (List.length (frameQueue s)) - 1
               <= Z.of_nat (List.length (frameQueue s1))
               <= Z.of_nat (List.length (frameQueue s)) + 1
            /\ (Z.of_nat (List.length (frameQueue s1))
                < Z.of_nat (List.length (frameQueue s)) ->
                maxQueueSize s <= Z.of_nat (List.length (frameQueue s)))
            /\ (Z.of_nat (List.length (frameQueue s))
                < Z.of_nat (List.length (frameQueue s1)) ->
                Z.of_nat (List.length (frameQueue s)) < maxQueueSize s))
      as (Hm1 & Hb1 & Hq1 & Hdown & Hup).
    { revert Htry. unfold processFrame_try.
      destruct (length f =? frameWidth s * frameHeight s * 2); simpl.
      2:{ intros [= <- <- <-]. repeat split; lia. }
      destruct (Z.geb_spec (Z.of_nat (List.length (frameQueue s))) (maxQueueSize s))
        as [Hfull|Hroom].
      - pose proof (releaseBuffer_frame now "depth" (head (frameQueue s))
                      (set_queue (tail (frameQueue s)) s)) as (Hb & Hq & Hm & _).
        destruct (releaseBuffer now "depth" (head (frameQueue s))
                    (set_queue (tail (frameQueue s)) s)) as [[[[]|e0] s2] out']; [done|].
        simpl in *. intros [= <- <- <-]. rewrite Hq, Hm, Hb.
        destruct (frameQueue s); simpl in *; repeat split; lia.
      - pose proof (acquireBuffer_frame now "depth" s) as (Hb & Hq & Hm & _).
        destruct (acquireBuffer now "depth" s) as [[[[b|]|e0] s1'] out]; simpl in *; [|done|].
        + pose proof (post_frame b f (set_queue (frameQueue s1' ++ [b])
                                                (set_current (Some b) s1')))
            as (Hb' & Hq' & Hm' & _).
          destruct (post b f _) as [[r s3] out']. simpl in *.
          intros [= -> <- <-]. rewrite Hq', Hm', Hb', Hq, Hm, Hb, length_app. simpl.
          repeat split; lia.
        + intros [= <- <- <-]. rewrite Hq, Hm, Hb. repeat split; lia. }
    match goal with |- context [match currentBuffer s1 with _ => _ end] =>
      destruct (match currentBuffer s1 with
                | Some b0 => _ | None => _ end) as [[r s'] out] eqn:Hcatch
    end.
    apply catch_frame in Hcatch as (Hbase & Hq' & Hm' & _). simpl.
    rewrite Hm', Hm1, Hbase, Hb1, Hq', Hrun. split; [done|]. split; [done|]. left.
    split; [done|]. split; [lia|]. split; [exact Hdown|exact Hup].
Qed.





End DepthSensorProperties.

(** ** Depth worker *)

Section DepthWorkerProperties.
Import DepthWorker.

Lemma chunk_length w n i (frame processed : list Z) min max :
  length (chunk w n i frame processed min max) = length processed.
Proof.
  revert i processed. induction n as [|n IH]; intros i processed; simpl; [done|].
  rewrite IH. apply length_insert.
Qed.

Lemma chunk_lookup w n i (frame processed : list Z) min max (j : nat) :
  length processed = length frame ->
  (i + n <= length frame)%nat ->
  chunk w n i frame processed min max !! j
  = if decide (i <= j < i + n)%nat then stored w min max <$> frame !! j
    else processed !! j.
Proof.
  revert i processed. induction n as [|n IH]; intros i processed Hlen Hn; simpl.
  - destruct (decide _); [lia|done].
  - rewrite IH; [|by rewrite length_insert|lia].
    destruct (decide (j = i)) as [->|Hne].
    + rewrite decide_False by lia. rewrite decide_True by lia.
      rewrite list_lookup_insert_eq by lia.
      destruct (lookup_lt_is_Some_2 frame i ltac:(lia)) as [v Hv].
      rewrite Hv. simpl. by rewrite (list_lookup_total_correct _ _ _ Hv).
    + rewrite list_lookup_insert_ne by done.
      destruct (decide (S i <= j < S i + n)%nat), (decide (i <= j < i + S n)%nat);
        try done; lia.
Qed.

Lemma chunks_lookup w fuel size offset (frame processed : list Z) min max (j : nat) :
  (0 < size)%nat ->
  length processed = length frame ->
  (length frame <= offset + fuel * size)%nat ->
  chunks w fuel size offset frame processed min max !! j
  = if decide (offset <= j < length frame)%nat then stored w min max <$> frame !! j
    else processed !! j.
Proof.
  intros Hsize. revert offset processed.
  induction fuel as [|fuel IH]; intros offset processed Hlen Hfuel; simpl.
  - destruct (decide _); [lia|done].
  - destruct (offset <? length frame)%nat eqn:Hlt.
    + apply Nat.ltb_lt in Hlt.
      rewrite IH; [|by rewrite chunk_length|lia].
      rewrite chunk_lookup by (done || lia).
      repeat case_decide; try done; lia.
    + apply Nat.ltb_ge in Hlt.
      destruct (decide (offset <= j < length frame)%nat); [lia|done].
Qed.

(** [_processFrameChunks] ends by its own loop conditions and stores, for
    every source element, the converted value of its pixel. *)
Lemma processFrameChunks_map w (frame : list Z) min max :
  0 < chunkSize w ->
  _processFrameChunks w frame (repeat 0 (length frame)) min max
  = map (stored w min max) frame.
Proof.
  intros Hc. unfold _processFrameChunks.
  destruct frame as [|v frame]; [done|].
  apply list_eq. intros j.
  rewrite chunks_lookup.
  - rewrite list_lookup_fmap.
    destruct (decide (0 <= j < length (v :: frame))%nat) as [|Hj]; [done|].
    rewrite lookup_ge_None_2 by (rewrite repeat_length; simpl in *; lia).
    rewrite lookup_ge_None_2 by (simpl in *; lia). done.
  - simpl length. lia.
  - by rewrite repeat_length.
  - simpl length. nia.
Qed.

(** A pixel outside the reliable range is stored as 0. *)
Lemma out_of_range_pixel_is_zero w min max v :
  ((min <=? of_uint16 v) && (of_uint16 v <=? max))%float = false ->
  stored w min max v = 0.
Proof.
  intros H. unfold stored, pixel, _isValidDepth. rewrite H. simpl.
  by destruct (normalize (processing w)).
Qed.

(** The processed frame of a valid buffer, element by element. *)
Lemma processFrame_elements width height p c (bs : list Z) :
  _validateFrame (new width height p c) (Some bs) = Ok tt ->
  processFrame (new width height p c) (Some bs)
  = Ok (mkResult
          (map (stored (new width height p c) (minReliableDistance c)
                       (maxReliableDistance c))
               (Uint16Array_of_bytes bs))
          (minReliableDistance c) (maxReliableDistance c) width height).
Proof.
  intros Hvalid. unfold processFrame. rewrite Hvalid. simpl.
  by rewrite processFrameChunks_map.
Qed.

End DepthWorkerProperties.

(** Claim C2. For the pixels 100, 5000, 2000 with range 500..4500 and
    normalisation plus gamma on, [_normalizeDepth] does compute a value
    between 0.612 and 0.613 for the pixel 2000, but the assignment into
    the [Uint16Array] keeps its integer part: the processed frame is
    [0, 0, 0], with or without the confidence threshold of the default
    configuration. *)
Theorem depth_filtering_truncates :
  DepthWorker.Uint16Array_of_bytes Scenario.depth_pixels = [100; 5000; 2000] /\
  (let v := DepthWorker._normalizeDepth (Scenario.depth_worker None) 2000 500 4500 in
   (0.612 <? v)%float = true /\ (v <? 0.613)%float = true /\
   DepthWorker.to_uint16 v = 0) /\
  DepthWorker.processFrame (Scenario.depth_worker None) (Some Scenario.depth_pixels)
  = Ok (DepthWorker.mkResult [0; 0; 0] 500 4500 3 1) /\
  DepthWorker.processFrame (Scenario.depth_worker (Some 0.7%float))
                           (Some Scenario.depth_pixels)
  = Ok (DepthWorker.mkResult [0; 0; 0] 500 4500 3 1).
Proof. vm_compute. repeat split; reflexivity. Qed.

(** ** Colour worker *)

Section ColorWorkerProperties.
Import ColorWorker.

Lemma opaque_chunk_length fuel i stop (buffer : list Z) :
  length (opaque_chunk fuel i stop buffer) = length buffer.
Proof.
  revert i buffer. induction fuel as [|fuel IH]; intros i buffer; simpl; [done|].
  destruct (i <? stop)%nat; [|done]. rewrite IH. apply length_insert.
Qed.

Lemma opaque_chunks_length fuel step offset (buffer : list Z) :
  length (opaque_chunks fuel step offset buffer) = length buffer.
Proof.
  revert offset buffer. induction fuel as [|fuel IH]; intros offset buffer; simpl; [done|].
  destruct (offset <? length buffer)%nat; [|done].
  rewrite IH. apply opaque_chunk_length.
Qed.

Lemma alpha_next i j :
  (i mod 4 = 3)%nat -> (i < j < i + 4)%nat -> (j mod 4 <> 3)%nat.
Proof.
  intros Hi Hj. pose proof (Nat.div_mod_eq i 4). pose proof (Nat.div_mod_eq j 4). lia.
Qed.

Lemma alpha_step i step :
  (i mod 4 = 3)%nat -> (step mod 4 = 0)%nat -> ((i + step) mod 4 = 3)%nat.
Proof.
  intros Hi Hs. rewrite Nat.Div0.add_mod, Hi, Hs. reflexivity.
Qed.

Lemma opaque_chunk_lookup fuel i stop (buffer : list Z) (j : nat) :
  (i mod 4 = 3)%nat ->
  (stop <= length buffer)%nat ->
  (stop <= i + 4 * fuel)%nat ->
  opaque_chunk fuel i stop buffer !! j
  = if decide ((i <= j < stop)%nat /\ (j mod 4 = 3)%nat) then Some 255
    else buffer !! j.
Proof.
  revert i buffer. induction fuel as [|fuel IH]; intros i buffer Hi Hstop Hfuel; simpl.
  - destruct (decide _) as [[? _]|]; [lia|done].
  - destruct (i <? stop)%nat eqn:Hlt.
    + apply Nat.ltb_lt in Hlt.
      rewrite IH; [|by apply (alpha_step i 4)|by rewrite length_insert|lia].
      destruct (decide (j = i)) as [->|Hne].
      * rewrite list_lookup_insert_eq by lia.
        destruct (decide ((i + 4 <= i < stop)%nat /\ _)) as [[? _]|]; [lia|].
        by rewrite decide_True by (split; [lia|done]).
      * rewrite list_lookup_insert_ne by done.
        destruct (decide ((i + 4 <= j < stop)%nat /\ _)) as [[? ?]|Hn].
        { by rewrite decide_True by (split; [lia|done]). }
        destruct (decide ((i <= j < stop)%nat /\ _)) as [[? Hj]|]; [|done].
        destruct (decide (j < i + 4)%nat) as [Hnear|Hfar].
        -- by destruct (alpha_next i j Hi ltac:(lia)).
        -- destruct Hn. split; [lia|done].
    + apply Nat.ltb_ge in Hlt.
      destruct (decide _) as [[? _]|]; [lia|done].
Qed.

Lemma opaque_chunks_lookup fuel step offset (buffer : list Z) (j : nat) :
  (0 < step)%nat -> (step mod 4 = 0)%nat ->
  (offset mod 4 = 3)%nat ->
  (length buffer <= offset + fuel * step)%nat ->
  opaque_chunks fuel step offset buffer !! j
  = if decide ((offset <= j < length buffer)%nat /\ (j mod 4 = 3)%nat) then Some 255
    else buffer !! j.
Proof.
  intros Hstep Hmod. revert offset buffer.
  induction fuel as [|fuel IH]; intros offset buffer Ho Hfuel; simpl.
  - destruct (decide _) as [[? _]|]; [lia|done].
  - destruct (offset <? length buffer)%nat eqn:Hlt.
    + apply Nat.ltb_lt in Hlt.
      rewrite IH; [|by apply alpha_step|rewrite opaque_chunk_length; lia].
      rewrite opaque_chunk_length.
      rewrite opaque_chunk_lookup by (done || lia).
      destruct (decide ((offset + step <= j < length buffer)%nat /\ _)) as [[? ?]|Hn].
      { by rewrite decide_True by (split; [lia|done]). }
      destruct (decide ((offset <= j < Nat.min (offset + step) (length buffer))%nat
                        /\ (j mod 4 = 3)%nat))
        as [[? ?]|Hm].
      { by rewrite decide_True by (split; [lia|done]). }
      destruct (decide ((offset <= j < length buffer)%nat /\ _)) as [[? ?]|]; [|done].
      destruct (decide (j < offset + step)%nat).
      * destruct Hm. split; [lia|done].
      * destruct Hn. split; [lia|done].
    + apply Nat.ltb_ge in Hlt.
      destruct (decide _) as [[? _]|]; [lia|done].
Qed.

(** [_enforceOpacity] ends by its own loop conditions: it sets every
    fourth byte, starting with the byte at index 3, to 255 and leaves the
    other bytes alone. *)
Lemma enforceOpacity_lookup width height p (buffer : list Z) (j : nat) :
  _enforceOpacity (new width height p) buffer !! j
  = if decide ((j < length buffer)%nat /\ (j mod 4 = 3)%nat) then Some 255
    else buffer !! j.
Proof.
  unfold _enforceOpacity.
  change (Z.to_nat (chunkSize (new width height p) * 4)) with (4 * 1024)%nat.
  rewrite opaque_chunks_lookup; [|lia|by rewrite Nat.mul_comm, Nat.Div0.mod_mul|done|lia].
  destruct (decide ((3 <= j < length buffer)%nat /\ _)) as [[? ?]|Hn].
  { by rewrite decide_True by (split; [lia|done]). }
  destruct (decide ((j < length buffer)%nat /\ _)) as [[? Hj]|]; [|done].
  destruct Hn. split; [|done].
  pose proof (Nat.div_mod_eq j 4). lia.
Qed.

Lemma enforceOpacity_length w (buffer : list Z) :
  length (_enforceOpacity w buffer) = length buffer.
Proof. apply opaque_chunks_length. Qed.

(** Claim C9. With compression enabled, [processFrame] on a frame of the
    expected size answers [compressed = true], while [_compressFrame]
    returns the bytes it is given: the payload has the length of the
    input, every colour byte of the input is in it at its place, and it
    is the input itself when [forceOpacity] is off. *)
Theorem compression_reported_but_identity width height p (bs : list Z) :
  enabled (compression p) = true ->
  _validateFrame (new width height p) (Some bs) = Ok tt ->
  _compressFrame (new width height p) bs = bs /\
  exists r, processFrame (new width height p) (Some bs) = Ok r /\
            compressed r = true /\
            length (processedFrame r) = length bs /\
            (forall j : nat, (j mod 4 <> 3)%nat -> processedFrame r !! j = bs !! j) /\
            (forceOpacity p = false -> processedFrame r = bs).
Proof.
  intros Hen Hvalid. split; [reflexivity|].
  unfold processFrame. rewrite Hvalid. simpl. rewrite Hen.
  eexists. split; [reflexivity|]. simpl. split; [done|].
  unfold _compressFrame.
  destruct (forceOpacity p); repeat split; try done.
  - apply enforceOpacity_length.
  - intros j Hj. rewrite enforceOpacity_lookup.
    destruct (decide _) as [[_ ?]|]; done.
Qed.

Lemma compression_reported_but_identity_witness :
  let p := mkProcessing "rgba" true (mkCompression true 80 "jpeg") in
  let bs := [10; 20; 30; 40; 50; 60; 70; 80] in
  enabled (compression p) = true /\
  _validateFrame (new 2 1 p) (Some bs) = Ok tt /\
  processFrame (new 2 1 p) (Some bs)
  = Ok (mkResult [10; 20; 30; 255; 50; 60; 70; 255] 2 1 "rgba" true) /\
  _compressFrame (new 2 1 p) bs = bs.
Proof.
  intros p bs.
  destruct (compression_reported_but_identity 2 1 p bs eq_refl eq_refl) as [Hid _].
  split; [reflexivity|]. split; [reflexivity|].
  split; [vm_compute; reflexivity | exact Hid].
Defined.

End ColorWorkerProperties.

(** ** Body worker *)

Section BodyWorkerProperties.
Import BodyWorker.

Lemma truthy_zero v : PrimFloat.is_zero v = true -> truthy v = false.
Proof. intros H. unfold truthy. by rewrite H. Qed.

Lemma calculateVelocity_zero current previous :
  Scenario.has_zero_coordinate current || Scenario.has_zero_coordinate previous = true ->
  _calculateVelocity current previous = Err "Invalid position data".
Proof.
  intros H. unfold Scenario.has_zero_coordinate in H.
  unfold _calculateVelocity.
  repeat (apply orb_true_iff in H; destruct H as [H|H]);
    apply truthy_zero in H; rewrite H; simpl;
    rewrite ?orb_true_r; reflexivity.
Qed.

Lemma smoothJoint_zero joint sm pos prev :
  position joint = Some pos ->
  previousPosition joint = Some prev ->
  Scenario.has_zero_coordinate (blend (correction sm) pos prev)
    || Scenario.has_zero_coordinate prev = true ->
  _smoothJoint joint sm = Err "Invalid position data".
Proof.
  intros Hpos Hprev Hz. unfold _smoothJoint. rewrite Hpos, Hprev.
  by rewrite (calculateVelocity_zero _ _ Hz).
Qed.

Lemma processJoints_throws cfg spine entries name joint e0 :
  In (name, joint) entries ->
  jointFilter (tracking cfg) joint = true ->
  _smoothJoint joint (smoothing cfg) = Err e0 ->
  exists e, processJoints cfg spine entries = Err e.
Proof.
  intros Hin Hf Hs. induction entries as [|[n j] rest IH]; [destruct Hin|].
  simpl. destruct Hin as [Heq|Hin].
  - injection Heq as -> ->. rewrite Hf, Hs. by eexists.
  - destruct (IH Hin) as [e He]. rewrite He.
    destruct (jointFilter (tracking cfg) j); [|by eexists].
    destruct (_smoothJoint j (smoothing cfg)) as [sj|e1]; [|by eexists].
    simpl.
    destruct (trackVelocity (metrics cfg)); simpl; [|by eexists].
    destruct (_detectMovement j _ spine); simpl; by eexists.
Qed.

Lemma processBody_throws cfg body entries name joint e0 :
  joints body = Some entries ->
  In (name, joint) entries ->
  jointFilter (tracking cfg) joint = true ->
  _smoothJoint joint (smoothing cfg) = Err e0 ->
  exists e, _processBody body cfg = Err e.
Proof.
  intros Hj Hin Hf Hs. unfold _processBody. rewrite Hj.
  destruct (processJoints_throws cfg (lookup_joint "1" entries ≫= position)
              entries name joint e0 Hin Hf Hs) as [e He].
  rewrite He. by eexists.
Qed.

Lemma processBodies_throws cfg bs body e0 :
  In body bs ->
  tracked body = true ->
  _processBody body cfg = Err e0 ->
  forall w, exists e, (processBodies cfg bs w).1 = Err e.
Proof.
  intros Hin Ht Hb. induction bs as [|b rest IH]; [destruct Hin|].
  intros w. simpl. destruct Hin as [->|Hin].
  - rewrite Ht, Hb. by eexists.
  - destruct (tracked b); [|by apply IH].
    destruct (_processBody b cfg) as [pb|e1]; [|by eexists].
    destruct (match (if trackVelocity (metrics cfg)
                     then _detectMovements pb (movement cfg) else []) with
              | [] => Ok tt
              | _ :: _ => parentPort_postMessage
              end) as [[]|e1]; [|by eexists].
    destruct (_detectGestures pb cfg w) as [gestures w1].
    destruct (match gestures with [] => Ok tt | _ :: _ => parentPort_postMessage end)
      as [[]|e1]; [|by eexists].
    destruct (IH Hin w1) as [e He].
    destruct (processBodies cfg rest w1) as [r w2]. simpl in *.
    rewrite He. by eexists.
Qed.

(** Claim C10. Take a joint with a position and a previous position such
    that some coordinate of the blended position or of the previous
    position equals 0.  The velocity computation on it throws "Invalid
    position data", and so does [_smoothJoint]; and whenever such a joint
    passes the joint filter of a tracked body in a frame, the worker
    replies to that frame with an error, not with processed bodies. *)
Theorem zero_coordinate_fails_body_frame
    cfg frame w bs body entries name joint pos prev :
  buffer frame = true ->
  bodies frame = Some bs ->
  In body bs ->
  tracked body = true ->
  joints body = Some entries ->
  In (name, joint) entries ->
  jointFilter (tracking cfg) joint = true ->
  position joint = Some pos ->
  previousPosition joint = Some prev ->
  Scenario.has_zero_coordinate (blend (correction (smoothing cfg)) pos prev)
    || Scenario.has_zero_coordinate prev = true ->
  _calculateVelocity (blend (correction (smoothing cfg)) pos prev) prev
    = Err "Invalid position data" /\
  _smoothJoint joint (smoothing cfg) = Err "Invalid position data" /\
  exists e, reply cfg frame w = BaseWorker.failed e.
Proof.
  intros Hbuf Hbs Hin Ht Hj Hjin Hf Hpos Hprev Hz.
  split; [by apply calculateVelocity_zero|].
  pose proof (smoothJoint_zero joint (smoothing cfg) pos prev Hpos Hprev Hz) as Hs.
  split; [exact Hs|].
  destruct (processBody_throws cfg body entries name joint _ Hj Hjin Hf Hs) as [e1 He1].
  destruct (processBodies_throws cfg bs body e1 Hin Ht He1 w) as [e He].
  exists e. unfold reply, BaseWorker.handleFrame, processFrame.
  rewrite Hbs, Hbuf. by rewrite He.
Qed.

Lemma zero_coordinate_fails_body_frame_witness :
  reply Scenario.body_config Scenario.centered_frame ∅
  = BaseWorker.failed "Invalid position data" /\
  _smoothJoint Scenario.centered_spine (smoothing Scenario.body_config)
  = Err "Invalid position data".
Proof.
  split; [vm_compute; reflexivity|].
  apply (zero_coordinate_fails_body_frame Scenario.body_config Scenario.centered_frame ∅
           [Scenario.centered_body] Scenario.centered_body
           [("1"%string, Scenario.centered_spine)] "1"%string Scenario.centered_spine
           (mkVec 0 0.3 2) (mkVec 0 0.31 2.01));
    try reflexivity; simpl; auto.
Defined.

End BodyWorkerProperties.

(** ** Sensor lifecycle *)

(** Claim C7, as stated, fails: a colour sensor that saw one worker error
    and was stopped starts again successfully with its restart counter
    still at 1. *)
Lemma start_resets_restart_counter_counterexample :
  let '(r, s, _) :=
    @BaseSensor.start ColorSensor.colorSensor 20 true Scenario.restarted_once in
  r = Ok tt /\ BaseSensor.isRunning s = true /\
  BaseSensor.workerRestartAttempts s = 1.
Proof. vm_compute. repeat split; reflexivity. Qed.

(** Claim C7, amended. [start()] leaves the worker restart counter as it
    found it, for every sensor class and whether or not the start
    succeeds; the counter is 0 only because the constructor sets it. *)
Theorem start_keeps_restart_counter `{BaseSensor.Subclass} now opened s :
  BaseSensor.workerRestartAttempts (BaseSensor.start now opened s).1.2
  = BaseSensor.workerRestartAttempts s
  /\ forall type maxRestarts frameTimeout,
       BaseSensor.workerRestartAttempts
         (BaseSensor.new now type maxRestarts frameTimeout) = 0.
Proof.
  split; [|reflexivity].
  unfold BaseSensor.start. destruct (BaseSensor.isRunning s); [reflexivity|].
  by destruct (BaseSensor._initializeReader opened).
Qed.

(** ** Multi-source synchroniser *)

Section MultiSourceReaderProperties.
Import MultiSourceReader.

Lemma max_of_delays now t0 ts :
  max_of (now - t0) (map (fun t => now - t) ts) = now - fold_left Z.min ts t0.
Proof.
  unfold max_of. revert t0. induction ts as [|t ts IH]; intros t0; simpl; [done|].
  replace (Z.max (now - t0) (now - t)) with (now - Z.min t0 t) by lia. apply IH.
Qed.

Lemma min_of_delays now t0 ts :
  min_of (now - t0) (map (fun t => now - t) ts) = now - fold_left Z.max ts t0.
Proof.
  unfold min_of. revert t0. induction ts as [|t ts IH]; intros t0; simpl; [done|].
  replace (Z.min (now - t0) (now - t)) with (now - Z.max t0 t) by lia. apply IH.
Qed.

(** The spread of the delays is the spread of the time stamps. *)
Lemma delays_spread now (b : list (string * Slot)) d ds :
  map (fun e => now - timestamp (snd e)) b = d :: ds ->
  max_of d ds - min_of d ds = Scenario.spread b.
Proof.
  destruct b as [|e b]; [discriminate|]. simpl. intros [= <- <-].
  unfold Scenario.spread. simpl.
  rewrite <- (map_map (fun e => timestamp (snd e)) (fun t => now - t)).
  rewrite max_of_delays, min_of_delays. lia.
Qed.

Lemma dropStale_no_sync entries now r :
  Forall (fun e => ~ Scenario.is_bundle e) (dropStaleFrames_loop entries now r).2.
Proof.
  revert r. induction entries as [|[k data] rest IH]; intros r; simpl; [constructor|].
  destruct (now - timestamp data >? dropFramesAfter r); [|apply IH].
  match goal with |- context [dropStaleFrames_loop rest now ?r1] =>
    specialize (IH r1); destruct (dropStaleFrames_loop rest now r1) as [r2 evs] end.
  simpl in *. constructor; [intros [] | exact IH].
Qed.

Lemma bufferFrame_no_sync k data now r :
  Forall (fun e => ~ Scenario.is_bundle e) (bufferFrame k data now r).2.
Proof.
  unfold bufferFrame, handleBufferOverflow.
  destruct (_ >=? _); simpl; repeat constructor. intros [].
Qed.

Lemma bufferFrame_config k data now r :
  let r' := (bufferFrame k data now r).1 in
  requiredFrameTypes r' = requiredFrameTypes r /\ syncWindow r' = syncWindow r.
Proof. unfold bufferFrame, handleBufferOverflow. by destruct (_ >=? _). Qed.

Lemma processFrameData_loop_spec types f now r :
  let res := processFrameData_loop types f now r in
  requiredFrameTypes res.1 = requiredFrameTypes r /\
  syncWindow res.1 = syncWindow r /\
  Forall (fun e => ~ Scenario.is_bundle e) res.2.
Proof.
  revert r. induction types as [|k rest IH]; intros r; simpl; [by repeat split|].
  destruct (f !! k) as [data|]; [|apply IH].
  pose proof (bufferFrame_no_sync k data now r) as Hev.
  pose proof (bufferFrame_config k data now r) as [Hreq Hwin].
  destruct (bufferFrame k data now r) as [r1 evs]. simpl in *.
  specialize (IH r1). destruct (processFrameData_loop rest f now r1) as [r2 evs'].
  simpl in *. destruct IH as (-> & -> & Hev').
  repeat split; try done. by apply Forall_app.
Qed.

Lemma complete_has r k :
  isFrameBufferComplete r = true -> In k (requiredFrameTypes r) ->
  map_has k (frameBuffer r) = true.
Proof.
  unfold isFrameBufferComplete. rewrite forallb_forall. auto.
Qed.

Lemma checkSynchronization_emits now r ts frames :
  requiredFrameTypes r <> [] ->
  In (synchronizedFrame ts frames) (checkSynchronization now r).2 ->
  (forall k, In k (requiredFrameTypes r) -> map_has k (frameBuffer r) = true) /\
  Scenario.spread (frameBuffer r) <= syncWindow r /\
  ts = now /\
  frames = map (fun e => (fst e, frame (snd e))) (frameBuffer r) /\
  frameBuffer (checkSynchronization now r).1 = [].
Proof.
  intros Hreq. unfold checkSynchronization.
  set (r0 := set_stats _ r).
  destruct (isFrameBufferComplete r0) eqn:Hc; simpl; [|intros []].
  pose proof (fun k => complete_has r0 k Hc) as Hhas. simpl in Hhas.
  destruct (map (fun e => now - timestamp (snd e)) (frameBuffer r)) as [|d ds] eqn:Hd.
  - apply map_eq_nil in Hd. simpl in Hd.
    destruct (requiredFrameTypes r) as [|k ks]; [done|].
    specialize (Hhas k (or_introl eq_refl)). by rewrite Hd in Hhas.
  - apply delays_spread in Hd. simpl in Hd.
    destruct (max_of d ds - min_of d ds <=? syncWindow r) eqn:Hw.
    + simpl. intros [[= <- <-]|[]]. apply Z.leb_le in Hw. simpl in Hw.
      repeat split; try done. lia.
    + destruct (max_of d ds >? dropFramesAfter r).
      * intros Hin. pose proof (dropStale_no_sync (frameBuffer r0) now r0) as Hno.
        rewrite Forall_forall in Hno. unfold dropStaleFrames in Hin.
        apply list_elem_of_In in Hin. by destruct (Hno _ Hin).
      * intros [].
Qed.

Lemma configureFrameTypes_keeps_required sensors required types :
  required <> [] -> (configureFrameTypes sensors required types).1 <> [].
Proof.
  revert required types. induction sensors as [|[key enabled] rest IH];
    intros required types Hne; simpl; [done|].
  destruct (frameTypeMap key); [|by apply IH]. destruct enabled; [|by apply IH].
  apply IH. case_bool_decide; [done|]. by destruct required.
Qed.

Lemma configureFrameTypes_no_flag sensors types :
  (configureFrameTypes sensors [] types).1 = [] ->
  (configureFrameTypes sensors [] types).2 = types.
Proof.
  revert types. induction sensors as [|[key enabled] rest IH]; intros types; simpl; [done|].
  destruct (frameTypeMap key) as [flag|]; [|apply IH].
  destruct enabled; [|apply IH].
  intros Hnil. exfalso. revert Hnil. by apply configureFrameTypes_keeps_required.
Qed.

(** The constructor only builds readers that require some kind. *)
Lemma new_required_nonempty frameSync sensors r :
  new frameSync sensors = Ok r -> requiredFrameTypes r <> [].
Proof.
  unfold new.
  pose proof (configureFrameTypes_no_flag sensors 0) as H.
  destruct (configureFrameTypes sensors [] 0) as [required types]. simpl in H.
  destruct (types =? 0) eqn:Ht; [done|]. intros [= <-]. simpl.
  intros Hnil. apply Z.eqb_neq in Ht. by apply Ht, H.
Qed.

(** While a required kind is missing, the check does nothing but count
    the attempt: nothing is dropped and nothing is emitted. *)
Lemma incomplete_buffer_is_not_swept now r :
  isFrameBufferComplete r = false ->
  let '(r', evs) := checkSynchronization now r in
  frameBuffer r' = frameBuffer r /\
  droppedFrames (stats r') = droppedFrames (stats r) /\
  evs = [].
Proof.
  intros H. unfold checkSynchronization.
  replace (isFrameBufferComplete (set_stats _ r)) with false by done.
  done.
Qed.

(** Claim C5. If handling a driver frame at time [now] emits a
    synchronised bundle, then after the frame's streams were stored every
    required kind had a slot, the spread [max_ts - min_ts] of the buffered
    time stamps was at most [syncWindow], the bundle carries exactly the
    buffered frames with time stamp [now], and the slots are empty
    afterwards. *)
Theorem synchronized_only_when_complete_and_within_window
    now driverFrame r ts frames :
  requiredFrameTypes r <> [] ->
  In (synchronizedFrame ts frames) (handleMultiSourceFrame now driverFrame r).2 ->
  exists f, driverFrame = Some f /\
    let buffered := frameBuffer (processFrameData f now r).1 in
    (forall k, In k (requiredFrameTypes r) -> map_has k buffered = true) /\
    Scenario.spread buffered <= syncWindow r /\
    ts = now /\
    frames = map (fun e => (fst e, frame (snd e))) buffered /\
    frameBuffer (handleMultiSourceFrame now driverFrame r).1 = [].
Proof.
  intros Hreq. unfold handleMultiSourceFrame.
  destruct driverFrame as [f|]; [|intros []].
  destruct (running r); [|intros []].
  intros Hin. exists f. split; [done|]. revert Hin.
  pose proof (processFrameData_loop_spec (requiredFrameTypes r) f now r)
    as (Hr & Hw & Hev).
  fold (processFrameData f now r) in Hr, Hw, Hev.
  destruct (processFrameData f now r) as [r1 evs]. simpl in *.
  pose proof (checkSynchronization_emits now r1 ts frames) as Hcheck.
  destruct (checkSynchronization now r1) as [r2 evs']. simpl in *.
  intros Hin. apply in_app_or in Hin. destruct Hin as [Hin|Hin].
  - rewrite Forall_forall in Hev. apply list_elem_of_In in Hin.
    by destruct (Hev _ Hin).
  - rewrite Hr, Hw in Hcheck. by apply Hcheck.
Qed.

Example reader_constructed :
  match new (mkFrameSync (Some 33) (Some 100) (Some 66) (Some 5))
            [("depth", true); ("color", true); ("body", true)]%string with
  | Ok r => start true r = (Ok tt, Scenario.reader, [started])
  | Err _ => False
  end.
Proof. vm_compute. reflexivity. Qed.

Lemma synchronized_only_when_complete_and_within_window_witness :
  let r1 := (handleMultiSourceFrame 1000 (Scenario.only "depth" 1) Scenario.reader).1 in
  let r2 := (handleMultiSourceFrame 1010 (Scenario.only "color" 2) r1).1 in
  let f := {["body"%string := 3%nat]} in
  requiredFrameTypes r2 <> [] /\
  (handleMultiSourceFrame 1020 (Some f) r2).2
    = [synchronizedFrame 1020 [("depth", 1); ("color", 2); ("body", 3)]%nat]%string /\
  Scenario.spread (frameBuffer (processFrameData f 1020 r2).1) <= syncWindow r2 /\
  frameBuffer (handleMultiSourceFrame 1020 (Some f) r2).1 = [].
Proof.
  intros r1 r2 f.
  assert (Hreq : requiredFrameTypes r2 <> []) by (vm_compute; discriminate).
  assert (Hev : (handleMultiSourceFrame 1020 (Some f) r2).2
        = [synchronizedFrame 1020 [("depth", 1); ("color", 2); ("body", 3)]%nat]%string)
    by (vm_compute; reflexivity).
  destruct (synchronized_only_when_complete_and_within_window
              1020 (Some f) r2 1020
              [("depth", 1); ("color", 2); ("body", 3)]%nat%string Hreq)
    as (f' & [= <-] & _ & Hs & _ & _ & Hb).
  { rewrite Hev. by left. }
  repeat split; try done.
Defined.

(** Claim C6. With depth, colour and body required and [dropAfter = 66], a
    depth frame at time 0 followed by a colour frame at time 67 emits no
    bundle, yet the depth slot, now 67 ms old, stays buffered: nothing is
    dropped, counted or reported while some required kind is missing. *)
Theorem stale_slot_kept_while_incomplete :
  let r1 := (handleMultiSourceFrame 0 (Scenario.only "depth" 1) Scenario.reader).1 in
  let '(r2, evs) := handleMultiSourceFrame 67 (Scenario.only "color" 2) r1 in
  requiredFrameTypes r2 = ["depth"; "color"; "body"]%string /\
  dropFramesAfter r2 = 66 /\
  evs = [] /\
  frameBuffer r2 = [("depth", mkSlot 1 0); ("color", mkSlot 2 67)]%string /\
  droppedFrames (stats r2) = 0.
Proof. vm_compute. repeat split; reflexivity. Qed.

End MultiSourceReaderProperties.

(** ** WebSocket identification *)

Section WebSocketServiceProperties.
Import WebSocketService.

(** Claim C4, as stated, fails: a [startSensor] message on a pending
    socket leaves it open with no close frame, and a later [identify] on
    the same socket is answered with [welcome]. *)
Lemma non_identify_closes_with_1002_counterexample :
  let '(svc1, _) := handleMessage "T" 0 Scenario.start_sensor "client-a" Scenario.pending in
  let '(svc2, _) := handleMessage "T" 0 Scenario.identify "client-a" svc1 in
  (closed <$> sockets svc1 !! 0%nat) = Some None /\
  (readyState <$> sockets svc1 !! 0%nat) = Some OPEN /\
  (sent <$> sockets svc2 !! 0%nat)
  = Some [Scenario.identify_request;
          Scenario.error_reply "Client not identified"; Scenario.welcome].
Proof. vm_compute. repeat split; reflexivity. Qed.

(** Claim C4, amended. On an open socket that has not identified, a
    parseable message whose type is not [identify] is answered with the
    error message "Client not identified" and logged; nothing else
    changes: no close frame is sent, no [welcome] is sent, the
    identification timer stays as it was, the client set is the same and
    no [message] event is emitted. *)
Theorem non_identify_before_identification now ws raw clientId svc s data :
  sockets svc !! ws = Some s ->
  clientInfo s = None ->
  readyState s = OPEN ->
  parseMessage raw = Ok data ->
  is_string "identify" (field "type" data) = false ->
  handleMessage now ws raw clientId svc
  = (mkService (sessionId svc)
       (<[ws := mkSocket OPEN None
                  (sent s ++ [Scenario.error_reply "Client not identified"])
                  (closed s) (identificationTimeout s)]> (sockets svc))
       (clients svc),
     [log "error" ("Message error from client " +:+ clientId
                     +:+ ": Client not identified")]).
Proof.
  intros Hs Hinfo Hopen Hparse Hid. unfold handleMessage.
  rewrite Hs, Hparse. simpl. rewrite Hid, Hinfo.
  unfold set_socket, send. by rewrite Hopen, Hinfo.
Qed.

Lemma non_identify_before_identification_witness :
  sockets Scenario.pending !! 0%nat
  = Some (mkSocket OPEN None [Scenario.identify_request] None true) /\
  handleMessage "T" 0 Scenario.start_sensor "client-a" Scenario.pending
  = (mkService "session-x"
       (<[0%nat := mkSocket OPEN None
            [Scenario.identify_request; Scenario.error_reply "Client not identified"]
            None true]> (sockets Scenario.pending))
       ∅,
     [log "error" "Message error from client client-a: Client not identified"]).
Proof.
  assert (Hs : sockets Scenario.pending !! 0%nat
    = Some (mkSocket OPEN None [Scenario.identify_request] None true))
    by (vm_compute; reflexivity).
  split; [exact Hs|].
  exact (non_identify_before_identification "T" 0%nat Scenario.start_sensor "client-a"
           Scenario.pending _
           [("type", JStr "startSensor"); ("sensorType", JStr "depth")]%string
           Hs eq_refl eq_refl eq_refl eq_refl).
Defined.

(** The close with code 1002 comes from the identification timer, which
    a rejected message leaves pending. *)
Lemma identification_timeout_closes_1002 ws clientId svc s :
  sockets svc !! ws = Some s ->
  identificationTimeout s = true ->
  readyState s = OPEN ->
  (closed <$> sockets (onIdentificationTimeout ws clientId svc).1 !! ws)
  = Some (Some (1002, "Client identification timeout"%string)).
Proof.
  intros Hs Ht Hopen. unfold onIdentificationTimeout. rewrite Hs, Ht. simpl.
  rewrite lookup_insert_eq. unfold closeConnection, clearTimeout. simpl.
  by rewrite Hopen.
Qed.

End WebSocketServiceProperties.

(** * Further properties *)

#[local] Set Warnings "-clear-no-such-hyp".

Section BufferPoolMore.
Import BufferPool.

Lemma allocate_spec n pool s next :
  allocate n pool s next
  = (mkPool (buffers pool ++ seq next n) (inUse pool) (lastAccessed pool),
     mkStats (hits s) (misses s) (created s + Z.of_nat n) (released s)
             (poolSize s + Z.of_nat n) (maxUsed s) (lastResized s),
     (next + n)%nat).
Proof.
  revert pool s next. induction n as [|n IH]; intros pool s next.
  - simpl. rewrite app_nil_r, !Z.add_0_r, Nat.add_0_r. by destruct pool, s.
  - simpl allocate. rewrite IH.
    cbn [buffers inUse lastAccessed hits misses created released poolSize maxUsed
         lastResized].
    rewrite <- app_assoc, Nat2Z.inj_succ. cbn [seq app].
    f_equal; [f_equal|lia]. f_equal; lia.
Qed.

(** The three ways [acquire] can go. *)
Lemma acquire_hit now type p pool b :
  pools p !! type = Some pool ->
  last (buffers pool) = Some b ->
  acquire now type p
  = (Ok (Some b),
     mkState (<[type := mkPool (removelast (buffers pool)) ({[b]} ∪ inUse pool) now]>
                (pools p))
             (config p) (maxPoolSize p) (initialSize p) (expandSize p)
             (mkStats (hits (stats p) + 1) (misses (stats p)) (created (stats p))
                      (released (stats p)) (poolSize (stats p))
                      (Z.max (maxUsed (stats p)) (size ({[b]} ∪ inUse pool)))
                      (lastResized (stats p)))
             (nextBuffer p),
     []).
Proof.
  intros Hp Hl. unfold acquire, getBufferFromPool. rewrite Hp. simpl. by rewrite Hl.
Qed.

Lemma acquire_exhausted now type p pool :
  pools p !! type = Some pool ->
  buffers pool = [] ->
  maxPoolSize p <= poolSize (stats p) ->
  acquire now type p
  = (Ok None,
     mkState (<[type := mkPool [] (inUse pool) now]> (pools p))
             (config p) (maxPoolSize p) (initialSize p) (expandSize p)
             (stats p) (nextBuffer p),
     [poolExhausted type (poolSize (stats p)) (size (inUse pool)) now]).
Proof.
  intros Hp Hl Hfull. unfold acquire, getBufferFromPool, expandPoolAndGetBuffer.
  rewrite Hp. simpl. rewrite Hl. simpl.
  replace (poolSize (stats p) >=? maxPoolSize p) with true
    by (symmetry; apply Z.geb_le; lia).
  by destruct p as [? ? ? ? ? [] ?].
Qed.

Lemma acquire_expand now type p pool :
  pools p !! type = Some pool ->
  buffers pool = [] ->
  poolSize (stats p) < maxPoolSize p ->
  let n := Z.to_nat (Z.min (expandSize p - 1) (maxPoolSize p - (poolSize (stats p) + 1))) in
  acquire now type p
  = (Ok (Some (nextBuffer p)),
     mkState (<[type := mkPool (seq (S (nextBuffer p)) n)
                               ({[nextBuffer p]} ∪ inUse pool) now]> (pools p))
             (config p) (maxPoolSize p) (initialSize p) (expandSize p)
             (mkStats (hits (stats p)) (misses (stats p) + 1)
                      (created (stats p) + 1 + Z.of_nat n)
                      (released (stats p)) (poolSize (stats p) + 1 + Z.of_nat n)
                      (Z.max (maxUsed (stats p)) (size ({[nextBuffer p]} ∪ inUse pool)))
                      (lastResized (stats p)))
             (S (nextBuffer p) + n)%nat,
     []).
Proof.
  intros Hp Hl Hroom n. unfold acquire, getBufferFromPool, expandPoolAndGetBuffer.
  rewrite Hp. simpl. rewrite Hl. simpl.
  replace (poolSize (stats p) >=? maxPoolSize p) with false
    by (symmetry; rewrite Z.geb_leb; apply Z.leb_gt; lia).
  rewrite allocate_spec. simpl. reflexivity.
Qed.

Lemma release_ok now type p pool b :
  pools p !! type = Some pool ->
  b ∈ inUse pool ->
  release now type (Some b) p
  = (Ok tt,
     mkState (<[type := mkPool (buffers pool ++ [b]) (inUse pool ∖ {[b]})
                               (lastAccessed pool)]> (pools p))
             (config p) (maxPoolSize p) (initialSize p) (expandSize p)
             (mkStats (hits (stats p)) (misses (stats p)) (created (stats p))
                      (released (stats p) + 1) (poolSize (stats p))
                      (maxUsed (stats p)) (lastResized (stats p)))
             (nextBuffer p),
     [bufferReleased type (len (buffers pool ++ [b])) (size (inUse pool ∖ {[b]})) now]).
Proof.
  intros Hp Hb. unfold release, release_view. rewrite Hp. by rewrite bool_decide_true.
Qed.

End BufferPoolMore.

Section BufferPoolInvariant.
Import BufferPool Invariant.

Lemma wf_update p k pool' st' next' :
  pool_wf p ->
  NoDup (buffers pool') ->
  (forall b, b ∈ buffers pool' -> b ∉ inUse pool') ->
  (nextBuffer p <= next')%nat ->
  (forall b, b ∈ ids pool' ->
     (exists pool, pools p !! k = Some pool /\ b ∈ ids pool)
     \/ (nextBuffer p <= b < next')%nat) ->
  pool_wf (mkState (<[k := pool']> (pools p)) (config p) (maxPoolSize p)
                   (initialSize p) (expandSize p) st' next').
Proof.
  intros [Hnd Hfree Hfresh Hapart] Hnd' Hfree' Hnext Hids.
  split; simpl.
  - intros k0 pool0. rewrite lookup_insert. case_decide; [by intros [= <-]|]. apply Hnd.
  - intros k0 pool0 b. rewrite lookup_insert.
    case_decide; [by intros [= <-]; apply Hfree'|]. apply Hfree.
  - intros k0 pool0 b. rewrite lookup_insert. case_decide.
    + intros [= <-] Hb. destruct (Hids b Hb) as [(pool & Hp & Hin)|?]; [|lia].
      specialize (Hfresh _ _ _ Hp Hin). lia.
    + intros Hp Hb. specialize (Hfresh _ _ _ Hp Hb). lia.
  - intros k1 k2 pool1 pool2 Hne. rewrite !lookup_insert.
    repeat case_decide; subst; try done.
    + intros [= <-] Hp2 b Hb1 Hb2.
      destruct (Hids b Hb1) as [(pool & Hp & Hin)|?].
      * by apply (Hapart _ _ pool pool2 Hne Hp Hp2 b).
      * specialize (Hfresh _ _ _ Hp2 Hb2). lia.
    + intros Hp1 [= <-] b Hb1 Hb2.
      destruct (Hids b Hb2) as [(pool & Hp & Hin)|?].
      * by apply (Hapart _ _ pool1 pool Hne Hp1 Hp b).
      * specialize (Hfresh _ _ _ Hp1 Hb1). lia.
    + by apply Hapart.
Qed.

Lemma acquire_wf now type p :
  pool_wf p -> pool_wf (acquire now type p).1.2.
Proof.
  intros Hwf. destruct (pools p !! type) as [pool|] eqn:Hp.
  2:{ unfold acquire. by rewrite Hp. }
  destruct (last (buffers pool)) as [b|] eqn:Hl.
  - rewrite (acquire_hit _ _ _ _ _ Hp Hl). simpl.
    apply last_Some in Hl as [l' Hl]. rewrite Hl, removelast_last.
    pose proof (wf_nodup _ Hwf _ _ Hp) as Hnd. rewrite Hl in Hnd.
    apply NoDup_app in Hnd as (Hnd & Hnb & _).
    apply wf_update; try done.
    + intros x Hx. pose proof (wf_free _ Hwf _ _ x Hp) as Hf. rewrite Hl in Hf.
      specialize (Hnb x Hx). set_solver.
    + intros x Hx. left. exists pool. split; [done|].
      unfold ids in *. simpl in Hx. rewrite Hl. set_solver.
  - apply last_None in Hl.
    destruct (Z_lt_le_dec (poolSize (stats p)) (maxPoolSize p)) as [Hroom|Hfull].
    + rewrite (acquire_expand _ _ _ _ Hp Hl Hroom). simpl.
      apply wf_update; try done.
      * apply NoDup_seq.
      * intros x Hx. apply elem_of_seq in Hx.
        intros [Hx'|Hx']%elem_of_union; [apply elem_of_singleton in Hx'; lia|].
        pose proof (wf_fresh _ Hwf _ _ x Hp) as Hf. unfold ids in Hf.
        assert (x < nextBuffer p)%nat by (apply Hf; set_solver). lia.
      * lia.
      * intros x Hx. unfold ids in Hx. simpl in Hx.
        apply elem_of_union in Hx as [Hx|Hx].
        -- right. apply elem_of_list_to_set, elem_of_seq in Hx. lia.
        -- apply elem_of_union in Hx as [Hx|Hx].
           ++ right. apply elem_of_singleton in Hx. lia.
           ++ left. exists pool. split; [done|]. unfold ids. set_solver.
    + rewrite (acquire_exhausted _ _ _ _ Hp Hl Hfull). simpl.
      apply wf_update; try done.
      * apply NoDup_nil_2.
      * intros x Hx. by apply elem_of_nil in Hx.
      * intros x Hx. left. exists pool. split; [done|]. unfold ids in *. simpl in Hx.
        set_solver.
Qed.

Lemma release_wf now type b p :
  pool_wf p -> pool_wf (release now type b p).1.2.
Proof.
  intros Hwf. destruct (pools p !! type) as [pool|] eqn:Hp.
  2:{ by rewrite release_unknown_type. }
  destruct b as [b|]; [|by rewrite (release_null_buffer _ _ _ _ Hp)].
  destruct (decide (b ∈ inUse pool)) as [Hb|Hb].
  2:{ unfold release, release_view. rewrite Hp. by rewrite bool_decide_false. }
  rewrite (release_ok _ _ _ _ _ Hp Hb). simpl.
  apply wf_update; try done.
  - apply NoDup_app. split; [by eapply wf_nodup|]. split; [|apply NoDup_singleton].
    intros x Hx Hx'. apply list_elem_of_singleton in Hx' as ->.
    by apply (wf_free _ Hwf _ _ b Hp).
  - intros x Hx. apply elem_of_app in Hx as [Hx|Hx].
    + pose proof (wf_free _ Hwf _ _ x Hp Hx). set_solver.
    + apply list_elem_of_singleton in Hx as ->. set_solver.
  - intros x Hx. left. exists pool. split; [done|]. unfold ids in *. simpl in Hx.
    rewrite list_to_set_app_L in Hx. set_solver.
Qed.

End BufferPoolInvariant.

Section BufferPoolInit.
Import BufferPool Invariant.


Lemma init_step_wf now p type : pool_wf p -> pool_wf (init_step now p type).
Proof.
  intros Hwf. unfold init_step. rewrite allocate_spec. simpl.
  apply wf_update; simpl; try done.
  - apply NoDup_seq.
  - lia.
  - intros b Hb. right. unfold ids in Hb. simpl in Hb.
    rewrite union_empty_r_L in Hb. apply elem_of_list_to_set, elem_of_seq in Hb. lia.
Qed.

Lemma initializePools_wf now p : pool_wf p -> pool_wf (initializePools now p).
Proof.
  unfold initializePools. change (fun p0 type => _) with (init_step now).
  generalize BUFFER_CONFIGS. intros l. revert p.
  induction l as [|k l IH]; intros p Hwf; simpl; [done|].
  apply IH. by apply init_step_wf.
Qed.

Lemma empty_wf c m i e s n : pool_wf (mkState ∅ c m i e s n).
Proof. split; simpl; intros *; try intros ?; by rewrite ?lookup_empty. Qed.

Lemma new_wf now o p : new now o = Ok p -> pool_wf p.
Proof.
  unfold new. case_match; [done|]. intros [= <-].
  apply initializePools_wf, empty_wf.
Qed.

Lemma set_stats_wf s p : pool_wf p -> pool_wf (set_stats s p).
Proof. by intros []. Qed.

Lemma clear_loop_wf l p : pool_wf p -> pool_wf (clear_loop l p).2.
Proof.
  revert p. induction l as [|k l IH]; intros p Hwf; simpl; [done|].
  destruct (pools p !! k) as [pool|] eqn:Hp; [|by apply IH].
  case_match; [done|]. apply IH.
  apply wf_update; simpl; try done; try apply NoDup_nil_2.
Qed.

Lemma clear_wf now p : pool_wf p -> pool_wf (clear now p).2.
Proof.
  intros Hwf. unfold clear. pose proof (clear_loop_wf BUFFER_CONFIGS p Hwf) as H.
  destruct (clear_loop BUFFER_CONFIGS p) as [[[]|e] p1]; simpl in *; [|done].
  by apply initializePools_wf, set_stats_wf.
Qed.


Lemma shrinkPool_spec fuel maxPoolSize pool poolSize :
  (length (buffers pool) <= fuel)%nat ->
  shrinkPool fuel maxPoolSize pool poolSize
  = (mkPool (take (kept maxPoolSize pool) (buffers pool)) (inUse pool) (lastAccessed pool),
     poolSize - (len (buffers pool) - Z.of_nat (kept maxPoolSize pool))).
Proof.
  revert pool poolSize. induction fuel as [|fuel IH]; intros [bs iu la] ps Hf;
    unfold kept, len in *; simpl in *.
  - destruct bs; simpl in *; [|lia]. rewrite take_nil. f_equal. lia.
  - unfold len.
    destruct (Z.gtb_spec (Z.of_nat (length bs) + size iu) maxPoolSize) as [Hgt|Hle];
      destruct (Z.gtb_spec (Z.of_nat (length bs)) 0) as [Hpos|Hz]; simpl.
    + rewrite removelast_firstn_len.
      assert (length (firstn (Init.Nat.pred (length bs)) bs) = (length bs - 1)%nat) as Hlen
        by (rewrite length_firstn; lia).
      rewrite IH by (simpl; lia). simpl. rewrite Hlen.
      replace (Z.min (Z.of_nat (length bs - 1)) (Z.max 0 (maxPoolSize - size iu)))
        with (Z.min (Z.of_nat (length bs)) (Z.max 0 (maxPoolSize - size iu))) by lia.
      set (m := Z.to_nat _).
      assert (m <= length bs - 1)%nat by (subst m; lia).
      f_equal; try lia. f_equal.
      change (firstn (Init.Nat.pred (length bs)) bs) with (take (Init.Nat.pred (length bs)) bs).
      rewrite take_take. f_equal. lia.
    + assert (length bs = 0)%nat as Hl by lia. destruct bs; [|simpl in Hl; lia].
      rewrite take_nil. f_equal. simpl. lia.
    + rewrite take_ge by lia. f_equal. lia.
    + rewrite take_ge by lia. f_equal. lia.
Qed.

End BufferPoolInit.

Section Sums.
Import BufferPool Invariant.



Lemma msum_empty f : msum f ∅ = 0.
Proof. unfold msum. by rewrite map_fold_empty. Qed.

Lemma msum_insert f m k x :
  m !! k = None -> msum f (<[k := x]> m) = msum f m + f x.
Proof.
  intros H. unfold msum. rewrite map_fold_insert_L; [done| |done].
  intros. lia.
Qed.

Lemma msum_replace f m k x x' :
  m !! k = Some x -> msum f (<[k := x']> m) = msum f m - f x + f x'.
Proof.
  intros H. rewrite <- (insert_id m k x) at 2 by done.
  rewrite <- (insert_delete_eq m k x'), <- (insert_delete_eq m k x).
  rewrite !msum_insert by apply lookup_delete_eq. lia.
Qed.

Lemma msum_fold g f m :
  (forall k x acc, g k x acc = acc + f x) ->
  map_fold g 0 m = msum f m.
Proof.
  intros Hg. apply (map_fold_weak_ind (fun r m => r = msum f m)).
  - by rewrite msum_empty.
  - intros i x m0 r Hi ->. by rewrite Hg, msum_insert.
Qed.

Lemma msum_fmap f h m : msum f (h <$> m) = msum (f ∘ h) m.
Proof.
  induction m as [|k x m Hk IH] using map_ind.
  - by rewrite fmap_empty, !msum_empty.
  - rewrite fmap_insert, !msum_insert, IH; [done..|].
    by rewrite lookup_fmap, Hk.
Qed.

Lemma msum_sub f d m : msum (fun x => f x - d x) m = msum f m - msum d m.
Proof.
  induction m as [|k x m Hk IH] using map_ind.
  - by rewrite !msum_empty.
  - rewrite !msum_insert, IH by done. lia.
Qed.

Lemma msum_ext f g m :
  (forall k x, m !! k = Some x -> f x = g x) -> msum f m = msum g m.
Proof.
  induction m as [|k x m Hk IH] using map_ind; intros H.
  - by rewrite !msum_empty.
  - rewrite !msum_insert by done. rewrite IH.
    + f_equal. apply (H k). by rewrite lookup_insert_eq.
    + intros k' x' Hx'. apply (H k'). rewrite lookup_insert_ne; [done|]. congruence.
Qed.

Lemma msum_nonneg f m : (forall x, 0 <= f x) -> 0 <= msum f m.
Proof.
  intros Hf. induction m as [|k x m Hk IH] using map_ind.
  - by rewrite msum_empty.
  - rewrite msum_insert by done. specialize (Hf x). lia.
Qed.

Lemma msum_lookup_le f m k x :
  (forall x, 0 <= f x) -> m !! k = Some x -> f x <= msum f m.
Proof.
  intros Hf H. rewrite <- (insert_id m k x), <- insert_delete_eq by done.
  rewrite msum_insert by apply lookup_delete_eq.
  pose proof (msum_nonneg f (delete k m) Hf). lia.
Qed.

Lemma totalBuffers_msum p : totalBuffers p = msum cnt (pools p).
Proof. apply msum_fold. intros. unfold cnt. lia. Qed.

Lemma totalInUse_msum p : totalInUse p = msum used (pools p).
Proof. apply msum_fold. intros. done. Qed.



Lemma shrinkPools_spec p :
  shrinkPools p
  = mkState (shrunk (maxPoolSize p) <$> pools p) (config p) (maxPoolSize p)
            (initialSize p) (expandSize p)
            (mkStats (hits (stats p)) (misses (stats p)) (created (stats p))
                     (released (stats p))
                     (poolSize (stats p) - msum (dropped (maxPoolSize p)) (pools p))
                     (maxUsed (stats p)) (lastResized (stats p)))
            (nextBuffer p).
Proof.
  unfold shrinkPools.
  set (f := fun (type : string) (pool : Pool) '(acc, poolSize) => _).
  assert (forall m0 ps0 m,
    map_fold f (m0, ps0) m
    = ((shrunk (maxPoolSize p) <$> m) ∪ m0, ps0 - msum (dropped (maxPoolSize p)) m)) as H.
  { intros m0 ps0 m.
    apply (map_fold_weak_ind (fun r m =>
      r = ((shrunk (maxPoolSize p) <$> m) ∪ m0, ps0 - msum (dropped (maxPoolSize p)) m))).
    - rewrite fmap_empty, msum_empty. f_equal; [by rewrite (left_id_L ∅ (∪))|lia].
    - intros i x m1 r Hi ->. unfold f. rewrite shrinkPool_spec by done.
      rewrite fmap_insert, msum_insert by done.
      f_equal; [|unfold dropped; lia].
      by rewrite insert_union_l. }
  rewrite H. f_equal.
  apply map_eq. intros k. rewrite lookup_union, lookup_fmap.
  by destruct (pools p !! k).
Qed.

End Sums.

Section Counted.
Import BufferPool Invariant.


Lemma size_add (b : buffer) (s : gset buffer) : b ∉ s -> size ({[b]} ∪ s) = size s + 1.
Proof.
  intros H. unfold size. rewrite size_union by set_solver. rewrite size_singleton. lia.
Qed.

Lemma size_remove (b : buffer) (s : gset buffer) : b ∈ s -> size (s ∖ {[b]}) = size s - 1.
Proof.
  intros H. unfold size.
  assert (base.size s = base.size (s ∖ {[b]}) + 1)%nat.
  { rewrite (union_difference_L {[b]} s) at 1 by set_solver.
    rewrite size_union by set_solver. rewrite size_singleton. lia. }
  lia.
Qed.

Lemma counted_update p k pool pool' s' next' d :
  pools p !! k = Some pool ->
  counted p ->
  cnt pool' = cnt pool + d ->
  poolSize s' = poolSize (stats p) + d ->
  counted (mkState (<[k := pool']> (pools p)) (config p) (maxPoolSize p)
                   (initialSize p) (expandSize p) s' next').
Proof.
  unfold counted. rewrite !totalBuffers_msum. simpl. intros Hp Hc Hcnt Hs.
  rewrite (msum_replace _ _ _ _ _ Hp). lia.
Qed.

Lemma acquire_counted now type p :
  pool_wf p -> counted p -> counted (acquire now type p).1.2.
Proof.
  intros Hwf Hc. destruct (pools p !! type) as [pool|] eqn:Hp.
  2:{ unfold acquire. by rewrite Hp. }
  destruct (last (buffers pool)) as [b|] eqn:Hl.
  - rewrite (acquire_hit _ _ _ _ _ Hp Hl). simpl.
    apply (counted_update _ _ pool _ _ _ 0); try done; simpl; [|lia].
    apply last_Some in Hl as [l' Hl].
    assert (b ∉ inUse pool).
    { apply (wf_free _ Hwf _ _ b Hp). rewrite Hl. set_solver. }
    unfold cnt, len. simpl. rewrite Hl, removelast_last, size_add, length_app by done.
    simpl. lia.
  - apply last_None in Hl.
    destruct (Z_lt_le_dec (poolSize (stats p)) (maxPoolSize p)) as [Hroom|Hfull].
    + rewrite (acquire_expand _ _ _ _ Hp Hl Hroom). simpl.
      set (n := Z.to_nat _).
      apply (counted_update _ _ pool _ _ _ (1 + Z.of_nat n)); try done; simpl; [|lia].
      assert (nextBuffer p ∉ inUse pool).
      { intros Hin. pose proof (wf_fresh _ Hwf _ _ (nextBuffer p) Hp) as Hf.
        unfold ids in Hf. assert (nextBuffer p < nextBuffer p)%nat; [|lia].
        apply Hf. set_solver. }
      unfold cnt, len. simpl. rewrite Hl, size_add, length_seq by done. simpl. lia.
    + rewrite (acquire_exhausted _ _ _ _ Hp Hl Hfull). simpl.
      apply (counted_update _ _ pool _ _ _ 0); try done; simpl; [|lia].
      unfold cnt. simpl. rewrite Hl. lia.
Qed.

Lemma release_counted now type b p :
  pool_wf p -> counted p -> counted (release now type b p).1.2.
Proof.
  intros Hwf Hc. destruct (pools p !! type) as [pool|] eqn:Hp.
  2:{ by rewrite release_unknown_type. }
  destruct b as [b|]; [|by rewrite (release_null_buffer _ _ _ _ Hp)].
  destruct (decide (b ∈ inUse pool)) as [Hb|Hb].
  2:{ unfold release, release_view. rewrite Hp. by rewrite bool_decide_false. }
  rewrite (release_ok _ _ _ _ _ Hp Hb). simpl.
  apply (counted_update _ _ pool _ _ _ 0); try done; simpl; [|lia].
  unfold cnt, len. simpl. rewrite length_app, size_remove by done. simpl. lia.
Qed.

Lemma kept_le maxPoolSize pool : (kept maxPoolSize pool <= length (buffers pool))%nat.
Proof. unfold kept, len. lia. Qed.

Lemma shrinkPools_counted p : counted p -> counted (shrinkPools p).
Proof.
  unfold counted. rewrite shrinkPools_spec, !totalBuffers_msum. simpl. intros ->.
  rewrite msum_fmap, <- msum_sub. apply msum_ext. intros k pool _.
  unfold compose, cnt, dropped, shrunk, len. simpl.
  pose proof (kept_le (maxPoolSize p) pool). rewrite length_take. lia.
Qed.

Lemma resize_counted now newSize p : counted p -> counted (resize now newSize p).1.2.
Proof.
  intros Hc. unfold resize. repeat case_match; simpl; try done.
  unfold counted, set_stats. simpl.
  apply (shrinkPools_counted
           (mkState (pools p) (config p) newSize (initialSize p) (expandSize p)
                    (stats p) (nextBuffer p))).
  exact Hc.
Qed.

(** Filling in the kinds of [l] one after the other. *)
Lemma init_counted now l p :
  NoDup l ->
  counted p ->
  (forall k pool, k ∈ l -> pools p !! k = Some pool -> cnt pool = 0) ->
  counted (fold_left (init_step now) l p).
Proof.
  revert p. induction l as [|k l IH]; intros p Hnd Hc Hempty; simpl; [done|].
  apply NoDup_cons in Hnd as [Hk Hnd].
  assert (counted (init_step now p k)) as Hc'.
  { unfold init_step. rewrite allocate_spec. simpl.
    unfold counted in *. rewrite totalBuffers_msum in *. simpl.
    destruct (pools p !! k) as [pool|] eqn:Hp.
    - rewrite (msum_replace _ _ _ _ _ Hp), (Hempty k pool) by set_solver.
      rewrite <- Hc.
      unfold cnt, len. simpl. rewrite length_seq. unfold size. rewrite size_empty. lia.
    - rewrite msum_insert by done. rewrite <- Hc.
      unfold cnt, len. simpl. rewrite length_seq. unfold size. rewrite size_empty. lia. }
  apply IH; [done|done|].
  intros k' pool' Hk' Hp'. unfold init_step in Hp'. rewrite allocate_spec in Hp'.
  simpl in Hp'. rewrite lookup_insert_ne in Hp' by set_solver.
  apply (Hempty k'); [set_solver|done].
Qed.

Lemma BUFFER_CONFIGS_NoDup : NoDup BUFFER_CONFIGS.
Proof. unfold BUFFER_CONFIGS. repeat (apply NoDup_cons; split; [set_solver|]). apply NoDup_nil_2. Qed.

Lemma initializePools_counted now p :
  counted p ->
  (forall k pool, k ∈ BUFFER_CONFIGS -> pools p !! k = Some pool -> cnt pool = 0) ->
  counted (initializePools now p).
Proof.
  intros. unfold initializePools. change (fun p0 type => _) with (init_step now).
  apply init_counted; [apply BUFFER_CONFIGS_NoDup|done..].
Qed.

Lemma new_counted now o p : new now o = Ok p -> counted p.
Proof.
  unfold new. case_match; [done|]. intros [= <-].
  apply initializePools_counted.
  - unfold counted. rewrite totalBuffers_msum. simpl. by rewrite msum_empty.
  - intros k pool _. simpl. by rewrite lookup_empty.
Qed.

Lemma init_keys now l p :
  dom (pools (fold_left (init_step now) l p)) = dom (pools p) ∪ list_to_set l.
Proof.
  revert p. induction l as [|k l IH]; intros p; simpl.
  - set_solver.
  - rewrite IH. unfold init_step. rewrite allocate_spec. simpl.
    rewrite dom_insert_L. set_solver.
Qed.

Lemma initializePools_keyed now p :
  dom (pools p) ⊆ list_to_set BUFFER_CONFIGS -> keyed (initializePools now p).
Proof.
  intros H. unfold keyed, initializePools. change (fun p0 type => _) with (init_step now).
  rewrite init_keys. set_solver.
Qed.

Lemma new_keyed now o p : new now o = Ok p -> keyed p.
Proof.
  unfold new. case_match; [done|]. intros [= <-].
  apply initializePools_keyed. simpl. set_solver.
Qed.

Lemma insert_keyed p k pool pool' c m i e s n :
  pools p !! k = Some pool -> keyed p ->
  keyed (mkState (<[k := pool']> (pools p)) c m i e s n).
Proof.
  unfold keyed. simpl. intros Hp <-. rewrite dom_insert_L.
  apply elem_of_dom_2 in Hp. set_solver.
Qed.

Lemma acquire_keyed now type p : keyed p -> keyed (acquire now type p).1.2.
Proof.
  intros Hk. destruct (pools p !! type) as [pool|] eqn:Hp.
  2:{ unfold acquire. by rewrite Hp. }
  destruct (last (buffers pool)) as [b|] eqn:Hl.
  - rewrite (acquire_hit _ _ _ _ _ Hp Hl). by eapply insert_keyed.
  - apply last_None in Hl.
    destruct (Z_lt_le_dec (poolSize (stats p)) (maxPoolSize p)) as [Hroom|Hfull].
    + rewrite (acquire_expand _ _ _ _ Hp Hl Hroom). by eapply insert_keyed.
    + rewrite (acquire_exhausted _ _ _ _ Hp Hl Hfull). by eapply insert_keyed.
Qed.

Lemma release_keyed now type b p : keyed p -> keyed (release now type b p).1.2.
Proof.
  intros Hk. unfold release, release_view. destruct (pools p !! type) as [pool|] eqn:Hp; [|done].
  destruct b as [b|]; [|done]. case_bool_decide; [|done]. by eapply insert_keyed.
Qed.

Lemma resize_keyed now newSize p : keyed p -> keyed (resize now newSize p).1.2.
Proof.
  intros Hk. unfold resize. repeat case_match; simpl; try done.
  unfold keyed, set_stats. simpl. rewrite shrinkPools_spec. simpl.
  by rewrite dom_fmap_L.
Qed.

(** The loop of [clear()] touches only the free lists and in-use sets. *)
Lemma clear_loop_frame l p :
  let p' := (clear_loop l p).2 in
  dom (pools p') = dom (pools p)
  /\ maxPoolSize p' = maxPoolSize p /\ initialSize p' = initialSize p
  /\ expandSize p' = expandSize p /\ config p' = config p /\ stats p' = stats p
  /\ nextBuffer p' = nextBuffer p.
Proof.
  revert p. induction l as [|k0 l IH]; intros p; simpl; [done|].
  destruct (pools p !! k0) as [pool0|] eqn:Hp0; [|apply IH].
  case_match; [done|].
  match goal with |- context [clear_loop l ?q] => specialize (IH q) end.
  simpl in IH. destruct IH as (Hd & ? & ? & ? & ? & ? & ?).
  repeat split; try done.
  rewrite Hd, dom_insert_L. apply elem_of_dom_2 in Hp0. set_solver.
Qed.

(** A successful pass of the loop of [clear()]. *)
Lemma clear_loop_ok l p p' k pool' :
  clear_loop l p = (Ok tt, p') ->
  pools p' !! k = Some pool' ->
  if decide (k ∈ l) then buffers pool' = [] /\ inUse pool' = ∅
  else pools p !! k = Some pool'.
Proof.
  revert p. induction l as [|k0 l IH]; intros p; cbn [clear_loop].
  - intros [= <-] Hp'. by rewrite decide_False by set_solver.
  - destruct (pools p !! k0) as [pool0|] eqn:Hp0.
    + destruct (size (inUse pool0) >? 0) eqn:Hs; [intros; simplify_eq|]. intros Hrun Hp'. specialize (IH _ Hrun Hp').
      destruct (decide (k ∈ l)) as [Hk|Hk].
      * by rewrite decide_True by set_solver.
      * simpl in IH. destruct (decide (k = k0)) as [->|Hne].
        -- rewrite decide_True by set_solver. rewrite lookup_insert_eq in IH.
           by injection IH as <-.
        -- rewrite decide_False by set_solver. by rewrite lookup_insert_ne in IH.
    + intros Hrun Hp'. specialize (IH _ Hrun Hp').
      destruct (decide (k ∈ l)) as [Hk|Hk].
      * by rewrite decide_True by set_solver.
      * destruct (decide (k = k0)) as [->|Hne]; [congruence|].
        by rewrite decide_False by set_solver.
Qed.

(** The loop succeeds exactly when no kind of [l] has a buffer out. *)
Lemma clear_loop_succeeds l p :
  (forall k pool, k ∈ l -> pools p !! k = Some pool -> inUse pool = ∅) ->
  (clear_loop l p).1 = Ok tt.
Proof.
  revert p. induction l as [|k0 l IH]; intros p H; simpl; [done|].
  destruct (pools p !! k0) as [pool0|] eqn:Hp0.
  - rewrite (H k0 pool0) by set_solver. unfold size. rewrite size_empty. simpl.
    apply IH. simpl. intros k pool Hk Hp.
    destruct (decide (k = k0)) as [->|Hne].
    + rewrite lookup_insert_eq in Hp. by injection Hp as <-.
    + rewrite lookup_insert_ne in Hp by done. apply (H k); [set_solver|done].
  - apply IH. intros k pool Hk. apply H. set_solver.
Qed.

Lemma clear_loop_fails l p e :
  (clear_loop l p).1 = Err e ->
  e = "Cannot clear pool while buffers are in use"%string
  /\ exists k pool, k ∈ l /\ pools p !! k = Some pool /\ inUse pool <> ∅.
Proof.
  revert p. induction l as [|k0 l IH]; intros p; simpl; [done|].
  destruct (pools p !! k0) as [pool0|] eqn:Hp0.
  - destruct (size (inUse pool0) >? 0) eqn:Hs.
    + simpl. intros [= <-]. split; [done|]. exists k0, pool0.
      repeat split; [set_solver|done|]. intros He. rewrite He in Hs.
      unfold size in Hs. by rewrite size_empty in Hs.
    + intros H. apply IH in H as [-> (k & pool & Hk & Hp & Hne)]. split; [done|].
      simpl in Hp. destruct (decide (k = k0)) as [->|Hkk].
      * rewrite lookup_insert_eq in Hp. injection Hp as <-. done.
      * rewrite lookup_insert_ne in Hp by done. exists k, pool. set_solver.
  - intros H. apply IH in H as [-> (k & pool & Hk & Hp & Hne)]. split; [done|].
    exists k, pool. set_solver.
Qed.

Lemma clear_counted now p p' :
  keyed p -> clear now p = (Ok tt, p') -> counted p'.
Proof.
  unfold clear. intros Hk.
  destruct (clear_loop BUFFER_CONFIGS p) as [[[]|e] p1] eqn:Hl; [|done].
  intros [= <-]. apply initializePools_counted.
  - unfold counted. rewrite totalBuffers_msum. simpl.
    rewrite (msum_ext _ (fun _ => 0)).
    + clear. induction (pools p1) as [|k x m Hk IH] using map_ind.
      * by rewrite msum_empty.
      * rewrite msum_insert by done. lia.
    + intros k pool Hp. pose proof (clear_loop_ok _ _ _ _ _ Hl Hp) as H.
      pose proof (clear_loop_frame BUFFER_CONFIGS p) as (Hd & _). rewrite Hl in Hd.
      simpl in Hd. rewrite decide_True in H.
      * destruct H as [Hb Hi]. unfold cnt, len, size. rewrite Hb, Hi, size_empty. done.
      * apply elem_of_dom_2 in Hp. rewrite Hd, Hk in Hp. set_solver.
  - simpl. intros k pool Hkin Hp. pose proof (clear_loop_ok _ _ _ _ _ Hl Hp) as H.
    rewrite decide_True in H by done. destruct H as [Hb Hi].
    unfold cnt, len, size. rewrite Hb, Hi, size_empty. done.
Qed.

Lemma clear_keyed now p : keyed p -> keyed (clear now p).2.
Proof.
  intros Hk. unfold clear.
  pose proof (clear_loop_frame BUFFER_CONFIGS p) as (Hd & _).
  destruct (clear_loop BUFFER_CONFIGS p) as [[[]|e] p1]; simpl in *.
  - apply initializePools_keyed. simpl. rewrite Hd, Hk. done.
  - unfold keyed. by rewrite Hd.
Qed.

End Counted.

Section BufferPoolReach.
Import BufferPool Invariant.

Lemma shrinkPools_wf p : pool_wf p -> pool_wf (shrinkPools p).
Proof.
  intros [Hnd Hfree Hfresh Hapart]. rewrite shrinkPools_spec.
  assert (forall pool, ids (shrunk (maxPoolSize p) pool) ⊆ ids pool) as Hids.
  { intros pool b. unfold ids, shrunk. simpl. rewrite !elem_of_union, !elem_of_list_to_set.
    intros [Hb|Hb]; [left|by right]. by apply (subseteq_take (kept (maxPoolSize p) pool)). }
  split; simpl.
  - intros k pool' (pool & <- & Hp)%lookup_fmap_Some. simpl.
    eapply sublist_NoDup; [by eapply Hnd|apply sublist_take].
  - intros k pool' b (pool & <- & Hp)%lookup_fmap_Some. simpl. intros Hb.
    apply (Hfree _ _ _ Hp). by apply (subseteq_take (kept (maxPoolSize p) pool)).
  - intros k pool' b (pool & <- & Hp)%lookup_fmap_Some Hb.
    apply (Hfresh _ _ _ Hp). by apply Hids.
  - intros k1 k2 pool1' pool2' Hne (pool1 & <- & Hp1)%lookup_fmap_Some
      (pool2 & <- & Hp2)%lookup_fmap_Some b Hb1 Hb2.
    apply (Hapart _ _ _ _ Hne Hp1 Hp2 b); by apply Hids.
Qed.

Lemma resize_wf now newSize p : pool_wf p -> pool_wf (resize now newSize p).1.2.
Proof.
  intros Hwf. unfold resize. repeat case_match; simpl; try done.
  apply set_stats_wf.
  apply (shrinkPools_wf (mkState (pools p) (config p) newSize (initialSize p)
                                 (expandSize p) (stats p) (nextBuffer p))).
  by destruct Hwf.
Qed.

Lemma reachable_inv p : reachable p -> pool_wf p /\ counted p /\ keyed p.
Proof.
  induction 1 as [now o p Hn|now type p _ (Hwf & Hc & Hk)|now type b p _ (Hwf & Hc & Hk)
                 |now n p _ (Hwf & Hc & Hk)|now p p' _ (Hwf & Hc & Hk) Hcl].
  - split; [by eapply new_wf|]. split; [by eapply new_counted|by eapply new_keyed].
  - split; [by apply acquire_wf|].
    split; [by apply acquire_counted|by apply acquire_keyed].
  - split; [by apply release_wf|].
    split; [by apply release_counted|by apply release_keyed].
  - split; [by apply resize_wf|].
    split; [by apply resize_counted|by apply resize_keyed].
  - split; [|split].
    + pose proof (clear_wf now p Hwf) as H. by rewrite Hcl in H.
    + by eapply clear_counted.
    + pose proof (clear_keyed now p Hk) as H. by rewrite Hcl in H.
Qed.

(** [release] of a possibly transferred buffer either throws, leaving
    the pool as it was, or is the plain [release]. *)
Lemma release_view_cases detached now type b p :
  release_view detached now type b p = release now type b p
  \/ (release_view detached now type b p).1.2 = p.
Proof.
  unfold release, release_view. destruct (pools p !! type) as [pool|]; [|by left].
  destruct b as [b|]; [|by left]. case_bool_decide; [|by left].
  destruct detached; [|by left]. destruct (clearOnRelease (config p)); [by right|by left].
Qed.

(** The number by which [stats.poolSize] exceeds the buffers held is
    left alone by [acquire], [release] and [resize]. *)
Lemma total_update p k pool pool' c m i e s' next' d :
  pools p !! k = Some pool ->
  cnt pool' = cnt pool + d ->
  totalBuffers (mkState (<[k := pool']> (pools p)) c m i e s' next') = totalBuffers p + d.
Proof.
  rewrite !totalBuffers_msum. simpl. intros Hp Hcnt.
  rewrite (msum_replace _ _ _ _ _ Hp). lia.
Qed.

Lemma acquire_surplus now type p :
  pool_wf p ->
  poolSize (stats (acquire now type p).1.2) - totalBuffers (acquire now type p).1.2
  = poolSize (stats p) - totalBuffers p.
Proof.
  intros Hwf. destruct (pools p !! type) as [pool|] eqn:Hp.
  2:{ unfold acquire. by rewrite Hp. }
  destruct (last (buffers pool)) as [b|] eqn:Hl.
  - rewrite (acquire_hit _ _ _ _ _ Hp Hl). simpl.
    rewrite (total_update _ _ pool _ _ _ _ _ _ _ 0 Hp); [lia|].
    apply last_Some in Hl as [l' Hl].
    assert (b ∉ inUse pool).
    { apply (wf_free _ Hwf _ _ b Hp). rewrite Hl. set_solver. }
    unfold cnt, len. simpl. rewrite Hl, removelast_last, size_add, length_app by done.
    simpl. lia.
  - apply last_None in Hl.
    destruct (Z_lt_le_dec (poolSize (stats p)) (maxPoolSize p)) as [Hroom|Hfull].
    + rewrite (acquire_expand _ _ _ _ Hp Hl Hroom). simpl.
      set (n := Z.to_nat _).
      rewrite (total_update _ _ pool _ _ _ _ _ _ _ (1 + Z.of_nat n) Hp); [lia|].
      assert (nextBuffer p ∉ inUse pool).
      { intros Hin. pose proof (wf_fresh _ Hwf _ _ (nextBuffer p) Hp) as Hf.
        unfold ids in Hf. assert (nextBuffer p < nextBuffer p)%nat; [|lia].
        apply Hf. set_solver. }
      unfold cnt, len. simpl. rewrite Hl, size_add, length_seq by done. simpl. lia.
    + rewrite (acquire_exhausted _ _ _ _ Hp Hl Hfull). simpl.
      rewrite (total_update _ _ pool _ _ _ _ _ _ _ 0 Hp); [lia|].
      unfold cnt. simpl. rewrite Hl. lia.
Qed.

Lemma release_surplus now type b p :
  poolSize (stats (release now type b p).1.2) - totalBuffers (release now type b p).1.2
  = poolSize (stats p) - totalBuffers p.
Proof.
  destruct (pools p !! type) as [pool|] eqn:Hp.
  2:{ by rewrite release_unknown_type. }
  destruct b as [b|]; [|by rewrite (release_null_buffer _ _ _ _ Hp)].
  destruct (decide (b ∈ inUse pool)) as [Hb|Hb].
  2:{ unfold release, release_view. rewrite Hp. by rewrite bool_decide_false. }
  rewrite (release_ok _ _ _ _ _ Hp Hb). simpl.
  rewrite (total_update _ _ pool _ _ _ _ _ _ _ 0 Hp); [lia|].
  unfold cnt, len. simpl. rewrite length_app, size_remove by done. simpl. lia.
Qed.

Lemma shrinkPools_surplus p :
  poolSize (stats (shrinkPools p)) - totalBuffers (shrinkPools p)
  = poolSize (stats p) - totalBuffers p.
Proof.
  rewrite shrinkPools_spec, !totalBuffers_msum. simpl.
  assert (msum cnt (shrunk (maxPoolSize p) <$> pools p)
          = msum cnt (pools p) - msum (dropped (maxPoolSize p)) (pools p)) as ->; [|lia].
  rewrite msum_fmap, <- msum_sub. apply msum_ext. intros k pool _.
  unfold compose, cnt, dropped, shrunk, len. simpl.
  pose proof (kept_le (maxPoolSize p) pool). rewrite length_take. lia.
Qed.

Lemma resize_surplus now newSize p :
  poolSize (stats (resize now newSize p).1.2) - totalBuffers (resize now newSize p).1.2
  = poolSize (stats p) - totalBuffers p.
Proof.
  unfold resize. repeat case_match; simpl; try done.
  apply (shrinkPools_surplus
           (mkState (pools p) (config p) newSize (initialSize p) (expandSize p)
                    (stats p) (nextBuffer p))).
Qed.

(** The loop of [clear] only empties free lists. *)
Lemma cnt_nonneg pool : 0 <= cnt pool.
Proof. unfold cnt, len, size. lia. Qed.

Lemma cnt_empty la : cnt (mkPool [] ∅ la) = 0.
Proof. unfold cnt, len, size. cbn [buffers inUse length]. by rewrite size_empty. Qed.

Lemma clear_loop_total l p :
  totalBuffers (clear_loop l p).2 <= totalBuffers p.
Proof.
  revert p. induction l as [|k0 l IH]; intros p; simpl; [done|].
  destruct (pools p !! k0) as [pool0|] eqn:Hp0; [|apply IH].
  case_match; [done|]. etrans; [apply IH|].
  rewrite !totalBuffers_msum. simpl. rewrite (msum_replace _ _ _ _ _ Hp0).
  pose proof (cnt_nonneg pool0). rewrite cnt_empty. lia.
Qed.

Lemma reached_inv p :
  reached p -> pool_wf p /\ keyed p /\ totalBuffers p <= poolSize (stats p).
Proof.
  induction 1 as [now o p Hn|now type p _ (Hwf & Hk & Hc)|d now type b p _ (Hwf & Hk & Hc)
                 |now n p _ (Hwf & Hk & Hc)|now p _ (Hwf & Hk & Hc)].
  - split; [by eapply new_wf|]. split; [by eapply new_keyed|].
    pose proof (new_counted _ _ _ Hn) as H. unfold counted in H. lia.
  - split; [by apply acquire_wf|]. split; [by apply acquire_keyed|].
    pose proof (acquire_surplus now type p Hwf). lia.
  - destruct (release_view_cases d now type b p) as [->| ->]; [|done].
    split; [by apply release_wf|]. split; [by apply release_keyed|].
    pose proof (release_surplus now type b p). lia.
  - split; [by apply resize_wf|]. split; [by apply resize_keyed|].
    pose proof (resize_surplus now n p). lia.
  - split; [by apply clear_wf|]. split; [by apply clear_keyed|].
    destruct (clear now p) as [[[]|e] p'] eqn:Hcl; simpl.
    + pose proof (clear_counted now p p' Hk Hcl) as H. unfold counted in H. lia.
    + revert Hcl. unfold clear.
      pose proof (clear_loop_total BUFFER_CONFIGS p) as Hle.
      pose proof (clear_loop_frame BUFFER_CONFIGS p) as (_ & _ & _ & _ & _ & Hs & _).
      destruct (clear_loop BUFFER_CONFIGS p) as [[[]|e'] p1]; simpl in *; [done|].
      intros [= <- <-]. rewrite Hs. lia.
Qed.

(** What [acquire] returns and where it leaves the buffer. *)
Lemma acquire_some now type p b p' evs :
  pool_wf p ->
  acquire now type p = (Ok (Some b), p', evs) ->
  exists pool,
    pools p !! type = Some pool
    /\ (b ∉ inUse pool)
    /\ (last (buffers pool) = Some b
        \/ buffers pool = [] /\ b = nextBuffer p /\ poolSize (stats p) < maxPoolSize p)
    /\ exists free, pools p' = <[type := mkPool free ({[b]} ∪ inUse pool) now]> (pools p)
                    /\ b ∉ free.
Proof.
  intros Hwf. destruct (pools p !! type) as [pool|] eqn:Hp.
  2:{ unfold acquire. by rewrite Hp. }
  destruct (last (buffers pool)) as [b0|] eqn:Hl.
  - rewrite (acquire_hit _ _ _ _ _ Hp Hl). intros [= -> <- <-]. exists pool.
    pose proof Hl as Hl'. apply last_Some in Hl' as [l' Hl'].
    pose proof (wf_nodup _ Hwf _ _ Hp) as Hnd. rewrite Hl' in Hnd.
    apply NoDup_app in Hnd as (_ & Hnb & _).
    repeat split; [|by left|].
    + apply (wf_free _ Hwf _ _ b Hp). rewrite Hl'. set_solver.
    + eexists. split; [done|]. rewrite Hl', removelast_last. intros Hb.
      apply (Hnb b Hb). set_solver.
  - apply last_None in Hl.
    destruct (Z_lt_le_dec (poolSize (stats p)) (maxPoolSize p)) as [Hroom|Hfull].
    + rewrite (acquire_expand _ _ _ _ Hp Hl Hroom). intros [= <- <- <-]. exists pool.
      repeat split; [|by right|].
      * intros Hin. pose proof (wf_fresh _ Hwf _ _ (nextBuffer p) Hp) as Hf.
        unfold ids in Hf. assert (nextBuffer p < nextBuffer p)%nat; [|lia].
        apply Hf. set_solver.
      * eexists. split; [done|]. rewrite elem_of_seq. lia.
    + by rewrite (acquire_exhausted _ _ _ _ Hp Hl Hfull).
Qed.

End BufferPoolReach.

Section BufferPoolInitSpec.
Import BufferPool Invariant.

Lemma init_fold_spec now l p :
  NoDup l ->
  let n := Z.to_nat (initialSize p) in
  let p' := fold_left (init_step now) l p in
  initialSize p' = initialSize p /\ maxPoolSize p' = maxPoolSize p
  /\ expandSize p' = expandSize p
  /\ nextBuffer p' = (nextBuffer p + length l * n)%nat
  /\ stats p' = mkStats (hits (stats p)) (misses (stats p))
                        (created (stats p) + Z.of_nat (length l * n))
                        (released (stats p))
                        (poolSize (stats p) + Z.of_nat (length l * n))
                        (maxUsed (stats p)) (lastResized (stats p))
  /\ (forall k, k ∈ l -> exists s, (nextBuffer p <= s)%nat
                          /\ pools p' !! k = Some (mkPool (seq s n) ∅ now))
  /\ (forall k, k ∉ l -> pools p' !! k = pools p !! k).
Proof.
  revert p. induction l as [|k0 l IH]; intros p Hnd; cbn [fold_left].
  - simpl. rewrite !Z.add_0_r, Nat.add_0_r. destruct (stats p).
    repeat split; try done. intros k Hk. by apply elem_of_nil in Hk.
  - apply NoDup_cons in Hnd as [Hk0 Hnd].
    specialize (IH (init_step now p k0) Hnd).
    assert (init_step now p k0
            = mkState (<[k0 := mkPool (seq (nextBuffer p) (Z.to_nat (initialSize p))) ∅ now]>
                         (pools p))
                      (config p) (maxPoolSize p) (initialSize p) (expandSize p)
                      (mkStats (hits (stats p)) (misses (stats p))
                               (created (stats p) + Z.of_nat (Z.to_nat (initialSize p)))
                               (released (stats p))
                               (poolSize (stats p) + Z.of_nat (Z.to_nat (initialSize p)))
                               (maxUsed (stats p)) (lastResized (stats p)))
                      (nextBuffer p + Z.to_nat (initialSize p))%nat) as Hstep.
    { unfold init_step. by rewrite allocate_spec. }
    set (p1 := init_step now p k0) in *. clearbody p1. subst p1. simpl in IH.
    destruct IH as (Hi & Hm & He & Hn & Hs & Hin & Hout).
    split; [done|]. split; [done|]. split; [done|]. split; [rewrite Hn; simpl; lia|].
    split; [rewrite Hs; f_equal; simpl length; lia|]. split.
    + intros k [->|Hk]%elem_of_cons.
      * exists (nextBuffer p). split; [lia|]. rewrite Hout by done.
        by rewrite lookup_insert_eq.
      * destruct (Hin k Hk) as (s & Hs' & Hp). exists s. split; [lia|done].
    + intros k Hk. rewrite Hout by set_solver. rewrite lookup_insert_ne; [done|set_solver].
Qed.

Lemma initializePools_spec now p :
  let n := Z.to_nat (initialSize p) in
  let p' := initializePools now p in
  initialSize p' = initialSize p /\ maxPoolSize p' = maxPoolSize p
  /\ expandSize p' = expandSize p
  /\ nextBuffer p' = (nextBuffer p + 4 * n)%nat
  /\ stats p' = mkStats (hits (stats p)) (misses (stats p))
                        (created (stats p) + 4 * Z.of_nat n)
                        (released (stats p))
                        (poolSize (stats p) + 4 * Z.of_nat n)
                        (maxUsed (stats p)) (lastResized (stats p))
  /\ (forall k, k ∈ BUFFER_CONFIGS ->
        exists s, (nextBuffer p <= s)%nat
                  /\ pools p' !! k = Some (mkPool (seq s n) ∅ now)).
Proof.
  intros n p'. subst p'. unfold initializePools.
  change (fun p0 type => _) with (init_step now).
  destruct (init_fold_spec now BUFFER_CONFIGS p BUFFER_CONFIGS_NoDup)
    as (Hi & Hm & He & Hn & Hs & Hin & _).
  split; [done|]. split; [done|]. split; [done|]. split; [rewrite Hn; simpl; lia|].
  split; [rewrite Hs; f_equal; simpl length; lia|]. done.
Qed.

End BufferPoolInitSpec.

Section BufferPoolExtras.
Import BufferPool Invariant.

(** Property X1. In a pool state reached through the public methods, a buffer that
    [acquire] hands out was not outstanding for any kind before the
    call; afterwards it is on no free list, and it is outstanding for
    the kind it was acquired for and for no other. *)
Theorem acquired_buffer_is_exclusive now type p b p' evs :
  reachable p ->
  acquire now type p = (Ok (Some b), p', evs) ->
  (forall k pool, pools p !! k = Some pool -> b ∉ inUse pool)
  /\ (forall k pool', pools p' !! k = Some pool' ->
        (b ∉ buffers pool') /\ (b ∈ inUse pool' <-> k = type)).
Proof.
  intros Hr Ha. destruct (reachable_inv p Hr) as (Hwf & _ & _).
  destruct (acquire_some _ _ _ _ _ _ Hwf Ha)
    as (pool & Hp & Hnot & Hcase & free & Hpools & Hfree).
  assert (forall k pool_k, k <> type -> pools p !! k = Some pool_k -> b ∉ ids pool_k)
    as Hother.
  { intros k pool_k Hne Hk Hb. destruct Hcase as [Hl|(_ & -> & _)].
    - apply last_Some in Hl as [l' Hl].
      apply (wf_apart _ Hwf _ _ _ _ Hne Hk Hp b Hb). unfold ids. rewrite Hl. set_solver.
    - pose proof (wf_fresh _ Hwf _ _ _ Hk Hb). lia. }
  split.
  - intros k pool_k Hk. destruct (decide (k = type)) as [->|Hne]; [congruence|].
    specialize (Hother k pool_k Hne Hk). unfold ids in Hother. set_solver.
  - intros k pool' Hk. rewrite Hpools in Hk.
    destruct (decide (k = type)) as [->|Hne].
    + rewrite lookup_insert_eq in Hk. injection Hk as <-. simpl. split; [done|].
      split; [done|]. set_solver.
    + rewrite lookup_insert_ne in Hk by done.
      specialize (Hother k pool' Hne Hk). unfold ids in Hother.
      split; [set_solver|]. split; [set_solver|done].
Qed.

Lemma acquired_buffer_is_exclusive_witness :
  exists p b p' evs,
    new 0 Scenario.test_options = Ok p
    /\ acquire 1 "depth" p = (Ok (Some b), p', evs)
    /\ (forall k pool, pools p !! k = Some pool -> b ∉ inUse pool)
    /\ (forall k pool', pools p' !! k = Some pool' ->
          (b ∉ buffers pool') /\ (b ∈ inUse pool' <-> k = "depth"%string)).
Proof.
  eexists _, _, _, _. split; [vm_compute; reflexivity|].
  split; [vm_compute; reflexivity|].
  eapply acquired_buffer_is_exclusive.
  - apply (reach_new 0 Scenario.test_options). vm_compute. reflexivity.
  - vm_compute. reflexivity.
Defined.

(** Property X2. In a pool state reached through the constructor, [acquire],
    [release], [resize] and calls of [clear] that return,
    [stats.poolSize] is the number of buffers the pool really holds,
    free and outstanding, over all kinds.  When calls of [clear] that
    throw and releases of transferred buffers are counted as well, it is
    an upper bound of that number. *)
Theorem poolSize_counts_buffers p :
  (reachable p -> poolSize (stats p) = totalBuffers p)
  /\ (reached p -> totalBuffers p <= poolSize (stats p)).
Proof.
  split.
  - intros Hr. by destruct (reachable_inv p Hr) as (_ & Hc & _).
  - intros Hr. by destruct (reached_inv p Hr) as (_ & _ & Hc).
Qed.

Lemma poolSize_counts_buffers_witness :
  exists p,
    new 0 Scenario.test_options = Ok p
    /\ poolSize (stats (acquire 1 "color" p).1.2) = totalBuffers (acquire 1 "color" p).1.2
    /\ totalBuffers (clear 2 (acquire 1 "color" p).1.2).2
       <= poolSize (stats (clear 2 (acquire 1 "color" p).1.2).2)
    /\ (clear 2 (acquire 1 "color" p).1.2).1
       = Err "Cannot clear pool while buffers are in use"
    /\ totalBuffers (clear 2 (acquire 1 "color" p).1.2).2 = 9
    /\ poolSize (stats (clear 2 (acquire 1 "color" p).1.2).2) = 12.
Proof.
  eexists. split; [vm_compute; reflexivity|].
  split.
  - apply (proj1 (poolSize_counts_buffers _)). apply reach_acquire.
    apply (reach_new 0 Scenario.test_options). vm_compute. reflexivity.
  - split.
    + apply (proj2 (poolSize_counts_buffers _)). apply reached_clear, reached_acquire.
      apply (reached_new 0 Scenario.test_options). vm_compute. reflexivity.
    + split; [vm_compute; reflexivity|]. split; vm_compute; reflexivity.
Defined.

(** Property X3. Releasing an outstanding buffer succeeds with one
    [bufferReleased] event, and the next [acquire] of that kind returns
    this very buffer without allocating: the kind's free list and in-use
    set are back to what they were, [poolSize] and [created] are
    unchanged, and [released] and [hits] have grown by one. *)
Theorem released_buffer_is_reused_first now now' type p pool b :
  pools p !! type = Some pool ->
  b ∈ inUse pool ->
  exists p1 e p2,
    release now type (Some b) p = (Ok tt, p1, [e])
    /\ acquire now' type p1 = (Ok (Some b), p2, [])
    /\ pools p2 = <[type := mkPool (buffers pool) (inUse pool) now']> (pools p)
    /\ poolSize (stats p2) = poolSize (stats p)
    /\ created (stats p2) = created (stats p)
    /\ released (stats p2) = released (stats p) + 1
    /\ hits (stats p2) = hits (stats p) + 1.
Proof.
  intros Hp Hb. eexists _, _, _. split; [by apply release_ok|].
  split.
  - erewrite acquire_hit; [reflexivity|simpl; apply lookup_insert_eq|].
    simpl. by rewrite last_snoc.
  - simpl. rewrite removelast_last, insert_insert_eq.
    replace ({[b]} ∪ inUse pool ∖ {[b]}) with (inUse pool); [done|].
    apply set_eq. intros x. rewrite elem_of_union, elem_of_difference, elem_of_singleton.
    destruct (decide (x = b)) as [->|]; naive_solver.
Qed.

Lemma released_buffer_is_reused_first_witness :
  exists p0 p pool,
    new 0 Scenario.test_options = Ok p0
    /\ acquire 1 "depth" p0 = (Ok (Some 2%nat), p, [])
    /\ pools p !! "depth"%string = Some pool
    /\ 2%nat ∈ inUse pool
    /\ exists p1 e p2,
         release 2 "depth" (Some 2%nat) p = (Ok tt, p1, [e])
         /\ acquire 3 "depth" p1 = (Ok (Some 2%nat), p2, [])
         /\ pools p2 = <["depth"%string := mkPool (buffers pool) (inUse pool) 3]> (pools p)
         /\ poolSize (stats p2) = poolSize (stats p)
         /\ created (stats p2) = created (stats p)
         /\ released (stats p2) = released (stats p) + 1
         /\ hits (stats p2) = hits (stats p) + 1.
Proof.
  do 3 eexists. split; [vm_compute; reflexivity|].
  split; [vm_compute; reflexivity|].
  split; [vm_compute; reflexivity|].
  assert (2%nat ∈ ({[2%nat]} ∪ ∅ : gset nat)) as Hin by (apply elem_of_union_l, elem_of_singleton; reflexivity).
  split; [exact Hin|].
  apply released_buffer_is_reused_first; [vm_compute; reflexivity|exact Hin].
Defined.

(** Property X4. [acquire] returns [null] only when the kind's free list is
    empty and [stats.poolSize] has reached [maxPoolSize]; it then emits
    exactly one [poolExhausted] event and changes nothing but the kind's
    [lastAccessed]. *)
Theorem acquire_null_means_exhausted now type p p' evs :
  acquire now type p = (Ok None, p', evs) ->
  exists pool,
    pools p !! type = Some pool
    /\ buffers pool = []
    /\ maxPoolSize p <= poolSize (stats p)
    /\ evs = [poolExhausted type (poolSize (stats p)) (size (inUse pool)) now]
    /\ stats p' = stats p
    /\ nextBuffer p' = nextBuffer p
    /\ pools p' = <[type := mkPool [] (inUse pool) now]> (pools p).
Proof.
  destruct (pools p !! type) as [pool|] eqn:Hp.
  2:{ unfold acquire. by rewrite Hp. }
  destruct (last (buffers pool)) as [b|] eqn:Hl.
  { by rewrite (acquire_hit _ _ _ _ _ Hp Hl). }
  apply last_None in Hl.
  destruct (Z_lt_le_dec (poolSize (stats p)) (maxPoolSize p)) as [Hroom|Hfull].
  { by rewrite (acquire_expand _ _ _ _ Hp Hl Hroom). }
  rewrite (acquire_exhausted _ _ _ _ Hp Hl Hfull). intros [= <- <-].
  exists pool. done.
Qed.

(** Property X5. In a reachable pool state whose buffers number at most
    [maxPoolSize], [acquire] never discards a buffer, never takes the
    total above [maxPoolSize], and allocates at most
    [max 1 expandSize] buffers. *)
Theorem acquire_stays_within_cap now type p :
  reachable p ->
  totalBuffers p <= maxPoolSize p ->
  let p' := (acquire now type p).1.2 in
  maxPoolSize p' = maxPoolSize p
  /\ totalBuffers p <= totalBuffers p' <= maxPoolSize p
  /\ totalBuffers p' - totalBuffers p <= Z.max 1 (expandSize p).
Proof.
  intros Hr Hcap p'. pose proof (reach_acquire now type p Hr) as Hr'. fold p' in Hr'.
  destruct (reachable_inv p Hr) as (_ & Hc & _).
  destruct (reachable_inv p' Hr') as (_ & Hc' & _).
  unfold counted in Hc, Hc'. rewrite <- Hc, <- Hc'. rewrite <- Hc in Hcap.
  clear Hc Hc' Hr'. subst p'.
  destruct (pools p !! type) as [pool|] eqn:Hp.
  2:{ unfold acquire. rewrite Hp. simpl. lia. }
  destruct (last (buffers pool)) as [b|] eqn:Hl.
  { rewrite (acquire_hit _ _ _ _ _ Hp Hl). simpl. lia. }
  apply last_None in Hl.
  destruct (Z_lt_le_dec (poolSize (stats p)) (maxPoolSize p)) as [Hroom|Hfull].
  - rewrite (acquire_expand _ _ _ _ Hp Hl Hroom). simpl. lia.
  - rewrite (acquire_exhausted _ _ _ _ Hp Hl Hfull). simpl. lia.
Qed.

Lemma acquire_null_means_exhausted_witness :
  exists p0 p1 p2 evs,
    new 0 (mkOptions (Some 1) (Some 1) (Some 1) None None) = Ok p0
    /\ (acquire 1 "depth" p0).1.2 = p1
    /\ acquire 2 "depth" p1 = (Ok None, p2, evs)
    /\ exists pool,
         pools p1 !! "depth"%string = Some pool
         /\ buffers pool = []
         /\ maxPoolSize p1 <= poolSize (stats p1)
         /\ evs = [poolExhausted "depth" (poolSize (stats p1)) (size (inUse pool)) 2]
         /\ stats p2 = stats p1
         /\ nextBuffer p2 = nextBuffer p1
         /\ pools p2 = <["depth"%string := mkPool [] (inUse pool) 2]> (pools p1).
Proof.
  do 4 eexists. split; [vm_compute; reflexivity|].
  split; [vm_compute; reflexivity|].
  split; [vm_compute; reflexivity|].
  eapply acquire_null_means_exhausted. vm_compute. reflexivity.
Defined.

Lemma acquire_stays_within_cap_witness :
  exists p0,
    new 0 (mkOptions (Some 20) (Some 1) (Some 3) None None) = Ok p0
    /\ let p := (acquire 1 "depth" p0).1.2 in
       totalBuffers p <= maxPoolSize p
       /\ let p' := (acquire 2 "depth" p).1.2 in
          maxPoolSize p' = maxPoolSize p
          /\ totalBuffers p <= totalBuffers p' <= maxPoolSize p
          /\ totalBuffers p' - totalBuffers p <= Z.max 1 (expandSize p).
Proof.
  eexists. split; [vm_compute; reflexivity|].
  intros p. split; [vm_compute; discriminate|].
  apply acquire_stays_within_cap; [|vm_compute; discriminate].
  apply reach_acquire.
  apply (reach_new 0 (mkOptions (Some 20) (Some 1) (Some 3) None None)).
  vm_compute. reflexivity.
Defined.

(** Property X6. In a reachable pool state, a buffer handed out by [acquire]
    can be released again: the release succeeds with one event, the
    kind's in-use set is what it was before the acquire, the buffer is on
    top of the kind's free list, and the other kinds are untouched. *)
Theorem acquire_then_release_restores now now' type p b p1 evs :
  reachable p ->
  acquire now type p = (Ok (Some b), p1, evs) ->
  exists pool p2 e pool2,
    pools p !! type = Some pool
    /\ release now' type (Some b) p1 = (Ok tt, p2, [e])
    /\ pools p2 !! type = Some pool2
    /\ inUse pool2 = inUse pool
    /\ last (buffers pool2) = Some b
    /\ (forall k, k <> type -> pools p2 !! k = pools p !! k)
    /\ totalInUse p2 = totalInUse p.
Proof.
  intros Hr Ha. destruct (reachable_inv p Hr) as (Hwf & _ & _).
  destruct (acquire_some _ _ _ _ _ _ Hwf Ha)
    as (pool & Hp & Hnot & _ & free & Hpools & Hfree).
  assert (pools p1 !! type = Some (mkPool free ({[b]} ∪ inUse pool) now)) as Hp1
    by (rewrite Hpools; apply lookup_insert_eq).
  assert (b ∈ inUse (mkPool free ({[b]} ∪ inUse pool) now)) as Hb by set_solver.
  assert (({[b]} ∪ inUse pool) ∖ {[b]} = inUse pool) as Hset by set_solver.
  exists pool. eexists _, _, _. split; [done|].
  split; [by apply (release_ok now' type p1 _ b Hp1 Hb)|]. simpl.
  rewrite Hpools, insert_insert_eq, lookup_insert_eq.
  split; [done|]. split; [done|]. split; [simpl; by rewrite last_snoc|].
  split; [intros k Hk; by rewrite lookup_insert_ne|].
  rewrite !totalInUse_msum. simpl. rewrite (msum_replace _ _ _ _ _ Hp).
  unfold used. simpl. rewrite Hset. lia.
Qed.

Lemma acquire_then_release_restores_witness :
  exists p0 b p1 evs,
    new 0 Scenario.test_options = Ok p0
    /\ acquire 1 "depth" p0 = (Ok (Some b), p1, evs)
    /\ exists pool p2 e pool2,
         pools p0 !! "depth"%string = Some pool
         /\ release 2 "depth" (Some b) p1 = (Ok tt, p2, [e])
         /\ pools p2 !! "depth"%string = Some pool2
         /\ inUse pool2 = inUse pool
         /\ last (buffers pool2) = Some b
         /\ (forall k, k <> "depth"%string -> pools p2 !! k = pools p0 !! k)
         /\ totalInUse p2 = totalInUse p0.
Proof.
  do 4 eexists. split; [vm_compute; reflexivity|].
  split; [vm_compute; reflexivity|].
  eapply acquire_then_release_restores.
  - apply (reach_new 0 Scenario.test_options). vm_compute. reflexivity.
  - vm_compute. reflexivity.
Defined.

(** Property X7. A [resize(newSize)] that returns had [newSize >= 1] and at
    least the number of outstanding buffers; it sets [maxPoolSize] and
    [lastResized], emits one [poolResized] event, keeps every in-use set,
    cuts each kind's free list to a prefix so that the kind's own buffers
    number at most [newSize], and leaves alone a kind that was already
    within [newSize]. *)
Theorem resize_bounds_each_kind now newSize p p' evs :
  resize now newSize p = (Ok tt, p', evs) ->
  1 <= newSize /\ totalInUse p <= newSize
  /\ maxPoolSize p' = newSize
  /\ evs = [poolResized newSize (poolSize (stats p')) now]
  /\ lastResized (stats p') = Some now
  /\ dom (pools p') = dom (pools p)
  /\ forall k pool', pools p' !! k = Some pool' ->
       exists pool, pools p !! k = Some pool
                    /\ inUse pool' = inUse pool
                    /\ buffers pool' `prefix_of` buffers pool
                    /\ cnt pool' <= newSize
                    /\ (cnt pool <= newSize -> buffers pool' = buffers pool).
Proof.
  unfold resize.
  destruct (Z.ltb_spec newSize 1) as [|Hpos]; [done|].
  destruct (Z.gtb_spec (totalInUse p) newSize) as [|Hfit]; [done|].
  intros [= <- <-]. rewrite shrinkPools_spec. simpl.
  split; [done|]. split; [done|]. split; [done|]. split; [done|]. split; [done|].
  split; [by rewrite dom_fmap_L|].
  intros k pool' (pool & <- & Hp)%lookup_fmap_Some. exists pool.
  split; [done|]. split; [done|]. split; [apply prefix_take|].
  assert (size (inUse pool) <= newSize) as Hu.
  { rewrite totalInUse_msum in Hfit.
    pose proof (msum_lookup_le used (pools p) k pool) as H.
    assert (forall x, 0 <= used x) as Hnn by (intros; unfold used, size; lia).
    specialize (H Hnn Hp). change (used pool) with (size (inUse pool)) in H. lia. }
  unfold cnt, shrunk, kept, len. simpl. rewrite length_take. split; [lia|].
  intros Hc. apply take_ge. unfold cnt, len in Hc. lia.
Qed.

Lemma resize_bounds_each_kind_witness :
  exists p0 p' evs,
    new 0 Scenario.default_options = Ok p0
    /\ resize 1 2 p0 = (Ok tt, p', evs)
    /\ 1 <= 2 /\ totalInUse p0 <= 2
    /\ maxPoolSize p' = 2
    /\ evs = [poolResized 2 (poolSize (stats p')) 1]
    /\ lastResized (stats p') = Some 1
    /\ dom (pools p') = dom (pools p0)
    /\ forall k pool', pools p' !! k = Some pool' ->
         exists pool, pools p0 !! k = Some pool
                      /\ inUse pool' = inUse pool
                      /\ buffers pool' `prefix_of` buffers pool
                      /\ cnt pool' <= 2
                      /\ (cnt pool <= 2 -> buffers pool' = buffers pool).
Proof.
  do 3 eexists. split; [vm_compute; reflexivity|].
  split; [vm_compute; reflexivity|].
  eapply resize_bounds_each_kind. vm_compute. reflexivity.
Defined.

End BufferPoolExtras.

Section BufferPoolClear.
Import BufferPool Invariant.

Lemma clear_loop_other l p k :
  k ∉ l -> pools (clear_loop l p).2 !! k = pools p !! k.
Proof.
  revert p. induction l as [|k0 l IH]; intros p Hk; simpl; [done|].
  destruct (pools p !! k0) as [pool0|] eqn:Hp0; [|apply IH; set_solver].
  case_match; [done|]. rewrite IH by set_solver. simpl.
  rewrite lookup_insert_ne; [done|set_solver].
Qed.

(** Property X8. When no kind has a buffer outstanding, [clear()] returns, and
    the pool is as the constructor leaves it: every kind has
    [initialSize] freshly allocated free buffers and none in use, the
    counters are zero except [created] and [poolSize], which are
    [4 * initialSize], and [maxPoolSize] is kept. *)
Theorem clear_restores_initial_pools now p :
  (forall k pool, k ∈ BUFFER_CONFIGS -> pools p !! k = Some pool -> inUse pool = ∅) ->
  exists p',
    clear now p = (Ok tt, p')
    /\ maxPoolSize p' = maxPoolSize p
    /\ initialSize p' = initialSize p
    /\ stats p' = mkStats 0 0 (4 * Z.of_nat (Z.to_nat (initialSize p))) 0
                          (4 * Z.of_nat (Z.to_nat (initialSize p))) 0 None
    /\ forall k, k ∈ BUFFER_CONFIGS ->
         exists s, (nextBuffer p <= s)%nat
                   /\ pools p' !! k
                      = Some (mkPool (seq s (Z.to_nat (initialSize p))) ∅ now).
Proof.
  intros Hfree. pose proof (clear_loop_succeeds BUFFER_CONFIGS p Hfree) as Hok.
  pose proof (clear_loop_frame BUFFER_CONFIGS p) as (_ & Hm & Hi & _ & _ & _ & Hn).
  unfold clear. destruct (clear_loop BUFFER_CONFIGS p) as [r p1]. simpl in *. subst r.
  eexists. split; [done|].
  destruct (initializePools_spec now (set_stats empty_stats p1))
    as (Hi' & Hm' & _ & _ & Hs' & Hin). simpl in *.
  rewrite Hi', Hm', Hs', Hi, Hm. repeat split; try done.
  intros k Hk. destruct (Hin k Hk) as (s & Hs & Hp). exists s.
  rewrite <- Hi, <- Hn. done.
Qed.

Lemma clear_restores_initial_pools_witness :
  exists p0,
    new 0 Scenario.test_options = Ok p0
    /\ exists p',
         clear 5 p0 = (Ok tt, p')
         /\ maxPoolSize p' = maxPoolSize p0
         /\ initialSize p' = initialSize p0
         /\ stats p' = mkStats 0 0 (4 * Z.of_nat (Z.to_nat (initialSize p0))) 0
                               (4 * Z.of_nat (Z.to_nat (initialSize p0))) 0 None
         /\ forall k, k ∈ BUFFER_CONFIGS ->
              exists s, (nextBuffer p0 <= s)%nat
                        /\ pools p' !! k
                           = Some (mkPool (seq s (Z.to_nat (initialSize p0))) ∅ 5).
Proof.
  eexists. split; [vm_compute; reflexivity|].
  apply clear_restores_initial_pools.
  intros k pool Hk Hp.
  unfold BUFFER_CONFIGS in Hk.
  repeat (apply elem_of_cons in Hk as [->|Hk];
          [vm_compute in Hp; injection Hp as <-; reflexivity|]).
  by apply elem_of_nil in Hk.
Defined.

Lemma clear_loop_cons_free k l p pool :
  pools p !! k = Some pool -> inUse pool = ∅ ->
  clear_loop (k :: l) p
  = clear_loop l (mkState (<[k := mkPool [] ∅ (lastAccessed pool)]> (pools p)) (config p)
                          (maxPoolSize p) (initialSize p) (expandSize p) (stats p)
                          (nextBuffer p)).
Proof.
  intros Hp Hiu. cbn [clear_loop]. rewrite Hp, Hiu.
  replace (size ∅ >? 0) with false; [done|].
  unfold size. by rewrite size_empty.
Qed.

(** Property X9. [clear()] throws only "Cannot clear pool while buffers are in
    use", and only if some kind has a buffer outstanding; the statistics
    are then unchanged, but when the depth kind itself had nothing
    outstanding its free list has already been emptied, so that
    [stats.poolSize] then exceeds the number of buffers the pool
    holds. *)
Theorem failed_clear_is_not_atomic now p e p' :
  clear now p = (Err e, p') ->
  e = "Cannot clear pool while buffers are in use"%string
  /\ (exists k pool, k ∈ BUFFER_CONFIGS /\ pools p !! k = Some pool /\ inUse pool <> ∅)
  /\ stats p' = stats p
  /\ forall pool, pools p !! "depth"%string = Some pool -> inUse pool = ∅ ->
       pools p' !! "depth"%string = Some (mkPool [] ∅ (lastAccessed pool))
       /\ (counted p -> buffers pool <> [] -> totalBuffers p' < poolSize (stats p')).
Proof.
  unfold clear. intros H.
  pose proof (clear_loop_fails BUFFER_CONFIGS p) as Hf.
  pose proof (clear_loop_frame BUFFER_CONFIGS p) as (_ & _ & _ & _ & _ & Hs & _).
  destruct (clear_loop BUFFER_CONFIGS p) as [[[]|e1] p1] eqn:Hl; [done|].
  injection H as <- <-. cbn [fst snd] in *. destruct (Hf e1 eq_refl) as [-> Hex].
  split; [done|]. split; [done|]. split; [done|].
  intros pool Hp Hiu.
  change BUFFER_CONFIGS with ("depth" :: ["color"; "infrared"; "body"])%string in Hl.
  rewrite (clear_loop_cons_free _ _ _ _ Hp Hiu) in Hl.
  match type of Hl with clear_loop ?l ?q = _ =>
    pose proof (clear_loop_other l q "depth"%string) as Ho;
    pose proof (clear_loop_total l q) as Ht;
    pose proof (clear_loop_frame l q) as (_ & _ & _ & _ & _ & Hs' & _)
  end.
  rewrite Hl in Ho, Ht, Hs'. simpl in Ho, Ht, Hs'.
  split.
  - rewrite Ho by set_solver. apply lookup_insert_eq.
  - intros Hc Hne. rewrite Hs. unfold counted in Hc. rewrite Hc.
    eapply Z.le_lt_trans; [exact Ht|].
    rewrite !totalBuffers_msum. simpl. rewrite (msum_replace _ _ _ _ _ Hp).
    rewrite cnt_empty. unfold cnt, len, size. rewrite Hiu, size_empty.
    destruct (buffers pool); [done|]. simpl. lia.
Qed.

Lemma failed_clear_is_not_atomic_witness :
  exists p0 p e p',
    new 0 Scenario.test_options = Ok p0
    /\ (acquire 1 "color" p0).1.2 = p
    /\ clear 2 p = (Err e, p')
    /\ e = "Cannot clear pool while buffers are in use"%string
    /\ (exists k pool, k ∈ BUFFER_CONFIGS /\ pools p !! k = Some pool /\ inUse pool <> ∅)
    /\ stats p' = stats p
    /\ forall pool, pools p !! "depth"%string = Some pool -> inUse pool = ∅ ->
         pools p' !! "depth"%string = Some (mkPool [] ∅ (lastAccessed pool))
         /\ (counted p -> buffers pool <> [] -> totalBuffers p' < poolSize (stats p')).
Proof.
  do 4 eexists. split; [vm_compute; reflexivity|].
  split; [vm_compute; reflexivity|].
  split; [vm_compute; reflexivity|].
  eapply (failed_clear_is_not_atomic 2). vm_compute. reflexivity.
Defined.

(** Property X10. A pool the constructor returns has
    [1 <= initialSize <= maxPoolSize] and [1 <= expandSize], holds
    [initialSize] free buffers and none in use for each of the four
    kinds, and counts [4 * initialSize] buffers as created and held,
    whatever [maxPoolSize] is. *)
Theorem constructor_preallocates_every_kind now o p :
  new now o = Ok p ->
  1 <= initialSize p <= maxPoolSize p
  /\ 1 <= expandSize p
  /\ stats p = mkStats 0 0 (4 * initialSize p) 0 (4 * initialSize p) 0 None
  /\ totalBuffers p = 4 * initialSize p
  /\ forall k, k ∈ BUFFER_CONFIGS ->
       exists s, pools p !! k = Some (mkPool (seq s (Z.to_nat (initialSize p))) ∅ now).
Proof.
  intros Hnew. pose proof (new_counted _ _ _ Hnew) as Hc. revert Hnew Hc.
  unfold new. destruct (Z.gtb_spec (Z.max 1 (or_default (opt_initialSize o) 5))
                                   (Z.max 1 (or_default (opt_maxPoolSize o) 20))) as [|Hle];
    [done|].
  intros [= <-] Hc.
  match goal with |- context [initializePools now ?q] =>
    destruct (initializePools_spec now q) as (Hi & Hm & He & _ & Hs & Hin)
  end.
  unfold counted in Hc. rewrite <- Hc.
  simpl in *. rewrite Hi, Hm, He, Hs. simpl.
  assert (Z.of_nat (Z.to_nat (Z.max 1 (or_default (opt_initialSize o) 5)))
          = Z.max 1 (or_default (opt_initialSize o) 5)) as -> by lia.
  split; [lia|]. split; [lia|]. split; [done|]. split; [done|].
  intros k Hk. destruct (Hin k Hk) as (s & _ & Hp). by exists s.
Qed.

Lemma constructor_preallocates_every_kind_witness :
  exists p,
    new 0 Scenario.test_options = Ok p
    /\ 1 <= initialSize p <= maxPoolSize p
    /\ 1 <= expandSize p
    /\ stats p = mkStats 0 0 (4 * initialSize p) 0 (4 * initialSize p) 0 None
    /\ totalBuffers p = 4 * initialSize p
    /\ forall k, k ∈ BUFFER_CONFIGS ->
         exists s, pools p !! k = Some (mkPool (seq s (Z.to_nat (initialSize p))) ∅ 0).
Proof.
  eexists. split; [vm_compute; reflexivity|].
  eapply (constructor_preallocates_every_kind 0 Scenario.test_options).
  vm_compute. reflexivity.
Defined.

End BufferPoolClear.

Section DepthSensorExtras.
Import BaseSensor DepthSensor Invariant.

(** Property X11. A depth sensor whose frame queue is within [maxQueueSize]
    keeps it there over any sequence of driver frames, and its
    [missedFrames] counter grows by at most one per frame. *)
Theorem deliver_keeps_queue_bounded now fs s :
  qlen s <= maxQueueSize s ->
  let s' := (deliver now fs s).1 in
  maxQueueSize s' = maxQueueSize s
  /\ qlen s' <= maxQueueSize s
  /\ missed s <= missed s' <= missed s + Z.of_nat (List.length fs).
Proof.
  revert s. induction fs as [|f fs IH]; intros s Hq; simpl.
  - repeat split; try done; lia.
  - pose proof (processFrame_step now f s) as (Hm & _ & Hstep).
    destruct (_processFrame now f s) as [[r s1] out]. simpl in *.
    specialize (IH s1). rewrite Hm in IH.
    assert (qlen s1 <= maxQueueSize s) as Hq1 by (destruct Hstep as [?|?]; lia).
    specialize (IH Hq1).
    destruct (deliver now fs s1) as [s2 out']. simpl in *.
    destruct IH as (Hm2 & Hq2 & Hmiss2).
    split; [done|]. split; [done|]. destruct Hstep as [?|?]; lia.
Qed.

Lemma deliver_keeps_queue_bounded_witness :
  exists s,
    Scenario.depth_sensor = Some s
    /\ qlen s <= maxQueueSize s
    /\ let s' := (deliver 1 Scenario.ten_frames s).1 in
       maxQueueSize s' = maxQueueSize s
       /\ qlen s' <= maxQueueSize s
       /\ missed s <= missed s' <= missed s + Z.of_nat (List.length Scenario.ten_frames).
Proof.
  eexists. split; [vm_compute; reflexivity|].
  split; [vm_compute; discriminate|].
  apply deliver_keeps_queue_bounded. vm_compute. discriminate.
Defined.

End DepthSensorExtras.

Section DepthSensorPosting.
Import BaseSensor DepthSensor Invariant.

(** Property X12. [_processFrame] posts a buffer to the worker only for the
    frame it was called with, and only when the sensor is running, the
    frame has the configured size, the queue is below [maxQueueSize] and
    the pool handed out that buffer; the buffer is then the last element
    of the queue and the current buffer, and no frame was counted as
    missed. *)
Theorem frame_posted_only_when_queued now f s b f' :
  In (postMessage b f') (_processFrame now f s).2 ->
  let s' := (_processFrame now f s).1.2 in
  f' = f
  /\ isRunning (base s) = true
  /\ length f = frameWidth s * frameHeight s * 2
  /\ qlen s < maxQueueSize s
  /\ (BufferPool.acquire now "depth" (bufferPool s)).1.1 = Ok (Some b)
  /\ frameQueue s' = frameQueue s ++ [b]
  /\ currentBuffer s' = Some b
  /\ missed s' = missed s.
Proof.
  unfold _processFrame, qlen, missed.
  destruct (isRunning (base s)) eqn:Hrun; simpl; [|done].
  destruct (processFrame_try now f s) as [[[[]|e] s1] out1] eqn:Htry.
  - (* the try block returned *)
    revert Htry. unfold processFrame_try.
    destruct (Z.eqb_spec (length f) (frameWidth s * frameHeight s * 2)) as [Hsize|Hsize];
      simpl; [|done].
    destruct (Z.geb_spec (Z.of_nat (List.length (frameQueue s))) (maxQueueSize s))
      as [Hfull|Hroom].
    + destruct (releaseBuffer_out now "depth" (head (frameQueue s))
                  (set_queue (tail (frameQueue s)) s)) as [evs Ho].
      destruct (releaseBuffer now "depth" (head (frameQueue s))
                  (set_queue (tail (frameQueue s)) s)) as [[[[]|e] s2] out']; [|done].
      simpl in *. intros [= <- <-]. subst out'. intros [|Hin]; [done|].
      by apply no_post_in_pool_events in Hin.
    + pose proof (acquireBuffer_out now "depth" s) as [Ho Hr].
      pose proof (acquireBuffer_frame now "depth" s) as (Hb & Hq & Hm & Hc & _).
      destruct (acquireBuffer now "depth" s) as [[[[b0|]|e] s1'] out]; simpl in *; [| |done].
      * unfold post. cbn [base set_queue set_current transferred].
        destruct (worker (base s1')); [|done].
        case_bool_decide; [done|]. intros [= <- <-]. rewrite Ho, in_app_iff.
        intros [Hin|[Hin|[]]]; [by apply no_post_in_pool_events in Hin|].
        injection Hin as -> ->. simpl. rewrite Hq, Hb.
        repeat split; try done; lia.
      * intros [= <- <-]. rewrite Ho. intros Hin.
        by apply no_post_in_pool_events in Hin.
  - (* the try block threw: nothing was posted *)
    assert (forall b0 f0, ~ In (postMessage b0 f0) out1) as Hnone.
    { revert Htry. unfold processFrame_try.
      destruct (length f =? frameWidth s * frameHeight s * 2); simpl.
      2:{ intros [= <- <- <-] b0 f0 []. }
      destruct (Z.of_nat (List.length (frameQueue s)) >=? maxQueueSize s).
      - destruct (releaseBuffer_out now "depth" (head (frameQueue s))
                    (set_queue (tail (frameQueue s)) s)) as [evs Ho].
        destruct (releaseBuffer now "depth" (head (frameQueue s))
                    (set_queue (tail (frameQueue s)) s)) as [[[[]|e0] s2] out']; [done|].
        simpl in *. intros [= <- <- <-] b0 f0. subst out'. intros [|Hin]; [done|].
        by apply no_post_in_pool_events in Hin.
      - pose proof (acquireBuffer_out now "depth" s) as [Ho _].
        destruct (acquireBuffer now "depth" s) as [[[[b0|]|e0] s1'] out]; simpl in *; [|done|].
        + unfold post. destruct (worker _).
          * case_bool_decide; [|done]. intros [= <- <- <-] b1 f1.
            rewrite Ho, app_nil_r. apply no_post_in_pool_events.
          * intros [= <- <- <-] b1 f1. rewrite Ho, app_nil_r.
            apply no_post_in_pool_events.
        + intros [= <- <- <-] b1 f1. rewrite Ho. apply no_post_in_pool_events. }
    intros Hin. exfalso.
    destruct (currentBuffer s1) as [b1|].
    + destruct (releaseBuffer_out now "depth" (Some b1) s1) as [evs Ho].
      destruct (releaseBuffer now "depth" (Some b1) s1) as [[[[]|e'] s3] out''];
        simpl in *; subst out''; rewrite !in_app_iff in Hin; simpl in Hin;
        destruct Hin as [[Hin|[|[|[]]]]|Hin]; try done;
        try (by apply Hnone in Hin); by apply no_post_in_pool_events in Hin.
    + simpl in Hin. rewrite in_app_iff in Hin. simpl in Hin.
      destruct Hin as [Hin|[|[|[]]]]; try done. by apply Hnone in Hin.
Qed.

End DepthSensorPosting.

Section DepthSensorCleanup.
Import BaseSensor DepthSensor Invariant.

Lemma frame_posted_only_when_queued_witness :
  exists s b,
    Scenario.depth_sensor = Some s
    /\ In (postMessage b (mkFrame (512 * 424 * 2) 1))
          (_processFrame 1 (mkFrame (512 * 424 * 2) 1) s).2
    /\ let s' := (_processFrame 1 (mkFrame (512 * 424 * 2) 1) s).1.2 in
       mkFrame (512 * 424 * 2) 1 = mkFrame (512 * 424 * 2) 1
       /\ isRunning (base s) = true
       /\ length (mkFrame (512 * 424 * 2) 1) = frameWidth s * frameHeight s * 2
       /\ qlen s < maxQueueSize s
       /\ (BufferPool.acquire 1 "depth" (bufferPool s)).1.1 = Ok (Some b)
       /\ frameQueue s' = frameQueue s ++ [b]
       /\ currentBuffer s' = Some b
       /\ missed s' = missed s.
Proof.
  do 2 eexists. split; [vm_compute; reflexivity|].
  split; [vm_compute; left; reflexivity|].
  apply frame_posted_only_when_queued. vm_compute. left. reflexivity.
Defined.

(** Property X13. A running depth sensor receives a frame of the wrong size
    while [currentBuffer] holds a buffer that the pool has outstanding
    and that was posted to the worker, its ArrayBuffer transferred.  The
    size error is logged and emitted.  With [clearOnRelease] on, the
    release in the [catch] block then throws in [fill(0)], the call
    throws that TypeError, and the sensor is left exactly as it was, the
    buffer still current and outstanding.  With [clearOnRelease] off the
    buffer is released: it is on top of the pool's free list and no
    longer outstanding, while the frame queue, which may still contain
    it, is unchanged, and the call returns. *)
Theorem invalid_frame_releases_posted_buffer now f s b pool :
  isRunning (base s) = true ->
  length f <> frameWidth s * frameHeight s * 2 ->
  currentBuffer s = Some b ->
  BufferPool.pools (bufferPool s) !! "depth"%string = Some pool ->
  b ∈ BufferPool.inUse pool ->
  b ∈ transferred s ->
  let e := ("Invalid frame size: " +:+ pretty (length f) +:+ ", expected: "
              +:+ pretty (frameWidth s * frameHeight s * 2))%string in
  if BufferPool.clearOnRelease (BufferPool.config (bufferPool s)) then
    _processFrame now f s
    = (Err "Cannot perform %TypedArray%.prototype.fill on a detached ArrayBuffer", s,
       [sensor (logError "Error processing depth frame:"); sensor (emitError e)])
  else
    exists s' out pool',
      _processFrame now f s = (Ok tt, s', out)
      /\ frameQueue s' = frameQueue s
      /\ currentBuffer s' = None
      /\ BufferPool.pools (bufferPool s') !! "depth"%string = Some pool'
      /\ last (BufferPool.buffers pool') = Some b
      /\ (b ∉ BufferPool.inUse pool')
      /\ In (sensor (emitError e)) out.
Proof.
  intros Hrun Hsize Hcur Hp Hb Ht e. unfold _processFrame, processFrame_try.
  rewrite Hrun. simpl.
  destruct (Z.eqb_spec (length f) (frameWidth s * frameHeight s * 2)) as [|_]; [done|].
  simpl. rewrite Hcur. unfold releaseBuffer. rewrite (bool_decide_true _ Ht).
  destruct (BufferPool.clearOnRelease (BufferPool.config (bufferPool s))) eqn:Hc.
  - rewrite (release_view_detached _ _ _ _ _ Hp Hb Hc). simpl. by destruct s.
  - destruct (release_view_returns true now "depth" b (bufferPool s) pool Hp Hb)
      as [-> _]; [by rewrite Hc|].
    rewrite (release_ok _ _ _ _ _ Hp Hb). simpl.
    eexists _, _, _. split; [reflexivity|]. simpl.
    split; [done|]. split; [done|]. split; [apply lookup_insert_eq|]. simpl.
    split; [by rewrite last_snoc|]. split; [set_solver|].
    right. left. reflexivity.
Qed.

Lemma invalid_frame_releases_posted_buffer_witness :
  exists s0 s b pool,
    Scenario.depth_sensor = Some s0
    /\ (_processFrame 1 (mkFrame (512 * 424 * 2) 1) s0).1.2 = s
    /\ isRunning (base s) = true
    /\ length (mkFrame 7 2) <> frameWidth s * frameHeight s * 2
    /\ currentBuffer s = Some b
    /\ In b (frameQueue s)
    /\ BufferPool.pools (bufferPool s) !! "depth"%string = Some pool
    /\ b ∈ BufferPool.inUse pool
    /\ b ∈ transferred s
    /\ BufferPool.clearOnRelease (BufferPool.config (bufferPool s)) = true
    /\ let e := ("Invalid frame size: " +:+ pretty (length (mkFrame 7 2)) +:+ ", expected: "
                   +:+ pretty (frameWidth s * frameHeight s * 2))%string in
       if BufferPool.clearOnRelease (BufferPool.config (bufferPool s)) then
         _processFrame 2 (mkFrame 7 2) s
         = (Err "Cannot perform %TypedArray%.prototype.fill on a detached ArrayBuffer", s,
            [sensor (logError "Error processing depth frame:"); sensor (emitError e)])
       else
         exists s' out pool',
           _processFrame 2 (mkFrame 7 2) s = (Ok tt, s', out)
           /\ frameQueue s' = frameQueue s
           /\ currentBuffer s' = None
           /\ BufferPool.pools (bufferPool s') !! "depth"%string = Some pool'
           /\ last (BufferPool.buffers pool') = Some b
           /\ (b ∉ BufferPool.inUse pool')
           /\ In (sensor (emitError e)) out.
Proof.
  do 4 eexists. split; [vm_compute; reflexivity|].
  split; [vm_compute; reflexivity|].
  split; [vm_compute; reflexivity|].
  split; [vm_compute; discriminate|].
  split; [vm_compute; reflexivity|].
  split; [vm_compute; left; reflexivity|].
  split; [vm_compute; reflexivity|].
  assert (4%nat ∈ ({[4%nat]} ∪ ∅ : gset nat)) as Hin
    by (apply elem_of_union_l, elem_of_singleton; reflexivity).
  split; [exact Hin|]. split; [exact Hin|].
  split; [vm_compute; reflexivity|].
  eapply invalid_frame_releases_posted_buffer;
    [vm_compute; reflexivity|vm_compute; discriminate|vm_compute; reflexivity
    |vm_compute; reflexivity|exact Hin|exact Hin].
Defined.

(** Property X14. [cleanup()] of a depth sensor.  When the oldest queued buffer
    is outstanding, was posted to the worker and [clearOnRelease] is on,
    its release throws in [fill(0)]: [cleanup()] fails with that
    TypeError after shifting this one buffer off the queue; the pool and
    the rest of the sensor are untouched, [super.cleanup()] is not
    reached and nothing is emitted.  With an empty queue [cleanup()] is
    the base class's: on a running sensor it fails with
    "this._cleanupResources is not a function", the sensor is marked as
    stopped, but its worker is neither terminated nor forgotten and the
    health-check timer is not cleared; on a stopped sensor it succeeds
    and the worker is gone. *)
Theorem cleanup_stops_at_posted_buffer now s :
  (forall b q pool,
     frameQueue s = b :: q ->
     BufferPool.pools (bufferPool s) !! "depth"%string = Some pool ->
     b ∈ BufferPool.inUse pool ->
     b ∈ transferred s ->
     BufferPool.clearOnRelease (BufferPool.config (bufferPool s)) = true ->
     cleanup now s
     = (Err "Cannot perform %TypedArray%.prototype.fill on a detached ArrayBuffer",
        set_queue q s, []))
  /\ (frameQueue s = [] ->
      exists s' out,
        cleanup now s
        = (if isRunning (base s) then Err "this._cleanupResources is not a function"
           else Ok tt, s', out)
        /\ frameQueue s' = []
        /\ bufferPool s' = bufferPool s
        /\ isRunning (base s') = false
        /\ worker (base s') = (if isRunning (base s) then worker (base s) else None)
        /\ (isRunning (base s) = true ->
            forall o, In o out -> match o with
                                  | inherited (output (workerTerminated _)) => False
                                  | inherited (intervalCleared _) => False
                                  | _ => True
                                  end)).
Proof.
  split.
  - intros b q pool Hq Hp Hb Ht Hc. unfold cleanup. rewrite Hq. cbn [drain].
    unfold releaseBuffer. cbn [transferred set_queue bufferPool].
    rewrite (bool_decide_true _ Ht).
    rewrite (release_view_detached _ _ _ _ _ Hp Hb Hc). simpl. by destruct s.
  - intros Hq. unfold cleanup. rewrite Hq. cbn [drain].
    unfold BaseSensor.cleanup, stop.
    destruct (isRunning (base s)) eqn:Hrun; simpl.
    + eexists _, _. split; [reflexivity|]. simpl.
      split; [done|]. split; [done|]. split; [done|]. split; [done|]. intros _ o.
      intros [<-|[<-|[<-|[]]]]; done.
    + destruct (worker (base s)) as [w|] eqn:Hw; simpl;
        (eexists _, _; split; [reflexivity|]; simpl;
         split; [done|]; split; [done|]; split; [done|]; split; [done|]; done).
Qed.

Lemma cleanup_stops_at_posted_buffer_witness :
  exists s0 s b q pool,
    Scenario.depth_sensor = Some s0
    /\ (deliver 1 (take 2 Scenario.ten_frames) s0).1 = s
    /\ frameQueue s = b :: q
    /\ BufferPool.pools (bufferPool s) !! "depth"%string = Some pool
    /\ b ∈ BufferPool.inUse pool
    /\ b ∈ transferred s
    /\ BufferPool.clearOnRelease (BufferPool.config (bufferPool s)) = true
    /\ isRunning (base s) = true
    /\ cleanup 2 s
       = (Err "Cannot perform %TypedArray%.prototype.fill on a detached ArrayBuffer",
          set_queue q s, [])
    /\ exists s' out,
         cleanup 2 s0
         = (if isRunning (base s0) then Err "this._cleanupResources is not a function"
            else Ok tt, s', out)
         /\ frameQueue s' = []
         /\ bufferPool s' = bufferPool s0
         /\ isRunning (base s') = false
         /\ worker (base s') = (if isRunning (base s0) then worker (base s0) else None)
         /\ (isRunning (base s0) = true ->
             forall o, In o out -> match o with
                                   | inherited (output (workerTerminated _)) => False
                                   | inherited (intervalCleared _) => False
                                   | _ => True
                                   end).
Proof.
  do 5 eexists. split; [vm_compute; reflexivity|].
  split; [vm_compute; reflexivity|].
  split; [vm_compute; reflexivity|].
  split; [vm_compute; reflexivity|].
  assert (4%nat ∈ ({[3%nat]} ∪ ({[4%nat]} ∪ ∅) : gset nat)) as Hin by set_solver.
  assert (4%nat ∈ ({[3%nat]} ∪ ({[4%nat]} ∪ ∅) : gset nat)) as Hin' by set_solver.
  split; [exact Hin|]. split; [exact Hin'|].
  split; [vm_compute; reflexivity|].
  split; [vm_compute; reflexivity|].
  split.
  - match goal with |- cleanup 2 ?s = _ =>
      eapply (proj1 (cleanup_stops_at_posted_buffer 2 s));
        [vm_compute; reflexivity|vm_compute; reflexivity|exact Hin|exact Hin'
        |vm_compute; reflexivity]
    end.
  - match goal with |- context [cleanup 2 ?s0] =>
      apply (proj2 (cleanup_stops_at_posted_buffer 2 s0)); vm_compute; reflexivity
    end.
Defined.

End DepthSensorCleanup.

Section ColorSensorExtras.
Import BaseSensor.

Lemma crashes_below_cap k s :
  isRunning s = true ->
  workerRestartAttempts s + Z.of_nat k <= maxWorkerRestarts s ->
  let s' := Scenario.crashes k s in
  isRunning s' = true
  /\ maxWorkerRestarts s' = maxWorkerRestarts s
  /\ workerRestartAttempts s' = workerRestartAttempts s + Z.of_nat k
  /\ workersCreated s' = (workersCreated s + k)%nat
  /\ (k <> O -> worker s' = Some (workersCreated s + k - 1)%nat).
Proof.
  intros Hrun. induction k as [|k IH]; intros Hk; simpl.
  - repeat split; try done. lia.
  - destruct IH as (Hr & Hm & Ha & Hw & _); [lia|].
    unfold Scenario.crashes in *. simpl.
    set (s1 := Nat.iter k _ s) in *. clearbody s1.
    unfold onWorkerError, _handleWorkerError.
    destruct (Z.geb_spec (workerRestartAttempts s1) (maxWorkerRestarts s1)) as [Hge|Hlt];
      [lia|].
    destruct (worker s1); simpl; rewrite ?Hr, ?Hm, ?Ha, ?Hw;
      (repeat split; try done; try lia; intros _; f_equal; lia).
Qed.

Lemma onWorkerError_max message s :
  maxWorkerRestarts (@onWorkerError ColorSensor.colorSensor message s).1.2
  = maxWorkerRestarts s.
Proof.
  unfold onWorkerError, _handleWorkerError, stop.
  destruct (workerRestartAttempts s >=? maxWorkerRestarts s); simpl.
  - destruct (isRunning s); simpl; [|done]. by destruct (worker s).
  - by destruct (worker s).
Qed.

Lemma crashes_max k s : maxWorkerRestarts (Scenario.crashes k s) = maxWorkerRestarts s.
Proof.
  induction k as [|k IH]; [done|].
  unfold Scenario.crashes in *. simpl. by rewrite onWorkerError_max.
Qed.

(** Property X15. A running colour sensor with [a] restart attempts used out
    of [m] survives exactly [m - a] further worker errors, each of which
    creates one new worker and counts one attempt; from the next error on
    it is stopped, has no worker, and creates no further one. *)
Theorem worker_restarts_are_capped s :
  isRunning s = true ->
  0 <= workerRestartAttempts s <= maxWorkerRestarts s ->
  let left := Z.to_nat (maxWorkerRestarts s - workerRestartAttempts s) in
  (forall k, (k <= left)%nat ->
     isRunning (Scenario.crashes k s) = true
     /\ workerRestartAttempts (Scenario.crashes k s) = workerRestartAttempts s + Z.of_nat k
     /\ workersCreated (Scenario.crashes k s) = (workersCreated s + k)%nat)
  /\ (forall k, (left < k)%nat ->
        isRunning (Scenario.crashes k s) = false
        /\ worker (Scenario.crashes k s) = None
        /\ workerRestartAttempts (Scenario.crashes k s) = maxWorkerRestarts s
        /\ workersCreated (Scenario.crashes k s) = (workersCreated s + left)%nat).
Proof.
  intros Hrun Hcap left. split.
  - intros k Hk. destruct (crashes_below_cap k s Hrun) as (? & ? & ? & ? & _); [lia|done].
  - intros k Hk. induction k as [|k IH]; [lia|].
    pose proof (crashes_max k s) as Hm.
    destruct (decide (k = left)) as [Heq|Hne].
    + destruct (crashes_below_cap k s Hrun) as (Hr & _ & Ha & Hw & _); [lia|].
      unfold Scenario.crashes in *. simpl.
      set (s1 := Nat.iter k _ s) in *. clearbody s1.
      unfold onWorkerError, _handleWorkerError, stop.
      destruct (Z.geb_spec (workerRestartAttempts s1) (maxWorkerRestarts s1)) as [Hge|Hlt];
        [|lia].
      rewrite Hr. simpl. subst left.
      destruct (worker s1) eqn:Hwk; simpl; (repeat split; try done; lia).
    + destruct IH as (Hr & Hwk & Ha & Hw); [lia|].
      unfold Scenario.crashes in *. simpl.
      set (s1 := Nat.iter k _ s) in *. clearbody s1.
      unfold onWorkerError, _handleWorkerError, stop.
      destruct (Z.geb_spec (workerRestartAttempts s1) (maxWorkerRestarts s1)) as [Hge|Hlt];
        [|lia].
      rewrite Hr. simpl. done.
Qed.

Lemma worker_restarts_are_capped_witness :
  let s := (@start ColorSensor.colorSensor 10 true (new 0 "color" (Some 2) None)).1.2 in
  isRunning s = true
  /\ 0 <= workerRestartAttempts s <= maxWorkerRestarts s
  /\ let left := Z.to_nat (maxWorkerRestarts s - workerRestartAttempts s) in
     (forall k, (k <= left)%nat ->
        isRunning (Scenario.crashes k s) = true
        /\ workerRestartAttempts (Scenario.crashes k s) = workerRestartAttempts s + Z.of_nat k
        /\ workersCreated (Scenario.crashes k s) = (workersCreated s + k)%nat)
     /\ (forall k, (left < k)%nat ->
           isRunning (Scenario.crashes k s) = false
           /\ worker (Scenario.crashes k s) = None
           /\ workerRestartAttempts (Scenario.crashes k s) = maxWorkerRestarts s
           /\ workersCreated (Scenario.crashes k s) = (workersCreated s + left)%nat).
Proof.
  intros s. split; [reflexivity|]. split; [vm_compute; split; discriminate|].
  apply worker_restarts_are_capped; [reflexivity|vm_compute; split; discriminate].
Defined.

End ColorSensorExtras.

Section IRWorkerExtras.
Import IRWorker.

Lemma copy_chunk_length n i (frame processed : list Z) :
  length (copy_chunk n i frame processed) = length processed.
Proof.
  revert i processed. induction n as [|n IH]; intros i processed; simpl; [done|].
  rewrite IH. apply length_insert.
Qed.

Lemma copy_chunk_lookup n i (frame processed : list Z) (j : nat) :
  length processed = length frame ->
  (i + n <= length frame)%nat ->
  copy_chunk n i frame processed !! j
  = if decide (i <= j < i + n)%nat then frame !! j else processed !! j.
Proof.
  revert i processed. induction n as [|n IH]; intros i processed Hlen Hn; simpl.
  - destruct (decide _); [lia|done].
  - rewrite IH; [|by rewrite length_insert|lia].
    destruct (decide (j = i)) as [->|Hne].
    + rewrite decide_False by lia. rewrite decide_True by lia.
      rewrite list_lookup_insert_eq by lia.
      destruct (lookup_lt_is_Some_2 frame i ltac:(lia)) as [v Hv].
      rewrite Hv. by rewrite (list_lookup_total_correct _ _ _ Hv).
    + rewrite list_lookup_insert_ne by done.
      destruct (decide (S i <= j < S i + n)%nat), (decide (i <= j < i + S n)%nat);
        try done; lia.
Qed.

Lemma copy_chunks_lookup fuel size offset (frame processed : list Z) (j : nat) :
  (0 < size)%nat ->
  length processed = length frame ->
  (length frame <= offset + fuel * size)%nat ->
  copy_chunks fuel size offset frame processed !! j
  = if decide (offset <= j < length frame)%nat then frame !! j else processed !! j.
Proof.
  intros Hsize. revert offset processed.
  induction fuel as [|fuel IH]; intros offset processed Hlen Hfuel; simpl.
  - destruct (decide _); [lia|done].
  - destruct (offset <? length frame)%nat eqn:Hlt.
    + apply Nat.ltb_lt in Hlt.
      rewrite IH; [|by rewrite copy_chunk_length|lia].
      rewrite copy_chunk_lookup by (done || lia).
      repeat case_decide; try done; lia.
    + apply Nat.ltb_ge in Hlt.
      destruct (decide (offset <= j < length frame)%nat); [lia|done].
Qed.

Lemma copy_chunks_all size (frame : list Z) :
  (0 < size)%nat ->
  copy_chunks (length frame) size 0 frame (repeat 0 (length frame)) = frame.
Proof.
  intros Hsize. apply list_eq. intros j.
  rewrite copy_chunks_lookup; [|done|by rewrite repeat_length|nia].
  destruct (decide (0 <= j < length frame)%nat) as [|Hj]; [done|].
  rewrite !lookup_ge_None_2; [done|lia|rewrite repeat_length; lia].
Qed.

Lemma gamma_loop_lookup n i (data : list Z) (j : nat) :
  (i + n <= length data)%nat ->
  gamma_loop n i data !! j
  = if decide (i <= j < i + n)%nat then gamma <$> data !! j else data !! j.
Proof.
  revert i data. induction n as [|n IH]; intros i data Hn; simpl.
  - destruct (decide _); [lia|done].
  - rewrite IH by (rewrite length_insert; lia).
    destruct (decide (j = i)) as [->|Hne].
    + rewrite decide_False by lia. rewrite decide_True by lia.
      rewrite list_lookup_insert_eq by lia.
      destruct (lookup_lt_is_Some_2 data i ltac:(lia)) as [v Hv].
      rewrite Hv. simpl. by rewrite (list_lookup_total_correct _ _ _ Hv).
    + rewrite list_lookup_insert_ne by done.
      destruct (decide (S i <= j < S i + n)%nat), (decide (i <= j < i + S n)%nat);
        try done; lia.
Qed.

Lemma applyGammaCorrection_map (data : list Z) :
  _applyGammaCorrection data = map gamma data.
Proof.
  unfold _applyGammaCorrection. apply list_eq. intros j.
  rewrite gamma_loop_lookup by (simpl; lia). rewrite list_lookup_fmap.
  cbn [Nat.add]. destruct (decide (0 <= j < length data)%nat) as [|Hj]; [done|].
  rewrite !lookup_ge_None_2; [done|lia].
Qed.

(** Property X16. For a frame of [width * height] elements the infrared worker
    returns the frame itself when gamma correction is off and the frame
    with [gamma] applied to every element when it is on; the chunked
    loops end by themselves, and [gamma] maps 0 to 0 and 65535 to
    65535. *)
Theorem infrared_frame_copied_then_gamma w (frame : list Z) :
  0 < chunkSize w ->
  Z.of_nat (length frame) = frameWidth w * frameHeight w ->
  processFrame w (Some frame)
  = Ok (mkResult (if gammaCorrection (processing w) then map gamma frame else frame)
                 (frameWidth w) (frameHeight w) (format (processing w)))
  /\ gamma 0 = 0 /\ gamma 65535 = 65535.
Proof.
  intros Hc Hlen. split; [|by vm_compute].
  unfold processFrame, _validateFrame. rewrite Hlen, Z.eqb_refl. simpl.
  unfold _processFrameChunks. rewrite copy_chunks_all by lia.
  by rewrite applyGammaCorrection_map.
Qed.

Lemma infrared_frame_copied_then_gamma_witness :
  let w := new 2 2 (mkProcessing true "gray16") in
  let frame := [0; 1000; 40000; 65535] in
  0 < chunkSize w
  /\ Z.of_nat (length frame) = frameWidth w * frameHeight w
  /\ processFrame w (Some frame)
     = Ok (mkResult (if gammaCorrection (processing w) then map gamma frame else frame)
                    (frameWidth w) (frameHeight w) (format (processing w)))
  /\ gamma 0 = 0 /\ gamma 65535 = 65535.
Proof.
  intros w frame. split; [reflexivity|]. split; [reflexivity|].
  apply infrared_frame_copied_then_gamma; reflexivity.
Defined.

End IRWorkerExtras.

Section DepthWorkerExtras.
Import DepthWorker.

Lemma Uint16Array_of_bytes_length (bs : list Z) :
  length (Uint16Array_of_bytes bs) = (length bs / 2)%nat.
Proof.
  induction bs as [bs IH] using (induction_ltof1 _ (@length Z)). unfold ltof in IH.
  destruct bs as [|lo [|hi rest]]; [done..|].
  cbn [Uint16Array_of_bytes length]. rewrite IH by (simpl; lia).
  change (S (S (length rest))) with (2 + length rest)%nat.
  replace (2 + length rest)%nat with (length rest + 1 * 2)%nat by lia.
  rewrite Nat.div_add by lia. lia.
Qed.

(** Property X17. For a worker with [generatePointCloud] and [colorize] off and
    a frame buffer of [width * height * 2] bytes that spans its whole
    ArrayBuffer, the depth worker returns [width * height] elements, and
    every pixel that is 0 or outside the reliable range is stored as 0,
    for every setting of [normalize], [gammaCorrection] and
    [confidenceThreshold]. *)
Theorem unreliable_depth_pixels_are_zeroed width height p c (bs : list Z) :
  Z.of_nat (length bs) = width * height * 2 ->
  exists r,
    processFrame (new width height p c) (Some bs) = Ok r
    /\ Z.of_nat (length (processedFrame r)) = width * height
    /\ forall (i : nat) v,
         Uint16Array_of_bytes bs !! i = Some v ->
         ((minReliableDistance c <=? of_uint16 v)
          && (of_uint16 v <=? maxReliableDistance c)
          && (0 <? of_uint16 v))%float = false ->
         processedFrame r !! i = Some 0.
Proof.
  intros Hlen.
  assert (_validateFrame (new width height p c) (Some bs) = Ok tt) as Hvalid.
  { unfold _validateFrame. simpl. by rewrite Hlen, Z.eqb_refl. }
  rewrite (processFrame_elements _ _ _ _ _ Hvalid). eexists. split; [done|]. simpl.
  split.
  - rewrite length_map, Uint16Array_of_bytes_length.
    assert (length bs = Z.to_nat (width * height) * 2)%nat as -> by lia.
    rewrite Nat.div_mul by lia. lia.
  - intros i v Hi Hbad. rewrite list_lookup_fmap, Hi. simpl. f_equal.
    unfold stored, pixel, _isValidDepth. rewrite Hbad. simpl.
    by destruct (normalize p).
Qed.

Lemma unreliable_depth_pixels_are_zeroed_witness :
  Z.of_nat (length Scenario.depth_pixels) = 3 * 1 * 2
  /\ exists r,
       processFrame (Scenario.depth_worker None) (Some Scenario.depth_pixels) = Ok r
       /\ Z.of_nat (length (processedFrame r)) = 3 * 1
       /\ forall (i : nat) v,
            Uint16Array_of_bytes Scenario.depth_pixels !! i = Some v ->
            ((500 <=? of_uint16 v) && (of_uint16 v <=? 4500) && (0 <? of_uint16 v))%float
            = false ->
            processedFrame r !! i = Some 0.
Proof.
  split; [reflexivity|].
  apply (unreliable_depth_pixels_are_zeroed 3 1 (mkProcessing true true None)
           (mkCalibration 500 4500) Scenario.depth_pixels).
  reflexivity.
Defined.

End DepthWorkerExtras.

Section ColorWorkerExtras.
Import ColorWorker.

(** Property X18. With [forceOpacity] on, the colour worker returns a payload
    of the input's length in which the fourth byte of every pixel is 255
    and the three colour bytes are those of the input; enforcing opacity
    a second time changes nothing. *)
Theorem forced_opacity_sets_every_alpha width height p (bs : list Z) :
  forceOpacity p = true ->
  Z.of_nat (length bs) = width * height * 4 ->
  exists r,
    processFrame (new width height p) (Some bs) = Ok r
    /\ length (processedFrame r) = length bs
    /\ (forall k : nat, Z.of_nat k < width * height ->
          processedFrame r !! (k * 4 + 3)%nat = Some 255
          /\ forall c : nat, (c < 3)%nat ->
               processedFrame r !! (k * 4 + c)%nat = bs !! (k * 4 + c)%nat)
    /\ _enforceOpacity (new width height p) (processedFrame r) = processedFrame r.
Proof.
  intros Hf Hlen.
  unfold processFrame, _validateFrame. rewrite Hlen, Z.eqb_refl. simpl. rewrite Hf.
  unfold _compressFrame.
  assert ((if enabled (compression p) then bs else bs) = bs) as -> by (by destruct (enabled _)).
  eexists. split; [reflexivity|]. simpl.
  split; [apply enforceOpacity_length|]. split.
  - intros k Hk. split.
    + rewrite enforceOpacity_lookup. rewrite decide_True; [done|].
      split; [lia|]. replace (k * 4 + 3)%nat with (3 + k * 4)%nat by lia.
      by rewrite Nat.Div0.mod_add.
    + intros c Hc. rewrite enforceOpacity_lookup. rewrite decide_False; [done|].
      intros [_ Hm]. replace (k * 4 + c)%nat with (c + k * 4)%nat in Hm by lia.
      rewrite Nat.Div0.mod_add, Nat.mod_small in Hm by lia. lia.
  - apply list_eq. intros j. rewrite !enforceOpacity_lookup, enforceOpacity_length.
    destruct (decide _); done.
Qed.

Lemma forced_opacity_sets_every_alpha_witness :
  let p := mkProcessing "rgba" true (mkCompression false 80 "jpeg") in
  let bs := [10; 20; 30; 40; 50; 60; 70; 80] in
  forceOpacity p = true
  /\ Z.of_nat (length bs) = 2 * 1 * 4
  /\ exists r,
       processFrame (new 2 1 p) (Some bs) = Ok r
       /\ length (processedFrame r) = length bs
       /\ (forall k : nat, Z.of_nat k < 2 * 1 ->
             processedFrame r !! (k * 4 + 3)%nat = Some 255
             /\ forall c : nat, (c < 3)%nat ->
                  processedFrame r !! (k * 4 + c)%nat = bs !! (k * 4 + c)%nat)
       /\ _enforceOpacity (new 2 1 p) (processedFrame r) = processedFrame r.
Proof.
  intros p bs. split; [reflexivity|]. split; [reflexivity|].
  apply forced_opacity_sets_every_alpha; reflexivity.
Defined.

End ColorWorkerExtras.

Section BodyWorkerExtras.
Import BodyWorker.

(** No number is below or equal to NaN. *)
Lemma leb_nan (v : float) : (v <=? PrimFloat.nan)%float = false.
Proof.
  rewrite leb_spec. change (Prim2SF PrimFloat.nan) with S754_nan.
  unfold SFleb, SFcompare. by destruct (Prim2SF v) as [| | |[] ? ?].
Qed.

Lemma detectMovements_nil body mc : _detectMovements body mc = [].
Proof.
  unfold _detectMovements. destruct (p_movements body) as [ms|]; [|done].
  induction ms as [|e ms IH]; [done|].
  rewrite filter_cons, IH. rewrite decide_False; [done|].
  unfold movement_confidence, ToNumber. by rewrite leb_nan, andb_false_r.
Qed.

Lemma processBody_trackingId body cfg pb :
  _processBody body cfg = Ok pb -> p_trackingId pb = trackingId body.
Proof.
  unfold _processBody. destruct (joints body); [|done].
  destruct (processJoints _ _ _) as [[js ms]|]; [|done]. simpl.
  destruct (if calculateBoundingBox (metrics cfg) || calculateCenterOfMass (metrics cfg)
            then _ else _); [|done].
  simpl. by intros [= <-].
Qed.

(** Property X19. [_detectMovements] returns no movement, for every processed
    body and every movement configuration, also when a joint's velocity
    is above the threshold: it asks for
    [movement.confidence >= minConfidence], the records
    [_detectMovement] builds have no [confidence] property, and a
    comparison with [undefined], that is with NaN, is false. *)
Theorem no_movement_is_ever_reported body mc :
  _detectMovements body mc = [].
Proof. apply detectMovements_nil. Qed.

Lemma no_movement_is_ever_reported_witness :
  exists pb name m,
    _processBody Scenario.moving_body Scenario.velocity_config = Ok pb
    /\ p_movements pb = Some [(name, m)]
    /\ moving m = true
    /\ (threshold (movement Scenario.velocity_config) <? velocity m)%float = true
    /\ _detectMovements pb (movement Scenario.velocity_config) = [].
Proof.
  do 3 eexists. split; [vm_compute; reflexivity|].
  split; [reflexivity|]. split; [reflexivity|]. split; [vm_compute; reflexivity|].
  apply no_movement_is_ever_reported.
Defined.

(** Property X20. When [_detectGestures] finds a gesture for the first body of
    a frame, the worker remembered a hand position for that body from an
    earlier frame (a first sighting yields no gesture), and
    [processFrame] does not post the gesture: the file never binds
    [parentPort], so the post throws the ReferenceError "parentPort is
    not defined" after the new hand position was stored, and the message
    handler replies to the frame with that error. *)
Theorem detected_gesture_fails_the_frame cfg frame w body rest pb :
  buffer frame = true ->
  bodies frame = Some (body :: rest) ->
  tracked body = true ->
  _processBody body cfg = Ok pb ->
  (_detectGestures pb cfg w).1 <> [] ->
  is_Some (w !! trackingId body)
  /\ processFrame cfg frame w
     = (Err "parentPort is not defined", (_detectGestures pb cfg w).2)
  /\ reply cfg frame w = BaseWorker.failed "parentPort is not defined".
Proof.
  intros Hbuf Hbs Ht Hpb Hg.
  assert (processFrame cfg frame w
          = (Err "parentPort is not defined", (_detectGestures pb cfg w).2)) as Hframe.
  { unfold processFrame. rewrite Hbs, Hbuf. cbn [processBodies]. rewrite Ht, Hpb.
    rewrite detectMovements_nil.
    assert ((if trackVelocity (metrics cfg) then [] else [])
            = ([] : list (string * Movement))) as -> by (by destruct (trackVelocity _)).
    destruct (_detectGestures pb cfg w) as [gestures w1]. simpl in *.
    by destruct gestures. }
  split; [|split; [exact Hframe|]].
  - revert Hg. unfold _detectGestures.
    destruct (lookup_joint "1" (p_joints pb) ≫= position) as [spine|]; [|done].
    destruct (lookup_joint "11" (p_joints pb) ≫= position) as [hand|]; [|done].
    simpl. rewrite (processBody_trackingId _ _ _ Hpb).
    destruct (w !! trackingId body); [by eexists|]. by destruct (_ <? _)%float.
  - unfold reply, BaseWorker.handleFrame. by rewrite Hframe.
Qed.

Lemma detected_gesture_fails_the_frame_witness :
  exists ps w pb,
    processFrame Scenario.body_config (Scenario.swipe_frame 0.3) ∅ = (Ok ps, w)
    /\ _processBody (Scenario.swipe_body 0.9) Scenario.body_config = Ok pb
    /\ (_detectGestures pb Scenario.body_config w).1
       = [mkGesture "swipeRight" "rightHand" 0.60000000000000009]
    /\ is_Some (w !! trackingId (Scenario.swipe_body 0.9))
    /\ processFrame Scenario.body_config (Scenario.swipe_frame 0.9) w
       = (Err "parentPort is not defined", (_detectGestures pb Scenario.body_config w).2)
    /\ reply Scenario.body_config (Scenario.swipe_frame 0.9) w
       = BaseWorker.failed "parentPort is not defined".
Proof.
  do 3 eexists. split; [vm_compute; reflexivity|].
  split; [vm_compute; reflexivity|].
  split; [vm_compute; reflexivity|].
  eapply (detected_gesture_fails_the_frame Scenario.body_config (Scenario.swipe_frame 0.9)
            _ (Scenario.swipe_body 0.9) []);
    [reflexivity|reflexivity|reflexivity|vm_compute; reflexivity|vm_compute; discriminate].
Defined.

End BodyWorkerExtras.

Section ReaderExtras.
Import MultiSourceReader Invariant.

Lemma map_set_keys {V} k (v : V) m :
  map fst (map_set k v m) = if bool_decide (k ∈ map fst m) then map fst m
                            else map fst m ++ [k].
Proof.
  induction m as [|[k' v'] m IH]; cbn [map_set map fst].
  - by rewrite bool_decide_false by set_solver.
  - destruct (decide (k' = k)) as [->|Hne].
    + rewrite bool_decide_true by done. cbn [map fst].
      by rewrite bool_decide_true by set_solver.
    + rewrite bool_decide_false by done. cbn [map fst]. rewrite IH.
      destruct (decide (k ∈ map fst m)) as [Hin|Hin].
      * by rewrite !bool_decide_true by set_solver.
      * by rewrite !bool_decide_false by set_solver.
Qed.

Lemma map_delete_middle {V} k (v : V) pre post :
  k ∉ map fst pre -> map_delete k (pre ++ (k, v) :: post) = pre ++ post.
Proof.
  induction pre as [|[k' v'] pre IH]; cbn [map_delete map fst app]; intros Hk.
  - by rewrite bool_decide_true.
  - rewrite bool_decide_false by set_solver. f_equal. apply IH. set_solver.
Qed.

Lemma dropStaleFrames_loop_spec entries : forall pre now r,
  frameBuffer r = pre ++ entries ->
  NoDup (map fst (pre ++ entries)) ->
  let '(r', evs) := dropStaleFrames_loop entries now r in
  frameBuffer r' = pre ++ List.filter (fun e => negb (stale now r e)) entries
  /\ evs = map (fun e => frameDropped (fst e) (timestamp (snd e)) (now - timestamp (snd e)))
               (List.filter (stale now r) entries)
  /\ droppedFrames (stats r')
     = droppedFrames (stats r) + Z.of_nat (length (List.filter (stale now r) entries))
  /\ syncedFrames (stats r') = syncedFrames (stats r)
  /\ requiredFrameTypes r' = requiredFrameTypes r
  /\ running r' = running r
  /\ bufferOverflows (stats r') = bufferOverflows (stats r)
  /\ bufferSize r' = bufferSize r.
Proof.
  unfold stale.
  induction entries as [|[k d] rest IH]; intros pre now r Hb Hnd.
  - simpl. rewrite app_nil_r in *. repeat split; try done. lia.
  - cbn [dropStaleFrames_loop List.filter snd].
    destruct (now - timestamp d >? dropFramesAfter r) eqn:Hs; cbn [negb].
    + match goal with |- context [dropStaleFrames_loop rest now ?q] => set (r1 := q) end.
      assert (frameBuffer r1 = pre ++ rest) as Hb1.
      { subst r1. simpl. rewrite Hb. apply map_delete_middle.
        rewrite map_app in Hnd. apply NoDup_app in Hnd as (_ & Hd & _).
        intros Hk. apply (Hd k Hk). simpl. set_solver. }
      assert (NoDup (map fst (pre ++ rest))) as Hnd1.
      { rewrite map_app in *. simpl in Hnd. apply NoDup_app in Hnd as (H1 & H2 & H3).
        apply NoDup_cons in H3 as [_ H3]. apply NoDup_app. repeat split; try done.
        intros x Hx Hx'. apply (H2 x Hx). set_solver. }
      specialize (IH pre now r1 Hb1 Hnd1).
      change (dropFramesAfter r1) with (dropFramesAfter r) in IH.
      change (droppedFrames (stats r1)) with (droppedFrames (stats r) + 1) in IH.
      change (syncedFrames (stats r1)) with (syncedFrames (stats r)) in IH.
      change (requiredFrameTypes r1) with (requiredFrameTypes r) in IH.
      change (running r1) with (running r) in IH.
      change (bufferOverflows (stats r1)) with (bufferOverflows (stats r)) in IH.
      change (bufferSize r1) with (bufferSize r) in IH.
      destruct (dropStaleFrames_loop rest now r1) as [r2 evs].
      destruct IH as (Hf & He & Hdrop & Hsy & Hreq & Hrun & Hov & Hbs).
      repeat split; try done.
      * simpl. by f_equal.
      * rewrite Hdrop. simpl. lia.
    + specialize (IH (pre ++ [(k, d)]) now r). rewrite <- !app_assoc in IH. simpl in IH.
      specialize (IH Hb Hnd).
      destruct (dropStaleFrames_loop rest now r) as [r2 evs].
      destruct IH as (Hf & He & Hdrop & Hsy & Hreq & Hrun & Hov & Hbs).
      repeat split; try done.
Qed.

(** Property X21. On a frame buffer with one slot per kind, [#dropStaleFrames]
    removes exactly the slots older than [dropFramesAfter], keeps the
    others in order, emits one [frameDropped] event per removed slot in
    buffer order, and adds their number to [droppedFrames]. *)
Theorem stale_sweep_removes_exactly_the_stale_slots now r :
  NoDup (map fst (frameBuffer r)) ->
  let r' := (dropStaleFrames now r).1 in
  frameBuffer r' = List.filter (fun e => negb (stale now r e)) (frameBuffer r)
  /\ (dropStaleFrames now r).2
     = map (fun e => frameDropped (fst e) (timestamp (snd e)) (now - timestamp (snd e)))
           (List.filter (stale now r) (frameBuffer r))
  /\ droppedFrames (stats r')
     = droppedFrames (stats r)
       + Z.of_nat (length (List.filter (stale now r) (frameBuffer r)))
  /\ syncedFrames (stats r') = syncedFrames (stats r).
Proof.
  intros Hnd. unfold dropStaleFrames.
  pose proof (dropStaleFrames_loop_spec (frameBuffer r) [] now r eq_refl Hnd) as H.
  unfold stale in H.
  destruct (dropStaleFrames_loop (frameBuffer r) now r) as [r' evs]. simpl in *.
  unfold stale. destruct H as (? & ? & ? & ? & _). done.
Qed.

Lemma stale_sweep_removes_exactly_the_stale_slots_witness :
  let r1 := (handleMultiSourceFrame 0 (Scenario.only "depth" 1) Scenario.reader).1 in
  let r := (handleMultiSourceFrame 67 (Scenario.only "color" 2) r1).1 in
  NoDup (map fst (frameBuffer r))
  /\ (dropStaleFrames 70 r).2 = [frameDropped "depth" 0 70]
  /\ let r' := (dropStaleFrames 70 r).1 in
     frameBuffer r' = List.filter (fun e => negb (stale 70 r e)) (frameBuffer r)
     /\ (dropStaleFrames 70 r).2
        = map (fun e => frameDropped (fst e) (timestamp (snd e)) (70 - timestamp (snd e)))
              (List.filter (stale 70 r) (frameBuffer r))
     /\ droppedFrames (stats r')
        = droppedFrames (stats r)
          + Z.of_nat (length (List.filter (stale 70 r) (frameBuffer r)))
     /\ syncedFrames (stats r') = syncedFrames (stats r).
Proof.
  intros r1 r.
  assert (NoDup (map fst (frameBuffer r))) as Hnd
    by (apply (bool_decide_unpack _); vm_compute; exact I).
  split; [exact Hnd|]. split; [vm_compute; reflexivity|].
  apply stale_sweep_removes_exactly_the_stale_slots. exact Hnd.
Defined.

End ReaderExtras.

Section ReaderInvariant.
Import MultiSourceReader Invariant.

Lemma buffer_wf_length r :
  buffer_wf r -> (length (frameBuffer r) <= length (requiredFrameTypes r))%nat.
Proof.
  intros [Hnd Hsub]. rewrite <- (length_map fst (frameBuffer r)).
  apply submseteq_length, NoDup_submseteq; [done|]. intros k Hk. by apply Hsub.
Qed.

Lemma bufferFrame_wf k data now r :
  buffer_wf r -> k ∈ requiredFrameTypes r -> buffer_wf (bufferFrame k data now r).1.
Proof.
  intros [Hnd Hsub] Hk. unfold bufferFrame, handleBufferOverflow.
  destruct (_ >=? _); simpl; [done|]. unfold buffer_wf. simpl.
  rewrite map_set_keys. case_bool_decide; [done|]. split.
  - apply NoDup_app. repeat split; [done| |apply NoDup_singleton].
    intros x Hx Hx'. apply list_elem_of_singleton in Hx' as ->. done.
  - intros x [Hx|Hx]%elem_of_app; [by apply Hsub|].
    by apply list_elem_of_singleton in Hx as ->.
Qed.

Lemma bufferFrame_no_overflow k data now r :
  Z.of_nat (length (frameBuffer r)) < bufferSize r ->
  (bufferFrame k data now r).2 = []
  /\ bufferOverflows (stats (bufferFrame k data now r).1) = bufferOverflows (stats r)
  /\ bufferSize (bufferFrame k data now r).1 = bufferSize r.
Proof.
  intros Hlt. unfold bufferFrame.
  destruct (Z.geb_spec (Z.of_nat (length (frameBuffer r))) (bufferSize r)); [lia|done].
Qed.

Lemma processFrameData_loop_wf types f now r :
  buffer_wf r ->
  (forall k, k ∈ types -> k ∈ requiredFrameTypes r) ->
  buffer_wf (processFrameData_loop types f now r).1
  /\ (Z.of_nat (length (requiredFrameTypes r)) < bufferSize r ->
      (processFrameData_loop types f now r).2 = []
      /\ bufferOverflows (stats (processFrameData_loop types f now r).1)
         = bufferOverflows (stats r)
      /\ bufferSize (processFrameData_loop types f now r).1 = bufferSize r).
Proof.
  revert r. induction types as [|k rest IH]; intros r Hwf Hty; simpl; [done|].
  destruct (f !! k) as [data|]; [|apply IH; [done|set_solver]].
  pose proof (bufferFrame_wf k data now r Hwf ltac:(set_solver)) as Hwf1.
  pose proof (bufferFrame_config k data now r) as [Hreq _].
  pose proof (bufferFrame_no_overflow k data now r) as Hno.
  destruct (bufferFrame k data now r) as [r1 evs]. simpl in *.
  specialize (IH r1 Hwf1). rewrite Hreq in IH.
  destruct IH as [Hwf2 Hno2]; [set_solver|].
  destruct (processFrameData_loop rest f now r1) as [r2 evs']. simpl in *.
  split; [done|]. intros Hsmall.
  pose proof (buffer_wf_length r Hwf).
  destruct Hno as (-> & Ho & Hs); [lia|].
  rewrite Hs in Hno2. destruct (Hno2 Hsmall) as (-> & -> & ->). done.
Qed.

Lemma filter_wf (P : string * Slot -> bool) r b :
  buffer_wf r -> frameBuffer b = List.filter P (frameBuffer r) ->
  requiredFrameTypes b = requiredFrameTypes r -> buffer_wf b.
Proof.
  intros [Hnd Hsub] Hb Hr. unfold buffer_wf. rewrite Hb, Hr.
  assert (map fst (List.filter P (frameBuffer r)) `sublist_of` map fst (frameBuffer r))
    as Hsl.
  { clear. induction (frameBuffer r) as [|e l IH]; simpl; [done|].
    destruct (P e); simpl; [by apply sublist_skip|by apply sublist_cons]. }
  split; [by eapply sublist_NoDup|].
  intros k Hk. apply Hsub. by eapply sublist_subseteq.
Qed.

Lemma checkSynchronization_wf now r :
  buffer_wf r ->
  buffer_wf (checkSynchronization now r).1
  /\ Forall (fun e => match e with bufferOverflow _ _ _ => False | _ => True end)
            (checkSynchronization now r).2
  /\ bufferOverflows (stats (checkSynchronization now r).1) = bufferOverflows (stats r)
  /\ requiredFrameTypes (checkSynchronization now r).1 = requiredFrameTypes r
  /\ bufferSize (checkSynchronization now r).1 = bufferSize r.
Proof.
  intros Hwf. unfold checkSynchronization.
  set (r0 := set_stats _ r).
  assert (buffer_wf r0) as Hwf0 by done.
  destruct (isFrameBufferComplete r0); simpl;
    [|split; [done|split; [by constructor|done]]].
  assert (buffer_wf (emitSynchronizedFrame now r0).1
          /\ Forall (fun e => match e with bufferOverflow _ _ _ => False | _ => True end)
                    (emitSynchronizedFrame now r0).2
          /\ bufferOverflows (stats (emitSynchronizedFrame now r0).1)
             = bufferOverflows (stats r)
          /\ requiredFrameTypes (emitSynchronizedFrame now r0).1 = requiredFrameTypes r
          /\ bufferSize (emitSynchronizedFrame now r0).1 = bufferSize r) as Hemit.
  { simpl. split; [|split; [by repeat constructor|done]].
    split; [apply NoDup_nil_2|]. intros k Hk. by apply elem_of_nil in Hk. }
  destruct (map (fun e => now - timestamp (snd e)) (frameBuffer r)) as [|d ds]; [done|].
  destruct (_ <=? _); [done|].
  destruct (_ >? _); [|split; [done|split; [by constructor|done]]].
  destruct Hwf0 as [Hnd0 Hsub0].
  pose proof (dropStaleFrames_loop_spec (frameBuffer r0) [] now r0 eq_refl Hnd0) as H.
  unfold dropStaleFrames.
  destruct (dropStaleFrames_loop (frameBuffer r0) now r0) as [r' evs]. simpl in H.
  destruct H as (Hf & He & _ & _ & Hreq & _ & Hov & Hbs). simpl.
  split; [by eapply (filter_wf _ r0 r')|].
  split.
  { rewrite He. apply Forall_forall. intros e (x & -> & _)%list_elem_of_fmap. done. }
  done.
Qed.

(** Property X22. Handling a driver frame keeps the reader's frame buffer to
    one slot per kind and to required kinds only, so it never holds more
    slots than there are required kinds; when [bufferSize] exceeds that
    number, no [bufferOverflow] event is emitted and the overflow counter
    does not move. *)
Theorem reader_buffers_each_required_kind_once now driverFrame r :
  buffer_wf r ->
  let r' := (handleMultiSourceFrame now driverFrame r).1 in
  buffer_wf r'
  /\ (length (frameBuffer r') <= length (requiredFrameTypes r))%nat
  /\ (Z.of_nat (length (requiredFrameTypes r)) < bufferSize r ->
      bufferOverflows (stats r') = bufferOverflows (stats r)
      /\ forall k n ts, ~ In (bufferOverflow k n ts)
                           (handleMultiSourceFrame now driverFrame r).2).
Proof.
  intros Hwf. unfold handleMultiSourceFrame.
  destruct driverFrame as [f|].
  2:{ simpl. split; [done|]. split; [by apply buffer_wf_length|]. intros _. split; [done|]. by intros k n ts []. }
  destruct (running r).
  2:{ simpl. split; [done|]. split; [by apply buffer_wf_length|]. intros _. split; [done|]. by intros k n ts []. }
  unfold processFrameData.
  pose proof (processFrameData_loop_wf (requiredFrameTypes r) f now r Hwf ltac:(done))
    as [Hwf1 Hno].
  pose proof (processFrameData_loop_spec (requiredFrameTypes r) f now r) as (Hreq & _ & _).
  destruct (processFrameData_loop (requiredFrameTypes r) f now r) as [r1 evs]. simpl in *.
  pose proof (checkSynchronization_wf now r1 Hwf1) as (Hwf2 & Hev & Ho & Hreq2 & Hs2).
  destruct (checkSynchronization now r1) as [r2 evs']. simpl in *.
  split; [done|]. split.
  { rewrite <- Hreq, <- Hreq2. by apply buffer_wf_length. }
  intros Hsmall. destruct (Hno Hsmall) as (-> & Ho1 & _). split; [congruence|].
  intros k n ts Hin. simpl in Hin. rewrite Forall_forall in Hev.
  apply list_elem_of_In in Hin. by apply (Hev _ Hin).
Qed.

Lemma reader_buffers_each_required_kind_once_witness :
  let r := (handleMultiSourceFrame 0 (Scenario.only "depth" 1) Scenario.reader).1 in
  buffer_wf Scenario.reader
  /\ buffer_wf r
  /\ (length (frameBuffer r) <= length (requiredFrameTypes Scenario.reader))%nat
  /\ (Z.of_nat (length (requiredFrameTypes Scenario.reader)) < bufferSize Scenario.reader ->
      bufferOverflows (stats r) = bufferOverflows (stats Scenario.reader)
      /\ forall k n ts, ~ In (bufferOverflow k n ts)
                           (handleMultiSourceFrame 0 (Scenario.only "depth" 1)
                                                   Scenario.reader).2).
Proof.
  intros r.
  assert (buffer_wf Scenario.reader) as Hwf.
  { split; [apply NoDup_nil_2|]. intros k Hk. by apply elem_of_nil in Hk. }
  split; [exact Hwf|].
  apply (reader_buffers_each_required_kind_once 0 (Scenario.only "depth" 1)
           Scenario.reader Hwf).
Defined.

End ReaderInvariant.

Section WebSocketExtras.
Import WebSocketService.

(** Property X23. An [identify] message on any known socket, identified or
    not, open or not, records the client info under the connection's id,
    cancels the identification timer, adds the socket to the clients and
    emits [clientConnected]; the [welcome] reply is sent only if the
    socket is open. *)
Theorem identify_registers_the_socket now ws data clientId svc s :
  sockets svc !! ws = Some s ->
  parseMessage (wellFormed (JObj data)) = Ok data ->
  is_string "identify" (field "type" data) = true ->
  exists s',
    handleMessage now ws (wellFormed (JObj data)) clientId svc
    = (mkService (sessionId svc) (<[ws := s']> (sockets svc)) ({[ws]} ∪ clients svc),
       [log "info" ("Client identified: " +:+ clientId); clientConnected clientId])
    /\ (exists info, clientInfo s' = Some info /\ id info = clientId)
    /\ identificationTimeout s' = false
    /\ readyState s' = readyState s
    /\ closed s' = closed s
    /\ sent s'
       = sent s ++
         match readyState s with
         | OPEN => [JObj [("type", JStr "welcome"); ("sessionId", JStr (sessionId svc));
                          ("serverVersion", JStr "2.0"); ("timestamp", JStr now)]%string]
         | _ => []
         end.
Proof.
  intros Hs Hparse Hid. unfold handleMessage. rewrite Hs, Hparse. simpl. rewrite Hid.
  unfold handleIdentification. eexists. split; [reflexivity|].
  unfold send. simpl. destruct (readyState s) eqn:Hr; simpl;
    repeat split; try done; (try by eexists); by rewrite ?app_nil_r.
Qed.

Lemma identify_registers_the_socket_witness :
  exists s s',
    sockets Scenario.pending !! 0%nat = Some s
    /\ handleMessage "T" 0 Scenario.identify "client-a" Scenario.pending
       = (mkService (sessionId Scenario.pending) (<[0%nat := s']> (sockets Scenario.pending))
                    ({[0%nat]} ∪ clients Scenario.pending),
          [log "info" ("Client identified: " +:+ "client-a");
           clientConnected "client-a"])
    /\ (exists info, clientInfo s' = Some info /\ id info = "client-a"%string)
    /\ identificationTimeout s' = false
    /\ readyState s' = readyState s
    /\ closed s' = closed s
    /\ sent s'
       = sent s ++
         match readyState s with
         | OPEN => [JObj [("type", JStr "welcome");
                          ("sessionId", JStr (sessionId Scenario.pending));
                          ("serverVersion", JStr "2.0"); ("timestamp", JStr "T")]%string]
         | _ => []
         end.
Proof.
  eexists. 
  destruct (identify_registers_the_socket "T" 0
              [("type", JStr "identify"); ("name", JStr "viewer")]%string
              "client-a" Scenario.pending
              (mkSocket OPEN None
                 [JObj [("type", JStr "identify"); ("clientId", JStr "client-a")]%string]
                 None true))
    as (s' & H); [reflexivity..|].
  exists s'. split; [reflexivity|]. exact H.
Defined.

(** Property X24. The service emits a [message] event only for a well-formed
    message, other than [identify], that arrives on an identified socket;
    the event carries the parsed message and the connection's id, and the
    service state is unchanged. *)
Theorem messages_come_from_identified_clients now ws raw clientId svc data clientId' :
  In (message data clientId') (handleMessage now ws raw clientId svc).2 ->
  clientId' = clientId
  /\ parseMessage raw = Ok data
  /\ is_string "identify" (field "type" data) = false
  /\ (exists s info, sockets svc !! ws = Some s /\ clientInfo s = Some info)
  /\ handleMessage now ws raw clientId svc = (svc, [message data clientId]).
Proof.
  unfold handleMessage. destruct (sockets svc !! ws) as [s|] eqn:Hs; [|by intros []].
  destruct (parseMessage raw) as [d|e]; simpl.
  2:{ intros [|[]]; done. }
  destruct (is_string "identify" (field "type" d)) eqn:Hid; simpl.
  { intros [|[|[]]]; done. }
  destruct (clientInfo s) as [info|] eqn:Hinfo; simpl.
  2:{ intros [|[]]; done. }
  intros [[= <- <-]|[]]. repeat split; try done. by exists s, info.
Qed.

Lemma messages_come_from_identified_clients_witness :
  let svc := (handleMessage "T" 0 Scenario.identify "client-a" Scenario.pending).1 in
  exists data,
    In (message data "client-a") (handleMessage "U" 0 Scenario.start_sensor "client-a" svc).2
    /\ "client-a"%string = "client-a"%string
    /\ parseMessage Scenario.start_sensor = Ok data
    /\ is_string "identify" (field "type" data) = false
    /\ (exists s info, sockets svc !! 0%nat = Some s /\ clientInfo s = Some info)
    /\ handleMessage "U" 0 Scenario.start_sensor "client-a" svc
       = (svc, [message data "client-a"]).
Proof.
  intros svc. eexists.
  split; [vm_compute; left; reflexivity|].
  apply messages_come_from_identified_clients. vm_compute. left. reflexivity.
Defined.

Lemma broadcast_lookup data svc ws :
  sockets (broadcast true data svc) !! ws
  = if bool_decide (ws ∈ clients svc) then send data <$> sockets svc !! ws
    else sockets svc !! ws.
Proof.
  unfold broadcast. simpl.
  pose proof (set_fold_ind_L
                (fun (acc : gmap nat Socket) (X : gset nat) =>
                   acc !! ws = if bool_decide (ws ∈ X) then send data <$> sockets svc !! ws
                               else sockets svc !! ws)
                (fun ws acc => alter (send data) ws acc) (sockets svc)) as Hind.
  apply Hind; clear Hind.
  - by rewrite bool_decide_false by set_solver.
  - intros x X acc Hx IH. destruct (decide (ws = x)) as [->|Hne].
    + rewrite lookup_alter_eq, IH. rewrite bool_decide_false by done.
      by rewrite bool_decide_true by set_solver.
    + rewrite lookup_alter_ne by done. rewrite IH.
      destruct (decide (ws ∈ X)).
      * by rewrite !bool_decide_true by set_solver.
      * by rewrite !bool_decide_false by set_solver.
Qed.

(** Property X25. [broadcast] appends the message to the sockets that are
    clients and open, and to no other; it does nothing when the server is
    not up, and it never changes the set of clients. *)
Theorem broadcast_reaches_open_clients_only wss data svc ws s :
  sockets svc !! ws = Some s ->
  sockets (broadcast wss data svc) !! ws
  = Some (if wss && bool_decide (ws ∈ clients svc)
          then match readyState s with
               | OPEN => mkSocket (readyState s) (clientInfo s) (sent s ++ [data])
                                  (closed s) (identificationTimeout s)
               | _ => s
               end
          else s)
  /\ clients (broadcast wss data svc) = clients svc
  /\ dom (sockets (broadcast wss data svc)) = dom (sockets svc).
Proof.
  intros Hs. destruct wss; simpl; [|done].
  split; [|split; [done|]].
  - pose proof (broadcast_lookup data svc ws) as H. simpl in H. rewrite H, Hs.
    by case_bool_decide.
  - apply set_eq. intros k. rewrite !elem_of_dom.
    pose proof (broadcast_lookup data svc k) as H. simpl in H. rewrite H.
    case_bool_decide; [|done]. by rewrite fmap_is_Some.
Qed.

Lemma broadcast_reaches_open_clients_only_witness :
  let svc := (handleMessage "T" 0 Scenario.identify "client-a" Scenario.pending).1 in
  exists s,
    sockets svc !! 0%nat = Some s
    /\ sockets (broadcast true (JStr "frame") svc) !! 0%nat
       = Some (if true && bool_decide (0%nat ∈ clients svc)
               then match readyState s with
                    | OPEN => mkSocket (readyState s) (clientInfo s)
                                       (sent s ++ [JStr "frame"]) (closed s)
                                       (identificationTimeout s)
                    | _ => s
                    end
               else s)
    /\ clients (broadcast true (JStr "frame") svc) = clients svc
    /\ dom (sockets (broadcast true (JStr "frame") svc)) = dom (sockets svc).
Proof.
  intros svc. eexists. split; [vm_compute; reflexivity|].
  apply broadcast_reaches_open_clients_only. vm_compute. reflexivity.
Defined.

Lemma startServer_finds_next_free taken k : forall fuel p,
  (k < fuel)%nat ->
  0 <= p ->
  p + Z.of_nat k <= 65535 ->
  (forall i : nat, (i < k)%nat -> taken (p + Z.of_nat i) = true) ->
  taken (p + Z.of_nat k) = false ->
  startServer fuel taken p
  = (Some (Ok (p + Z.of_nat k)),
     map (fun i : nat => log "warn" ("Port " +:+ pretty (p + Z.of_nat i) +:+ " in use, trying "
                                 +:+ pretty (p + Z.of_nat i + 1) +:+ "..."))
         (seq 0 k)
     ++ [log "info" ("WebSocket server listening on port " +:+ pretty (p + Z.of_nat k))]).
Proof.
  induction k as [|k IH]; intros fuel p Hfuel Hlo Hhi Htaken Hfree.
  - destruct fuel; [lia|]. cbn [startServer]. rewrite Z.add_0_r in *.
    replace ((p <? 0) || (65535 <? p)) with false by (symmetry; apply orb_false_iff; lia).
    by rewrite Hfree.
  - destruct fuel; [lia|]. cbn [startServer].
    replace ((p <? 0) || (65535 <? p)) with false by (symmetry; apply orb_false_iff; lia).
    assert (taken p = true) as ->
      by (rewrite <- (Z.add_0_r p); apply (Htaken O); lia).
    rewrite (IH fuel (p + 1)).
    + replace (p + 1 + Z.of_nat k) with (p + Z.of_nat (S k)) by lia.
      cbn [seq map app]. rewrite Z.add_0_r. do 3 f_equal.
      rewrite <- seq_shift, map_map. apply map_ext. intros i.
      by replace (p + 1 + Z.of_nat i) with (p + Z.of_nat (S i)) by lia.
    + lia.
    + lia.
    + lia.
    + intros i Hi. replace (p + 1 + Z.of_nat i) with (p + Z.of_nat (S i)) by lia.
      apply Htaken. lia.
    + by replace (p + 1 + Z.of_nat k) with (p + Z.of_nat (S k)) by lia.
Qed.

(** When every port from [p] up to 65535 is taken, the attempt on port
    65536 makes [listen] throw and the promise rejects. *)
Lemma startServer_runs_out_of_ports taken k : forall fuel p,
  (k < fuel)%nat ->
  0 <= p ->
  p + Z.of_nat k = 65536 ->
  (forall i : nat, (i < k)%nat -> taken (p + Z.of_nat i) = true) ->
  exists evs,
    startServer fuel taken p
    = (Some (Err "options.port should be >= 0 and < 65536. Received type number (65536)."),
       evs)
    /\ length evs = k.
Proof.
  induction k as [|k IH]; intros fuel p Hfuel Hlo Hhi Htaken.
  - destruct fuel; [lia|]. cbn [startServer]. rewrite Z.add_0_r in Hhi. subst p.
    eexists. split; [reflexivity|done].
  - destruct fuel; [lia|]. cbn [startServer].
    replace ((p <? 0) || (65535 <? p)) with false by (symmetry; apply orb_false_iff; lia).
    assert (taken p = true) as ->
      by (rewrite <- (Z.add_0_r p); apply (Htaken O); lia).
    destruct (IH fuel (p + 1)) as (evs & -> & Hlen); [lia|lia|lia| |].
    + intros i Hi. replace (p + 1 + Z.of_nat i) with (p + Z.of_nat (S i)) by lia.
      apply Htaken. lia.
    + eexists. split; [reflexivity|]. simpl. by rewrite Hlen.
Qed.

(** Property X26. [start()] tries the configured port (8008 when none or 0 is
    configured; taken here not to be negative) and then the next ones
    while they are in use, logging one warning per port in use.  It binds the first free port and logs
    it, if there is one up to 65535; if every port up to 65535 is in
    use, the attempt on 65536 makes [listen] throw and [start()]
    rejects. *)
Theorem server_binds_first_free_port fuel taken port k :
  let first := match port with
               | Some p => if p =? 0 then DEFAULT_PORT else p
               | None => DEFAULT_PORT
               end in
  (k < fuel)%nat ->
  0 <= first ->
  first + Z.of_nat k <= 65536 ->
  (forall i : nat, (i < k)%nat -> taken (first + Z.of_nat i) = true) ->
  (first + Z.of_nat k <= 65535 -> taken (first + Z.of_nat k) = false) ->
  exists evs,
    start fuel taken port
    = (Some (if first + Z.of_nat k <=? 65535 then Ok (first + Z.of_nat k)
             else Err "options.port should be >= 0 and < 65536. Received type number (65536)."),
       evs)
    /\ length evs = (if first + Z.of_nat k <=? 65535 then S k else k)
    /\ (first + Z.of_nat k <= 65535 ->
        last evs = Some (log "info" ("WebSocket server listening on port "
                                       +:+ pretty (first + Z.of_nat k)))).
Proof.
  intros first Hfuel Hlo Hhi Htaken Hfree. unfold start. fold first.
  destruct (Z.leb_spec (first + Z.of_nat k) 65535) as [Hin|Hout].
  - rewrite (startServer_finds_next_free taken k fuel first Hfuel Hlo Hin Htaken (Hfree Hin)).
    eexists. split; [reflexivity|]. split.
    + rewrite length_app, length_map, length_seq. simpl. lia.
    + intros _. by rewrite last_snoc.
  - destruct (startServer_runs_out_of_ports taken k fuel first Hfuel Hlo) as (evs & -> & Hlen);
      [lia|done|].
    eexists. split; [reflexivity|]. split; [done|]. lia.
Qed.

Lemma server_binds_first_free_port_witness :
  (exists evs,
     start 5 (fun p => p <? 8010) None
     = (Some (if DEFAULT_PORT + Z.of_nat 2 <=? 65535 then Ok (DEFAULT_PORT + Z.of_nat 2)
              else Err "options.port should be >= 0 and < 65536. Received type number (65536)."),
        evs)
     /\ length evs = (if DEFAULT_PORT + Z.of_nat 2 <=? 65535 then 3%nat else 2%nat)
     /\ (DEFAULT_PORT + Z.of_nat 2 <= 65535 ->
         last evs = Some (log "info" ("WebSocket server listening on port "
                                        +:+ pretty (DEFAULT_PORT + Z.of_nat 2)))))
  /\ (exists evs,
        start 5 (fun _ => true) (Some 65534)
        = (Some (if 65534 + Z.of_nat 2 <=? 65535 then Ok (65534 + Z.of_nat 2)
                 else Err "options.port should be >= 0 and < 65536. Received type number (65536)."),
           evs)
        /\ length evs = (if 65534 + Z.of_nat 2 <=? 65535 then 3%nat else 2%nat)
        /\ (65534 + Z.of_nat 2 <= 65535 ->
            last evs = Some (log "info" ("WebSocket server listening on port "
                                           +:+ pretty (65534 + Z.of_nat 2))))).
Proof.
  split.
  - apply (server_binds_first_free_port 5 (fun p => p <? 8010) None 2).
    + lia.
    + unfold DEFAULT_PORT. lia.
    + unfold DEFAULT_PORT. lia.
    + intros i Hi. unfold DEFAULT_PORT. apply Z.ltb_lt. lia.
    + reflexivity.
  - apply (server_binds_first_free_port 5 (fun _ => true) (Some 65534) 2).
    + lia.
    + simpl. lia.
    + simpl. lia.
    + reflexivity.
    + simpl. lia.
Defined.

End WebSocketExtras.

Section LoggingExtras.
Import LoggingService.

Lemma LOG_LEVELS_cases level n :
  LOG_LEVELS level = Some n ->
  level = "error"%string /\ n = 0 \/ level = "warn"%string /\ n = 1
  \/ level = "info"%string /\ n = 2 \/ level = "debug"%string /\ n = 3.
Proof.
  unfold LOG_LEVELS. repeat case_bool_decide; intros [= <-]; auto 6.
Qed.

(** Property X27. [LOG_LEVELS.error] is 0, hence falsy: a [log] call at level
    "error" is answered with the warning "Invalid log level: error" and
    records nothing, at every current level, and [setLogLevel("error")]
    throws.  The levels that can be logged are "warn", "info" and
    "debug", up to the rank of the current level. *)
Theorem error_level_is_never_logged l :
  (forall now clock message data,
     log now clock "error" message data l
     = (l, [consoleWarn "Invalid log level: error"]))
  /\ setLogLevel "error" l = Err "Invalid log level: error"
  /\ (forall level, shouldLog l level = true ->
        exists n current,
          LOG_LEVELS level = Some n /\ LOG_LEVELS (currentLogLevel l) = Some current
          /\ 1 <= n <= current
          /\ level ∈ ["warn"; "info"; "debug"]%string).
Proof.
  split; [done|]. split; [done|].
  intros level. unfold shouldLog, not_a_level.
  destruct (LOG_LEVELS level) as [n|] eqn:Hn; [|done].
  destruct (Z.eqb_spec n 0) as [|Hn0]; [done|].
  destruct (LOG_LEVELS (currentLogLevel l)) as [current|]; [|done].
  intros Hle%Z.leb_le. exists n, current.
  destruct (LOG_LEVELS_cases _ _ Hn) as [[-> ->]|[[-> ->]|[[-> ->]|[-> ->]]]];
    [done|..]; (repeat split; [done..|lia|lia|set_solver]).
Qed.

(** Property X28. With a positive [maxMemoryEntries], a logged entry is
    appended to the session log and the log is cut from the front to its
    newest [maxMemoryEntries] entries, so the new entry is always its
    last one. *)
Theorem session_log_keeps_newest_entries now clock level message data l :
  0 < maxMemoryEntries l ->
  Z.of_nat (length (sessionLog l)) <= maxMemoryEntries l ->
  shouldLog l level = true ->
  let l' := (log now clock level message data l).1 in
  let pushed := sessionLog l ++ [mkEntry now level message data] in
  sessionLog l' = drop (length pushed - Z.to_nat (maxMemoryEntries l)) pushed
  /\ Z.of_nat (length (sessionLog l')) <= maxMemoryEntries l
  /\ last (sessionLog l') = Some (mkEntry now level message data)
  /\ maxMemoryEntries l' = maxMemoryEntries l
  /\ currentLogLevel l' = currentLogLevel l.
Proof.
  intros Hmax Hlen Hlog l' pushed. subst l'. unfold log. rewrite Hlog. cbn [negb fst].
  assert (length pushed = S (length (sessionLog l))) as Hp
    by (subst pushed; rewrite length_app; simpl; lia).
  assert (sessionLog (addToMemoryBuffer (mkEntry now level message data)
             (mkLogger (currentLogLevel l) (maxMemoryEntries l) (sessionLog l) false))
          = drop (length pushed - Z.to_nat (maxMemoryEntries l)) pushed) as Heq.
  { unfold addToMemoryBuffer. simpl. fold pushed.
    destruct (Z.gtb_spec (Z.of_nat (length pushed)) (maxMemoryEntries l)) as [Hgt|Hle].
    - unfold slice. destruct (Z.ltb_spec (- maxMemoryEntries l) 0); [|lia].
      f_equal. lia.
    - replace (length pushed - Z.to_nat (maxMemoryEntries l))%nat with O by lia. done. }
  rewrite Heq. split; [done|]. split; [rewrite length_drop; lia|].
  split; [|done].
  subst pushed. rewrite drop_app_le by lia. by rewrite last_snoc.
Qed.

Lemma session_log_keeps_newest_entries_witness :
  let l := mkLogger "info" 2 [mkEntry "t1" "info" "a" None; mkEntry "t2" "warn" "b" None]
                    false in
  0 < maxMemoryEntries l
  /\ Z.of_nat (length (sessionLog l)) <= maxMemoryEntries l
  /\ shouldLog l "warn" = true
  /\ let l' := (log "t3" "c3" "warn" "c" None l).1 in
     let pushed := sessionLog l ++ [mkEntry "t3" "warn" "c" None] in
     sessionLog l' = drop (length pushed - Z.to_nat (maxMemoryEntries l)) pushed
     /\ Z.of_nat (length (sessionLog l')) <= maxMemoryEntries l
     /\ last (sessionLog l') = Some (mkEntry "t3" "warn" "c" None)
     /\ maxMemoryEntries l' = maxMemoryEntries l
     /\ currentLogLevel l' = currentLogLevel l.
Proof.
  intros l. split; [reflexivity|]. split; [vm_compute; discriminate|].
  split; [reflexivity|].
  apply session_log_keeps_newest_entries;
    [reflexivity|vm_compute; discriminate|reflexivity].
Defined.

End LoggingExtras.

Section HandshakeExtras.
Import WebSocketService.

(** Property X29. The identification handshake between [KinectClient] and the
    service composes: the server's [identify] request makes an open
    client answer with its identification, the server accepts the answer,
    records the client's name and platform, and replies [welcome]; the
    client then is connected, holds the server's session id and the id
    the server gave it, and emits [ready]. *)
Theorem client_and_server_complete_the_handshake now ws clientId os svc c :
  KinectClient.readyState c = OPEN ->
  os <> ""%string ->
  let '(svc1, _) := handleConnection ws clientId svc in
  exists request,
    (sent <$> sockets svc1 !! ws) = Some [JObj request]
    /\ let '(c1, _) := KinectClient.handleMessage os request c in
       exists answer,
         KinectClient.sent c1 = KinectClient.sent c ++ [JObj answer]
         /\ let '(svc2, evs) := handleMessage now ws (wellFormed (JObj answer)) clientId svc1 in
            exists s2 info welcome,
              sockets svc2 !! ws = Some s2
              /\ ws ∈ clients svc2
              /\ In (clientConnected clientId) evs
              /\ clientInfo s2 = Some info
              /\ id info = clientId
              /\ name info = JStr "Kinect Client"
              /\ platform info = JStr os
              /\ identificationTimeout s2 = false
              /\ last (sent s2) = Some (JObj welcome)
              /\ let '(c2, cevs) := KinectClient.handleMessage os welcome c1 in
                 KinectClient.connected c2 = true
                 /\ KinectClient.sessionId c2 = Some (JStr (sessionId svc))
                 /\ KinectClient.clientId c2 = Some (JStr clientId)
                 /\ cevs = [KinectClient.ready (Some (JStr (sessionId svc)))
                                               (Some (JStr "2.0"))].
Proof.
  intros Hopen Hplat. unfold handleConnection. simpl.
  eexists. rewrite lookup_insert_eq. simpl. split; [reflexivity|].
  unfold KinectClient.handleMessage, KinectClient.send. simpl. rewrite Hopen.
  eexists. split; [reflexivity|].
  unfold handleMessage. simpl. rewrite lookup_insert_eq. simpl.
  eexists _, _, _. rewrite lookup_insert_eq.
  split; [reflexivity|]. split; [set_solver|]. split; [by right; left|].
  split; [reflexivity|]. simpl. split; [done|]. split; [done|].
  split. { by rewrite bool_decide_false. }
  split; [done|]. split; [reflexivity|]. simpl. done.
Qed.

Lemma client_and_server_complete_the_handshake_witness :
  let c0 := KinectClient.mkClient OPEN None None false [] in
  KinectClient.readyState c0 = OPEN
  /\ "linux"%string <> ""%string
  /\ (
  let '(svc1, _) := handleConnection 0 "client-a" (new "session-x") in
  exists request,
    (sent <$> sockets svc1 !! 0%nat) = Some [JObj request]
    /\ let '(c1, _) := KinectClient.handleMessage "linux" request c0 in
       exists answer,
         KinectClient.sent c1 = KinectClient.sent c0 ++ [JObj answer]
         /\ let '(svc2, evs) := handleMessage "T" 0 (wellFormed (JObj answer)) "client-a" svc1 in
            exists s2 info welcome,
              sockets svc2 !! 0%nat = Some s2
              /\ 0%nat ∈ clients svc2
              /\ In (clientConnected "client-a") evs
              /\ clientInfo s2 = Some info
              /\ id info = "client-a"%string
              /\ name info = JStr "Kinect Client"
              /\ platform info = JStr "linux"
              /\ identificationTimeout s2 = false
              /\ last (sent s2) = Some (JObj welcome)
              /\ let '(c2, cevs) := KinectClient.handleMessage "linux" welcome c1 in
                 KinectClient.connected c2 = true
                 /\ KinectClient.sessionId c2 = Some (JStr (sessionId (new "session-x")))
                 /\ KinectClient.clientId c2 = Some (JStr "client-a")
                 /\ cevs = [KinectClient.ready (Some (JStr (sessionId (new "session-x"))))
                                               (Some (JStr "2.0"))]).
Proof.
  intros c0. split; [reflexivity|]. split; [discriminate|].
  apply (client_and_server_complete_the_handshake "T" 0 "client-a" "linux"
           (new "session-x") c0); [reflexivity|discriminate].
Defined.

End HandshakeExtras.
